(** * Memorial wall backend: bounded photo catalog, eviction and live updates

    A shallow embedding of the two server programs of the repository,

    - [src/server.js]: Cloudinary storage, PostgreSQL metadata, SSE;
    - [src/unnamed/part_000]: Cloudinary storage, SQLite metadata, SSE;

    and the properties of their catalog, capacity enforcement, routes and
    live-update channel.

    Conventions of the model.
    - A JavaScript value that may be [undefined] is an [option]; a number
      that may be [NaN] is an [option Z] with [None] for [NaN].
    - [createdAt] is [new Date().toISOString()], a UTC instant with
      millisecond precision; it is kept as the number of milliseconds since
      the epoch, which orders the same way as the instants.
    - The [photos] table is the list of its rows in storage order (the order
      of insertion, which is the order a table scan visits them).
    - Code that suspends ([await], callbacks) runs to completion in one
      step; the detached capacity-enforcement run is a step of its own.
    - What Cloudinary and the database engines answer when they fail is an
      input of each step ([Env]). *)

From Stdlib Require Import ZArith String Ascii Bool Arith List Lia.
From Stdlib Require Import Permutation Sorted FinFun.
Import ListNotations.

Local Open Scope string_scope.
Local Open Scope list_scope.
Local Open Scope Z_scope.

(* ===================================================================== *)
(** * JavaScript prelude *)
(* ===================================================================== *)

Module JS.

(** [x || d] where [x] is a string or [undefined]: the empty string is
    falsy, as [undefined] is. *)
Definition or_default (x : option string) (d : string) : string :=
  match x with
  | None => d
  | Some EmptyString => d
  | Some s => s
  end.

(** White space skipped by [parseInt] (the ASCII part of StrWhiteSpaceChar:
    TAB, LF, VT, FF, CR, SP). *)
Definition is_white (c : ascii) : bool :=
  let n := nat_of_ascii c in
  ((n =? 9) || (n =? 10) || (n =? 11) || (n =? 12) || (n =? 13) || (n =? 32))%nat.

Fixpoint trim_start (s : string) : string :=
  match s with
  | String c r => if is_white c then trim_start r else s
  | EmptyString => s
  end.

Definition digit_of (c : ascii) : option Z :=
  let n := nat_of_ascii c in
  if ((48 <=? n) && (n <=? 57))%nat then Some (Z.of_nat (n - 48)) else None.

(** The longest prefix of decimal digits, read as a number; [acc] is [None]
    as long as no digit was seen. *)
Fixpoint digits (s : string) (acc : option Z) : option Z :=
  match s with
  | String c r =>
      match digit_of c with
      | Some d => digits r (Some (10 * match acc with Some a => a | None => 0 end + d))
      | None => acc
      end
  | EmptyString => acc
  end.

(** [parseInt(s, 10)]: leading white space, an optional sign, then the
    longest run of decimal digits; [NaN] when there is no digit.  The
    result is the mathematical integer (a double represents it exactly up
    to 2^53 in absolute value). *)
Definition parseInt (s : string) : option Z :=
  match trim_start s with
  | String "-" r => option_map Z.opp (digits r None)
  | String "+" r => digits r None
  | t => digits t None
  end.

(** [Math.min(x, c)] with a number [c]: [NaN] is absorbing. *)
Definition Math_min (x : option Z) (c : Z) : option Z :=
  option_map (fun v => Z.min v c) x.

(** [a !== b] on values that are a string or [undefined]. *)
Definition strict_neq (a b : option string) : bool :=
  match a, b with
  | Some x, Some y => negb (String.eqb x y)
  | None, None => false
  | _, _ => true
  end.

End JS.

(* ===================================================================== *)
(** * Data model *)
(* ===================================================================== *)

(** One row of the [photos] table (both variants have the same five columns;
    PostgreSQL spells them [public_id], [thumbnail_url], [created_at]). *)
Record Photo := mkPhoto {
  id : string;
  publicId : string;
  url : string;
  thumbnailUrl : string;
  createdAt : Z
}.

(** The object sent to clients: [{ id, url, thumbnailUrl, createdAt }]. *)
Record PhotoView := mkView {
  v_id : string;
  v_url : string;
  v_thumbnailUrl : string;
  v_createdAt : Z
}.

Definition view (p : Photo) : PhotoView :=
  mkView (id p) (url p) (thumbnailUrl p) (createdAt p).

(** Frames written on the live-update channel. *)
Inductive Event :=
| Hello
| PhotoUploaded (photo : PhotoView)
| PhotoDeleted (pid : string).

(** JSON bodies of the responses. *)
Inductive Body :=
| Rows (rows : list PhotoView)
| Msg (message : string)
| MsgErr (message error : string)
| Uploaded (message : string) (photo : PhotoView)
| Deleted (message : string) (pid : string).

Record Response := json { status : nat; body : Body }.

(** The rows a response carries. *)
Definition rows_of (r : Response) : list PhotoView :=
  match body r with
  | Rows l => l
  | _ => []
  end.

(* ===================================================================== *)
(** * LIMIT and OFFSET *)
(* ===================================================================== *)

(** The first [n] rows, and the rows after them; [n] is the number the
    statement was given, and anything below one row takes nothing (drops
    nothing). *)
Fixpoint take {A} (n : Z) (l : list A) : list A :=
  match l with
  | [] => []
  | x :: r => if n <=? 0 then [] else x :: take (n - 1) r
  end.

Fixpoint drop {A} (n : Z) (l : list A) : list A :=
  match l with
  | [] => []
  | x :: r => if n <=? 0 then l else drop (n - 1) r
  end.

(* ===================================================================== *)
(** * ORDER BY key DESC *)
(* ===================================================================== *)

(** SQL leaves the relative order of rows with equal sort keys to the
    engine.  [order_by_desc] is the stable choice: rows with equal keys stay
    in scan order.  [ordered_desc] is the contract every engine meets. *)
Section OrderBy.

Variable key : Photo -> Z.

Fixpoint insert_desc (x : Photo) (l : list Photo) : list Photo :=
  match l with
  | [] => [x]
  | y :: r => if key y <=? key x then x :: l else y :: insert_desc x r
  end.

Fixpoint order_by_desc (l : list Photo) : list Photo :=
  match l with
  | [] => []
  | x :: r => insert_desc x (order_by_desc r)
  end.

(** Where a row goes that was stored after all the rows of [l]: behind
    every row whose key is at least its own. *)
Fixpoint insert_last (x : Photo) (l : list Photo) : list Photo :=
  match l with
  | [] => [x]
  | y :: r => if key y <? key x then x :: l else y :: insert_last x r
  end.

Definition desc (a b : Photo) : Prop := key b <= key a.

Definition ordered_desc (tbl res : list Photo) : Prop :=
  Permutation tbl res /\ StronglySorted desc res.

End OrderBy.

(* ===================================================================== *)
(** * The world: catalog, blob store, subscribers *)
(* ===================================================================== *)

(** A connection of the live-update channel (the [res] object of one
    [GET /events] request). *)
Abbreviation Handle := nat (only parsing).

Record World := mkWorld {
  photos : list Photo;              (* the photos table, in storage order *)
  blobs : list string;              (* public ids Cloudinary holds *)
  destroyCalls : list string;       (* cloudinary.uploader.destroy calls made *)
  sseClients : list Handle;         (* the Set, in insertion order *)
  wire : list (Handle * Event);     (* res.write calls made, oldest first *)
  nextHandle : Handle;              (* identity of the next res object *)
  detached : nat                    (* enforcement runs started, not yet run *)
}.

Definition set_photos (tbl : list Photo) (w : World) : World :=
  mkWorld tbl (blobs w) (destroyCalls w) (sseClients w) (wire w)
          (nextHandle w) (detached w).

Definition set_blobs (b : list string) (w : World) : World :=
  mkWorld (photos w) b (destroyCalls w) (sseClients w) (wire w)
          (nextHandle w) (detached w).

Definition set_detached (n : nat) (w : World) : World :=
  mkWorld (photos w) (blobs w) (destroyCalls w) (sseClients w) (wire w)
          (nextHandle w) n.

Definition empty_world : World := mkWorld [] [] [] [] [] 0%nat 0%nat.

(** What the collaborators answer during one step.  A fault is the message
    of the error thrown. *)
Record Env := mkEnv {
  secure_url_of : string -> string;        (* uploadResult.secure_url *)
  cloudinary_url : string -> string;       (* cloudinary.url(publicId, ...) *)
  uploadFault : option string;             (* upload_stream reports an error *)
  destroyFault : string -> option string;  (* uploader.destroy(pid) rejects *)
  selectFault : option string;             (* a SELECT fails *)
  insertFault : option string;             (* the INSERT fails *)
  deleteFault : option string              (* a DELETE fails *)
}.

(** Settings read from the process environment (same lines in both files). *)
Record Config := mkConfig {
  env_ADMIN_KEY : option string;
  env_MAX_PHOTOS : option string
}.

Definition ADMIN_KEY (cfg : Config) : string :=
  JS.or_default (env_ADMIN_KEY cfg) "12345".

Definition MAX_PHOTOS (cfg : Config) : option Z :=
  JS.parseInt (JS.or_default (env_MAX_PHOTOS cfg) "10000").

(* --------------------------------------------------------------------- *)
(** ** Steps that may throw *)
(* --------------------------------------------------------------------- *)

Inductive result (A : Type) :=
| Ok (a : A)
| Throw (e : string).
Arguments Ok {A} a.
Arguments Throw {A} e.

(** A computation on the world.  Effects made before a throw stay. *)
Definition M (A : Type) := World -> result A * World.

Definition ret {A} (a : A) : M A := fun w => (Ok a, w).

Definition throw {A} (e : string) : M A := fun w => (Throw e, w).

Definition bind {A B} (m : M A) (k : A -> M B) : M B :=
  fun w => match m w with
           | (Ok a, w') => k a w'
           | (Throw e, w') => (Throw e, w')
           end.

Definition try_catch {A} (m : M A) (h : string -> M A) : M A :=
  fun w => match m w with
           | (Ok a, w') => (Ok a, w')
           | (Throw e, w') => h e w'
           end.

(** A database call of node-sqlite3: the error reaches the callback as a
    value, nothing is thrown. *)
Definition callback {A} (m : M A) : M (result A) :=
  fun w => match m w with
           | (r, w') => (Ok r, w')
           end.

Declare Scope js_scope.
Delimit Scope js_scope with js.
Notation "x <- m ;; k" := (bind m (fun x => k))
  (at level 61, m at next level, right associativity) : js_scope.
Notation "m ;; k" := (bind m (fun _ => k))
  (at level 61, right associativity) : js_scope.
Local Open Scope js_scope.

Fixpoint for_each {A} (l : list A) (f : A -> M unit) : M unit :=
  match l with
  | [] => ret tt
  | x :: r => f x ;; for_each r f
  end.

Definition get_photos_table : M (list Photo) := fun w => (Ok (photos w), w).

Definition put_photos_table (tbl : list Photo) : M unit :=
  fun w => (Ok tt, set_photos tbl w).

(* --------------------------------------------------------------------- *)
(** ** Cloudinary *)
(* --------------------------------------------------------------------- *)

Definition remove_string (s : string) (l : list string) : list string :=
  filter (fun x => negb (String.eqb x s)) l.

Definition mem_string (s : string) (l : list string) : bool :=
  existsb (String.eqb s) l.

(** [cloudinary.uploader.destroy(pid)]: the call is made; it rejects on a
    fault, and removes the object otherwise (an unknown public id is not an
    error). *)
Definition cloudinary_destroy (env : Env) (pid : string) : M unit :=
  fun w =>
    let w1 := mkWorld (photos w) (blobs w) (destroyCalls w ++ [pid])
                      (sseClients w) (wire w) (nextHandle w) (detached w) in
    match destroyFault env pid with
    | Some e => (Throw e, w1)
    | None => (Ok tt, set_blobs (remove_string pid (blobs w1)) w1)
    end.

(** [upload_stream({ folder, public_id: id, overwrite: true }, cb)] wrapped
    in a promise: the object is stored under [folder/id] and the result
    carries [public_id] and [secure_url]. *)
Definition cloudinary_upload (env : Env) (folder ident : string)
  : M (string * string) :=
  fun w =>
    match uploadFault env with
    | Some e => (Throw e, w)
    | None =>
        let pid := (folder ++ "/" ++ ident)%string in
        let b := if mem_string pid (blobs w) then blobs w else blobs w ++ [pid] in
        (Ok (pid, secure_url_of env pid), set_blobs b w)
    end.

Definition makeThumbnailUrl (env : Env) (pid : string) : string :=
  cloudinary_url env pid.

(* --------------------------------------------------------------------- *)
(** ** Server-sent events (same text in both files) *)
(* --------------------------------------------------------------------- *)

Definition res_write (h : Handle) (ev : Event) : M unit :=
  fun w => (Ok tt, mkWorld (photos w) (blobs w) (destroyCalls w) (sseClients w)
                           (wire w ++ [(h, ev)]) (nextHandle w) (detached w)).

(** [for (const res of sseClients) res.write(payload)] *)
Definition sseSend (ev : Event) : M unit :=
  fun w => for_each (sseClients w) (fun h => res_write h ev) w.

Definition set_add (h : Handle) (s : list Handle) : list Handle :=
  if existsb (Nat.eqb h) s then s else s ++ [h].

Definition set_delete (h : Handle) (s : list Handle) : list Handle :=
  filter (fun x => negb (Nat.eqb x h)) s.

(** [GET /events]: a new [res]; it joins the set and is sent the hello
    frame.  The value is the handle, by which [close] finds it later. *)
Definition get_events : M Handle :=
  fun w =>
    let h := nextHandle w in
    let w1 := mkWorld (photos w) (blobs w) (destroyCalls w)
                      (set_add h (sseClients w)) (wire w) (S h) (detached w) in
    match res_write h Hello w1 with
    | (_, w2) => (Ok h, w2)
    end.

(** [req.on("close", ...)]: the handle leaves the set. *)
Definition on_close (h : Handle) : M unit :=
  fun w => (Ok tt, mkWorld (photos w) (blobs w) (destroyCalls w)
                           (set_delete h (sseClients w)) (wire w)
                           (nextHandle w) (detached w)).

(** The frames written to one connection, oldest first. *)
Definition received (h : Handle) (w : World) : list Event :=
  map snd (filter (fun x => Nat.eqb (fst x) h) (wire w)).

Definition spawn_enforce : M unit :=
  fun w => (Ok tt, set_detached (S (detached w)) w).

Definition has_id (i : string) (p : Photo) : bool := String.eqb (id p) i.

(** Rows whose id is not one of [ids]: what is left after
    [DELETE FROM photos WHERE id IN ids]. *)
Definition without_ids (ids : list string) (tbl : list Photo) : list Photo :=
  filter (fun p => negb (mem_string (id p) ids)) tbl.

(** [id TEXT PRIMARY KEY]: a row whose id is taken is refused. *)
Definition insert_row (dup_message : string) (p : Photo) (tbl : list Photo)
  : result (list Photo) :=
  if existsb (has_id (id p)) tbl then Throw dup_message else Ok (tbl ++ [p]).

(** The limit of [GET /photos] (same line in both files):
    [Math.min(parseInt(req.query.limit || "800", 10), 2000)]. *)
Definition photos_limit (q : option string) : option Z :=
  JS.Math_min (JS.parseInt (JS.or_default q "800")) 2000.

(* ===================================================================== *)
(** * src/server.js: PostgreSQL *)
(* ===================================================================== *)

Module Postgres.

(** [created_at TIMESTAMPTZ]: compared as the instant it is. *)
Definition sort_key (p : Photo) : Z := createdAt p.

(** [pool.query] rejects with the fault of the step, if any. *)
Definition pool_query {A} (fault : option string) (q : M A) : M A :=
  match fault with
  | Some e => throw e
  | None => q
  end.

(** [SELECT ... FROM photos ORDER BY created_at DESC LIMIT $1].
    PostgreSQL refuses a negative LIMIT, and a parameter that is not an
    integer. *)
Definition select_newest (env : Env) (limit : option Z) : M (list Photo) :=
  pool_query (selectFault env)
    (tbl <- get_photos_table ;;
     match limit with
     | None => throw "invalid input syntax for type bigint"
     | Some v =>
         if v <? 0 then throw "LIMIT must not be negative"
         else ret (take v (order_by_desc sort_key tbl))
     end).

(** [SELECT id, public_id FROM photos ORDER BY created_at DESC OFFSET $1] *)
Definition select_beyond (env : Env) (offset : option Z) : M (list Photo) :=
  pool_query (selectFault env)
    (tbl <- get_photos_table ;;
     match offset with
     | None => throw "invalid input syntax for type bigint"
     | Some v =>
         if v <? 0 then throw "OFFSET must not be negative"
         else ret (drop v (order_by_desc sort_key tbl))
     end).

(** [SELECT public_id FROM photos WHERE id = $1] *)
Definition select_by_id (env : Env) (i : string) : M (list Photo) :=
  pool_query (selectFault env)
    (tbl <- get_photos_table ;; ret (filter (has_id i) tbl)).

(** [INSERT INTO photos (...) VALUES ($1, $2, $3, $4, $5)] *)
Definition insert_photo (env : Env) (p : Photo) : M unit :=
  pool_query (insertFault env)
    (tbl <- get_photos_table ;;
     match insert_row "duplicate key value violates unique constraint" p tbl with
     | Ok tbl' => put_photos_table tbl'
     | Throw e => throw e
     end).

(** [DELETE FROM photos WHERE id = ANY($1::text[])] *)
Definition delete_any (env : Env) (ids : list string) : M unit :=
  pool_query (deleteFault env)
    (tbl <- get_photos_table ;; put_photos_table (without_ids ids tbl)).

(** [DELETE FROM photos WHERE id = $1] *)
Definition delete_by_id (env : Env) (i : string) : M unit :=
  pool_query (deleteFault env)
    (tbl <- get_photos_table ;; put_photos_table (without_ids [i] tbl)).

(** [async function enforceMaxPhotos()]: the value is the promise's
    outcome, [Throw] for a rejection. *)
Definition enforceMaxPhotos (cfg : Config) (env : Env) : M unit :=
  extra <- select_beyond env (MAX_PHOTOS cfg) ;;
  if (length extra =? 0)%nat then ret tt
  else
    let ids := map id extra in
    let publicIds := map publicId extra in
    for_each publicIds
      (fun pid => try_catch (cloudinary_destroy env pid) (fun _ => ret tt)) ;;
    delete_any env ids.

(** One detached run, [enforceMaxPhotos().catch(() => {})], carried out. *)
Definition run_detached (cfg : Config) (env : Env) (w : World) : World :=
  match detached w with
  | O => w
  | S n => snd (try_catch (enforceMaxPhotos cfg env) (fun _ => ret tt)
                          (set_detached n w))
  end.

(** [GET /photos] *)
Definition get_photos (env : Env) (q : option string) : M Response :=
  try_catch
    (let limit := photos_limit q in
     rows <- select_newest env limit ;;
     ret (json 200 (Rows (map view rows))))
    (fun err => ret (json 500 (MsgErr "DB error" err))).

(** [POST /upload]; [ident] is [uuidv4()], [now] is [new Date()]. *)
Definition post_upload (env : Env) (ident : string) (now : Z)
                       (file : option string) : M Response :=
  try_catch
    (match file with
     | None => ret (json 400 (Msg "No file uploaded"))
     | Some _ =>
         let createdAt := now in
         let folder := "memorial_wall" in
         uploadResult <- cloudinary_upload env folder ident ;;
         let publicId := fst uploadResult in
         let url := snd uploadResult in
         let thumbnailUrl := makeThumbnailUrl env publicId in
         insert_photo env (mkPhoto ident publicId url thumbnailUrl createdAt) ;;
         spawn_enforce ;;
         let photo := mkView ident url thumbnailUrl createdAt in
         sseSend (PhotoUploaded photo) ;;
         ret (json 200 (Uploaded "Uploaded successfully" photo))
     end)
    (fun err => ret (json 500 (MsgErr "Upload failed" err))).

(** [DELETE /photos/:id]; [key] is the [x-admin-key] header. *)
Definition delete_photo (cfg : Config) (env : Env) (key : option string)
                        (i : string) : M Response :=
  try_catch
    (if JS.strict_neq key (Some (ADMIN_KEY cfg))
     then ret (json 403 (Msg "Forbidden (Admin only)"))
     else
       row <- select_by_id env i ;;
       match row with
       | [] => ret (json 404 (Msg "Photo not found"))
       | r :: _ =>
           let publicId := publicId r in
           try_catch (cloudinary_destroy env publicId) (fun _ => ret tt) ;;
           delete_by_id env i ;;
           sseSend (PhotoDeleted i) ;;
           ret (json 200 (Deleted "Photo deleted successfully" i))
       end)
    (fun err => ret (json 500 (MsgErr "Delete failed" err))).

End Postgres.

(* ===================================================================== *)
(** * src/unnamed/part_000: SQLite *)
(* ===================================================================== *)

Module Sqlite.

(** [datetime(createdAt)] is the text [YYYY-MM-DD HH:MM:SS]: the instant
    cut to whole seconds. *)
Definition datetime (t : Z) : Z := t / 1000.

Definition sort_key (p : Photo) : Z := datetime (createdAt p).

(** A statement of node-sqlite3; its error is handed to the callback. *)
Definition db_call {A} (fault : option string) (q : M A) : M (result A) :=
  callback (match fault with
            | Some e => throw e
            | None => q
            end).

(** [LIMIT ? OFFSET ?] of SQLite: a negative limit is no limit, a negative
    offset is no offset; a value that is not an integer is refused. *)
Definition limit_offset (limit offset : option Z) (rows : list Photo)
  : result (list Photo) :=
  match limit, offset with
  | Some l, Some o =>
      let rest := drop o rows in
      Ok (if l <? 0 then rest else take l rest)
  | _, _ => Throw "SQLITE_MISMATCH: datatype mismatch"
  end.

(** [SELECT ... FROM photos ORDER BY datetime(createdAt) DESC LIMIT ?] *)
Definition select_newest (env : Env) (limit : option Z)
  : M (result (list Photo)) :=
  db_call (selectFault env)
    (tbl <- get_photos_table ;;
     match limit_offset limit (Some 0) (order_by_desc sort_key tbl) with
     | Ok rows => ret rows
     | Throw e => throw e
     end).

(** [SELECT id, publicId FROM photos ORDER BY datetime(createdAt) DESC
     LIMIT ? OFFSET ?] *)
Definition select_beyond (env : Env) (limit offset : option Z)
  : M (result (list Photo)) :=
  db_call (selectFault env)
    (tbl <- get_photos_table ;;
     match limit_offset limit offset (order_by_desc sort_key tbl) with
     | Ok rows => ret rows
     | Throw e => throw e
     end).

(** [SELECT publicId FROM photos WHERE id = ?] with [db.get]: the first
    row, or [undefined]. *)
Definition select_by_id (env : Env) (i : string) : M (result (option Photo)) :=
  db_call (selectFault env)
    (tbl <- get_photos_table ;; ret (head (filter (has_id i) tbl))).

(** [INSERT INTO photos (...) VALUES (?, ?, ?, ?, ?)] *)
Definition insert_photo (env : Env) (p : Photo) : M (result unit) :=
  db_call (insertFault env)
    (tbl <- get_photos_table ;;
     match insert_row "SQLITE_CONSTRAINT: UNIQUE constraint failed: photos.id" p tbl with
     | Ok tbl' => put_photos_table tbl'
     | Throw e => throw e
     end).

(** [DELETE FROM photos WHERE id IN (?,...,?)] *)
Definition delete_in (env : Env) (ids : list string) : M (result unit) :=
  db_call (deleteFault env)
    (tbl <- get_photos_table ;; put_photos_table (without_ids ids tbl)).

(** [DELETE FROM photos WHERE id = ?] *)
Definition delete_by_id (env : Env) (i : string) : M (result unit) :=
  db_call (deleteFault env)
    (tbl <- get_photos_table ;; put_photos_table (without_ids [i] tbl)).

(** [function enforceMaxPhotos()], with the callback of [db.all] run. *)
Definition enforceMaxPhotos (cfg : Config) (env : Env) : M unit :=
  r <- select_beyond env (Some 1000000) (MAX_PHOTOS cfg) ;;
  match r with
  | Throw _ => ret tt
  | Ok rows =>
      if (length rows =? 0)%nat then ret tt
      else
        let ids := map id rows in
        let publicIds := map publicId rows in
        for_each publicIds
          (fun pid => try_catch (cloudinary_destroy env pid) (fun _ => ret tt)) ;;
        delete_in env ids ;;
        ret tt
  end.

(** One detached run, [enforceMaxPhotos()], carried out. *)
Definition run_detached (cfg : Config) (env : Env) (w : World) : World :=
  match detached w with
  | O => w
  | S n => snd (enforceMaxPhotos cfg env (set_detached n w))
  end.

(** [GET /photos] *)
Definition get_photos (env : Env) (q : option string) : M Response :=
  let limit := photos_limit q in
  r <- select_newest env limit ;;
  match r with
  | Throw err => ret (json 500 (MsgErr "DB error" err))
  | Ok rows => ret (json 200 (Rows (map view rows)))
  end.

(** [POST /upload]; [ident] is [uuidv4()], [now] is [new Date()]. *)
Definition post_upload (env : Env) (ident : string) (now : Z)
                       (file : option string) : M Response :=
  try_catch
    (match file with
     | None => ret (json 400 (Msg "No file uploaded"))
     | Some _ =>
         let createdAt := now in
         let folder := "memorial_wall" in
         uploadResult <- cloudinary_upload env folder ident ;;
         let publicId := fst uploadResult in
         let url := snd uploadResult in
         let thumbnailUrl := makeThumbnailUrl env publicId in
         r <- insert_photo env (mkPhoto ident publicId url thumbnailUrl createdAt) ;;
         match r with
         | Throw err => ret (json 500 (MsgErr "DB insert error" err))
         | Ok _ =>
             spawn_enforce ;;
             let photo := mkView ident url thumbnailUrl createdAt in
             sseSend (PhotoUploaded photo) ;;
             ret (json 200 (Uploaded "Uploaded successfully" photo))
         end
     end)
    (fun error => ret (json 500 (MsgErr "Upload failed" error))).

(** [DELETE /photos/:id]; [key] is the [x-admin-key] header. *)
Definition delete_photo (cfg : Config) (env : Env) (key : option string)
                        (i : string) : M Response :=
  if JS.strict_neq key (Some (ADMIN_KEY cfg))
  then ret (json 403 (Msg "Forbidden (Admin only)"))
  else
    r <- select_by_id env i ;;
    match r with
    | Throw err => ret (json 500 (MsgErr "DB error" err))
    | Ok None => ret (json 404 (Msg "Photo not found"))
    | Ok (Some row) =>
        try_catch (cloudinary_destroy env (publicId row)) (fun _ => ret tt) ;;
        r2 <- delete_by_id env i ;;
        match r2 with
        | Throw err2 => ret (json 500 (MsgErr "DB delete error" err2))
        | Ok _ =>
            sseSend (PhotoDeleted i) ;;
            ret (json 200 (Deleted "Photo deleted successfully" i))
        end
    end.

End Sqlite.

(* ===================================================================== *)
(** * Runs and the notions the properties are stated with *)
(* ===================================================================== *)

(** The value a route answers with. *)
Definition answer (x : result Response * World) : option Response :=
  match fst x with
  | Ok r => Some r
  | Throw _ => None
  end.

Definition rows_in (x : result Response * World) : list PhotoView :=
  match fst x with
  | Ok r => rows_of r
  | Throw _ => []
  end.

(** The same collaborators, with other failures of [uploader.destroy]. *)
Definition with_destroyFault (d : string -> option string) (env : Env) : Env :=
  mkEnv (secure_url_of env) (cloudinary_url env) (uploadFault env) d
        (selectFault env) (insertFault env) (deleteFault env).

(** No database statement fails. *)
Definition db_up (env : Env) : Prop :=
  selectFault env = None /\ insertFault env = None /\ deleteFault env = None.

(** What a loop of best-effort destroys leaves in the blob store. *)
Definition blobs_after (env : Env) (pids : list string) (b : list string)
  : list string :=
  fold_left (fun b pid => match destroyFault env pid with
                          | Some _ => b
                          | None => remove_string pid b
                          end) pids b.

(** The world after the best-effort destroys of [pids]: every call was
    made, the catalog is as it was. *)
Definition after_destroys (env : Env) (pids : list string) (w : World) : World :=
  mkWorld (photos w) (blobs_after env pids (blobs w)) (destroyCalls w ++ pids)
          (sseClients w) (wire w) (nextHandle w) (detached w).

(** The world after [ev] was written to every connection of [hs]. *)
Definition after_writes (hs : list Handle) (ev : Event) (w : World) : World :=
  mkWorld (photos w) (blobs w) (destroyCalls w) (sseClients w)
          (wire w ++ map (fun h => (h, ev)) hs) (nextHandle w) (detached w).

(** One upload: the values the request and its surroundings provide. *)
Record Upload := mkUpload {
  u_id : string;      (* uuidv4() *)
  u_now : Z;          (* new Date() *)
  u_file : string     (* req.file.buffer *)
}.

(** The row an upload stores. *)
Definition row_of (env : Env) (u : Upload) : Photo :=
  let pid := ("memorial_wall" ++ "/" ++ u_id u)%string in
  mkPhoto (u_id u) pid (secure_url_of env pid) (cloudinary_url env pid) (u_now u).

(** An upload followed by the enforcement run it started. *)
Definition pg_upload_settled (cfg : Config) (env : Env) (u : Upload)
                             (w : World) : World :=
  Postgres.run_detached cfg env
    (snd (Postgres.post_upload env (u_id u) (u_now u) (Some (u_file u)) w)).

Definition sqlite_upload_settled (cfg : Config) (env : Env) (u : Upload)
                                 (w : World) : World :=
  Sqlite.run_detached cfg env
    (snd (Sqlite.post_upload env (u_id u) (u_now u) (Some (u_file u)) w)).

(** Uploads made one after the other, each one settled before the next. *)
Definition pg_uploads (cfg : Config) (env : Env) (us : list Upload)
                      (w : World) : World :=
  fold_left (fun w u => pg_upload_settled cfg env u w) us w.

Definition sqlite_uploads (cfg : Config) (env : Env) (us : list Upload)
                          (w : World) : World :=
  fold_left (fun w u => sqlite_upload_settled cfg env u w) us w.

(** The catalog after an enforcement run that meets no database fault:
    the rows past [m] in the order of [key] are gone. *)
Definition evict (key : Photo -> Z) (m : Z) (tbl : list Photo) : list Photo :=
  without_ids (map id (drop m (order_by_desc key tbl))) tbl.

(** Sequential uploads, each followed by its enforcement run, at the level
    of the table. *)
Definition settle (key : Photo -> Z) (m : Z) (rows : list Photo) : list Photo :=
  fold_left (fun tbl r => evict key m (tbl ++ [r])) rows [].


(** The rows each variant selects for eviction when [MAX_PHOTOS] is [m]. *)
Definition pg_candidates (m : Z) (tbl : list Photo) : list Photo :=
  drop m (order_by_desc Postgres.sort_key tbl).

Definition sqlite_candidates (m : Z) (tbl : list Photo) : list Photo :=
  take 1000000 (drop m (order_by_desc Sqlite.sort_key tbl)).


(** The operations of the live-update channel. *)
Inductive BusOp :=
| Connect
| Close (h : Handle)
| Publish (ev : Event).

Definition bus_step (w : World) (op : BusOp) : World :=
  match op with
  | Connect => snd (get_events w)
  | Close h => snd (on_close h w)
  | Publish ev => snd (sseSend ev w)
  end.

Definition bus_run (ops : list BusOp) (w : World) : World :=
  fold_left bus_step ops w.

(** The events published by [ops] up to the moment [h] closes. *)
Fixpoint published_until_close (h : Handle) (ops : list BusOp) : list Event :=
  match ops with
  | [] => []
  | Publish ev :: r => ev :: published_until_close h r
  | Close h' :: r => if Nat.eqb h' h then [] else published_until_close h r
  | Connect :: r => published_until_close h r
  end.

(** Handles in use are older than the next one, and the set has no
    duplicates. *)
Definition bus_wf (w : World) : Prop :=
  NoDup (sseClients w) /\
  Forall (fun h => (h < nextHandle w)%nat) (sseClients w) /\
  Forall (fun x => (fst x < nextHandle w)%nat) (wire w).

(** The world after an authorized delete of a stored photo went through. *)
Definition after_delete (env : Env) (i : string) (r : Photo) (w : World) : World :=
  let w2 := set_photos (without_ids [i] (photos w))
                       (after_destroys env [publicId r] w) in
  after_writes (sseClients w2) (PhotoDeleted i) w2.

(** The world after an upload went through. *)
Definition after_upload (env : Env) (u : Upload) (w : World) : World :=
  let pid := ("memorial_wall" ++ "/" ++ u_id u)%string in
  let b := if mem_string pid (blobs w) then blobs w else blobs w ++ [pid] in
  let w2 := set_detached (S (detached w))
              (set_photos (photos w ++ [row_of env u]) (set_blobs b w)) in
  after_writes (sseClients w) (PhotoUploaded (view (row_of env u))) w2.

(** The world after the blob of an upload was stored and the insert failed. *)
Definition after_blob (u : Upload) (w : World) : World :=
  let pid := ("memorial_wall" ++ "/" ++ u_id u)%string in
  set_blobs (if mem_string pid (blobs w) then blobs w else blobs w ++ [pid]) w.

(** What the run decides once its SELECT is answered with [extra]. *)
Definition pg_evict (env : Env) (extra : list Photo) (w : World)
  : result unit * World :=
  match extra with
  | [] => (Ok tt, w)
  | _ =>
      let w1 := after_destroys env (map publicId extra) w in
      match deleteFault env with
      | Some e => (Throw e, w1)
      | None => (Ok tt, set_photos (without_ids (map id extra) (photos w)) w1)
      end
  end.

Definition sqlite_evict (env : Env) (rows : list Photo) (w : World)
  : result unit * World :=
  match rows with
  | [] => (Ok tt, w)
  | _ =>
      let w1 := after_destroys env (map publicId rows) w in
      match deleteFault env with
      | Some _ => (Ok tt, w1)
      | None => (Ok tt, set_photos (without_ids (map id rows) (photos w)) w1)
      end
  end.

(* --------------------------------------------------------------------- *)
(** ** Sample data *)
(* --------------------------------------------------------------------- *)

(** A catalog of [n] rows with distinct ids, stored oldest first, one
    second apart. *)
Fixpoint xs (n : nat) : string :=
  match n with
  | O => ""
  | S k => String "x" (xs k)
  end.

Definition sample_id (i : nat) : string := xs (S i).

Definition sample_row (i : nat) : Photo :=
  let pid := ("memorial_wall" ++ "/" ++ sample_id i)%string in
  mkPhoto (sample_id i) pid pid pid (1000 * Z.of_nat i).

Definition sample_catalog (n : nat) : list Photo := map sample_row (seq 0 n).

(** Collaborators that never fail. *)
Definition sample_env : Env :=
  mkEnv (fun pid => ("https://res.cloudinary.com/wall/image/upload/" ++ pid)%string)
        (fun pid => ("https://res.cloudinary.com/wall/image/upload/c_fill,h_250,w_250/" ++ pid)%string)
        None (fun _ => None) None None None.

(** Two rows created at the same instant, stored in the order of their ids. *)
Definition tie_a : Photo :=
  mkPhoto "a" "memorial_wall/a" "https://img/a" "https://thumb/a" 5000.

Definition tie_b : Photo :=
  mkPhoto "b" "memorial_wall/b" "https://img/b" "https://thumb/b" 5000.


(** Three uploads made one after the other within one second. *)
Definition burst : list Upload :=
  [mkUpload "A" 1000 "a.jpg"; mkUpload "B" 1100 "b.jpg"; mkUpload "C" 1200 "c.jpg"].

(** The scenario of the specification, with its instants read as
    milliseconds and as seconds. *)
Definition scenario_ms : list Upload :=
  [mkUpload "A" 1 "a.jpg"; mkUpload "B" 2 "b.jpg"; mkUpload "C" 3 "c.jpg"].

Definition scenario_s : list Upload :=
  [mkUpload "A" 1000 "a.jpg"; mkUpload "B" 2000 "b.jpg"; mkUpload "C" 3000 "c.jpg"].

Definition max_two : Config := mkConfig None (Some "2").

(** Collaborators whose database refuses the INSERT. *)
Definition insert_down : Env :=
  mkEnv (secure_url_of sample_env) (cloudinary_url sample_env)
        None (fun _ => None) None (Some "connection lost") None.



(* --------------------------------------------------------------------- *)
(** ** The server as a machine *)
(* --------------------------------------------------------------------- *)

(** What reaches the server: the requests of the routes, and the turn of a
    detached enforcement run. *)
Inductive Request :=
| ListPhotos (q : option string)
| UploadPhoto (ident : string) (now : Z) (file : option string)
| DeletePhoto (key : option string) (i : string)
| Enforce
| OpenEvents
| CloseEvents (h : Handle).

Definition pg_serve (cfg : Config) (w : World) (er : Env * Request) : World :=
  let env := fst er in
  match snd er with
  | ListPhotos q => snd (Postgres.get_photos env q w)
  | UploadPhoto ident now file => snd (Postgres.post_upload env ident now file w)
  | DeletePhoto key i => snd (Postgres.delete_photo cfg env key i w)
  | Enforce => Postgres.run_detached cfg env w
  | OpenEvents => snd (get_events w)
  | CloseEvents h => snd (on_close h w)
  end.

Definition sqlite_serve (cfg : Config) (w : World) (er : Env * Request) : World :=
  let env := fst er in
  match snd er with
  | ListPhotos q => snd (Sqlite.get_photos env q w)
  | UploadPhoto ident now file => snd (Sqlite.post_upload env ident now file w)
  | DeletePhoto key i => snd (Sqlite.delete_photo cfg env key i w)
  | Enforce => Sqlite.run_detached cfg env w
  | OpenEvents => snd (get_events w)
  | CloseEvents h => snd (on_close h w)
  end.

(** Requests served one at a time, each with the collaborators of its
    moment. *)
Definition pg_serve_all (cfg : Config) (trace : list (Env * Request))
                        (w : World) : World :=
  fold_left (pg_serve cfg) trace w.

Definition sqlite_serve_all (cfg : Config) (trace : list (Env * Request))
                            (w : World) : World :=
  fold_left (sqlite_serve cfg) trace w.

(** The public id [POST /upload] gives to the photo of an id. *)
Definition keyed (p : Photo) : Prop :=
  publicId p = ("memorial_wall" ++ "/" ++ id p)%string.

(** Ids are unique and every row carries the public id of its id. *)
Definition catalog_ok (w : World) : Prop :=
  NoDup (map id (photos w)) /\ Forall keyed (photos w).

(** Every row of the catalog has its object in the blob store. *)
Definition blobs_cover (w : World) : Prop :=
  Forall (fun p => In (publicId p) (blobs w)) (photos w).

(** The rows of a listing are newest first. *)
Definition newest_first (rows : list PhotoView) : Prop :=
  StronglySorted (fun a b => v_createdAt b <= v_createdAt a) rows.

(** The rows of a SQLite listing are newest first to the second. *)
Definition newest_first_by_second (rows : list PhotoView) : Prop :=
  StronglySorted (fun a b => Sqlite.datetime (v_createdAt b)
                             <= Sqlite.datetime (v_createdAt a)) rows.

(** All the events [ops] publish. *)
Fixpoint published (ops : list BusOp) : list Event :=
  match ops with
  | [] => []
  | Publish ev :: r => ev :: published r
  | _ :: r => published r
  end.

(** The event an answer announces: the photo of a 200 that carries one,
    the id of a 200 that carries a deleted id, nothing otherwise. *)
Definition event_of (r : result Response) : list Event :=
  match r with
  | Ok resp =>
      if (status resp =? 200)%nat then
        match body resp with
        | Uploaded _ photo => [PhotoUploaded photo]
        | Deleted _ i => [PhotoDeleted i]
        | _ => []
        end
      else []
  | Throw _ => []
  end.

(** The frames a route owes the connections for its answer: one per
    connection for each event the answer announces. *)
Definition frames_for (r : result Response) (hs : list Handle)
  : list (Handle * Event) :=
  flat_map (fun ev => map (fun h => (h, ev)) hs) (event_of r).

(** The event a step announces: that of its answer when it is a request
    of a route, none when it is an enforcement run or the opening or closing
    of a connection. *)
Definition pg_event (cfg : Config) (w : World) (er : Env * Request)
  : list Event :=
  let env := fst er in
  match snd er with
  | ListPhotos q => event_of (fst (Postgres.get_photos env q w))
  | UploadPhoto ident now file =>
      event_of (fst (Postgres.post_upload env ident now file w))
  | DeletePhoto key i => event_of (fst (Postgres.delete_photo cfg env key i w))
  | _ => []
  end.

Definition sqlite_event (cfg : Config) (w : World) (er : Env * Request)
  : list Event :=
  let env := fst er in
  match snd er with
  | ListPhotos q => event_of (fst (Sqlite.get_photos env q w))
  | UploadPhoto ident now file =>
      event_of (fst (Sqlite.post_upload env ident now file w))
  | DeletePhoto key i => event_of (fst (Sqlite.delete_photo cfg env key i w))
  | _ => []
  end.

(** The events a trace announces, in order. *)
Fixpoint pg_announced (cfg : Config) (trace : list (Env * Request))
                      (w : World) : list Event :=
  match trace with
  | [] => []
  | er :: r => pg_event cfg w er ++ pg_announced cfg r (pg_serve cfg w er)
  end.

Fixpoint sqlite_announced (cfg : Config) (trace : list (Env * Request))
                          (w : World) : list Event :=
  match trace with
  | [] => []
  | er :: r => sqlite_event cfg w er
               ++ sqlite_announced cfg r (sqlite_serve cfg w er)
  end.

(** The rows each variant lists when the lookup is answered and the limit
    is a number. *)
Definition pg_listed (v : Z) (tbl : list Photo) : list Photo :=
  if v <? 0 then [] else take v (order_by_desc Postgres.sort_key tbl).

Definition sqlite_listed (v : Z) (tbl : list Photo) : list Photo :=
  if v <? 0 then order_by_desc Sqlite.sort_key tbl
  else take v (order_by_desc Sqlite.sort_key tbl).

(** What one step of the server may do to the two stores, with the
    collaborators [env] of that step: nothing to the catalog; one new row
    whose object is stored; rows deleted after a destroy call for each; or,
    when the DELETE statement fails, the destroy calls alone. *)
Inductive step_effect (env : Env) (w w' : World) : Prop :=
| eff_none :
    photos w' = photos w -> incl (blobs w) (blobs w') ->
    step_effect env w w'
| eff_add (p : Photo) :
    photos w' = photos w ++ [p] ->
    ~ In (id p) (map id (photos w)) -> keyed p ->
    In (publicId p) (blobs w') -> incl (blobs w) (blobs w') ->
    step_effect env w w'
| eff_del (rows : list Photo) :
    incl rows (photos w) ->
    photos w' = without_ids (map id rows) (photos w) ->
    blobs w' = blobs_after env (map publicId rows) (blobs w) ->
    step_effect env w w'
| eff_torn (rows : list Photo) :
    deleteFault env <> None ->
    photos w' = photos w ->
    blobs w' = blobs_after env (map publicId rows) (blobs w) ->
    step_effect env w w'.

(** Every step of a trace has a database that answers its DELETE
    statements. *)
Definition answers_deletes (trace : list (Env * Request)) : Prop :=
  Forall (fun er => deleteFault (fst er) = None) trace.

(** Every enforcement run of a trace has a database that answers its
    SELECT and DELETE statements. *)
Definition enforcement_answered (trace : list (Env * Request)) : Prop :=
  Forall (fun er => snd er = Enforce ->
                    selectFault (fst er) = None /\ deleteFault (fst er) = None)
         trace.

(** The catalog is over [m] rows by no more than the number of enforcement
    runs still to come. *)
Definition within_reach (m : Z) (w : World) : Prop :=
  Z.of_nat (length (photos w)) <= m + Z.of_nat (detached w).

(** What a route does to the channel when its answer is [ans]: the set and
    the handles stay, and the frames of the answer are written. *)
Definition channel_kept (ans : result Response) (w w' : World) : Prop :=
  sseClients w' = sseClients w
  /\ nextHandle w' = nextHandle w
  /\ wire w' = wire w ++ frames_for ans (sseClients w).

(* ===================================================================== *)
(** * Facts about the ordering *)
(* ===================================================================== *)

Lemma take_firstn {A} (n : Z) (l : list A) : take n l = firstn (Z.to_nat n) l.
Proof.
  revert n. induction l as [|x r IH]; intros n; simpl.
  - now rewrite firstn_nil.
  - destruct (n <=? 0) eqn:E.
    + apply Z.leb_le in E. now replace (Z.to_nat n) with 0%nat by lia.
    + apply Z.leb_gt in E.
      replace (Z.to_nat n) with (S (Z.to_nat (n - 1))) by lia.
      simpl. now rewrite IH.
Qed.

Lemma drop_skipn {A} (n : Z) (l : list A) : drop n l = skipn (Z.to_nat n) l.
Proof.
  revert n. induction l as [|x r IH]; intros n; simpl.
  - now rewrite skipn_nil.
  - destruct (n <=? 0) eqn:E.
    + apply Z.leb_le in E. now replace (Z.to_nat n) with 0%nat by lia.
    + apply Z.leb_gt in E.
      replace (Z.to_nat n) with (S (Z.to_nat (n - 1))) by lia.
      simpl. now rewrite IH.
Qed.

Lemma take_drop {A} (n : Z) (l : list A) : take n l ++ drop n l = l.
Proof. rewrite take_firstn, drop_skipn. apply firstn_skipn. Qed.


Lemma take_length {A} (n : Z) (l : list A) :
  length (take n l) = Nat.min (Z.to_nat n) (length l).
Proof. rewrite take_firstn. apply length_firstn. Qed.

Lemma take_all {A} (n : Z) (l : list A) :
  Z.of_nat (length l) <= n -> take n l = l.
Proof. intros H. rewrite take_firstn. apply firstn_all2. lia. Qed.

Section OrderByFacts.

Variable key : Photo -> Z.

Lemma insert_desc_perm x l : Permutation (x :: l) (insert_desc key x l).
Proof.
  induction l as [|y r IH]; simpl; [reflexivity|].
  destruct (key y <=? key x); [reflexivity|].
  rewrite perm_swap. now apply perm_skip.
Qed.

Lemma order_by_desc_perm l : Permutation l (order_by_desc key l).
Proof.
  induction l as [|x r IH]; simpl; [constructor|].
  rewrite <- insert_desc_perm. now apply perm_skip.
Qed.

Lemma insert_desc_sorted x l :
  StronglySorted (desc key) l -> StronglySorted (desc key) (insert_desc key x l).
Proof.
  induction 1 as [|y r Hs IH Hall]; simpl.
  - repeat constructor.
  - destruct (key y <=? key x) eqn:E.
    + apply Z.leb_le in E. constructor; [now constructor|].
      constructor; [exact E|].
      eapply Forall_impl; [|exact Hall]. unfold desc. intros; lia.
    + apply Z.leb_gt in E. constructor; [exact IH|].
      eapply Permutation_Forall; [apply insert_desc_perm|].
      constructor; [unfold desc; lia|exact Hall].
Qed.

Lemma order_by_desc_sorted l : StronglySorted (desc key) (order_by_desc key l).
Proof.
  induction l; simpl; [constructor|now apply insert_desc_sorted].
Qed.


Lemma order_by_desc_length l : length (order_by_desc key l) = length l.
Proof. symmetry. apply Permutation_length, order_by_desc_perm. Qed.

Lemma order_by_desc_In p l : In p (order_by_desc key l) <-> In p l.
Proof.
  split; apply Permutation_in; [symmetry|]; apply order_by_desc_perm.
Qed.

(** A row at least as new as all of a list goes in front of it. *)
Lemma insert_desc_front x l :
  Forall (fun y => key y <= key x) l -> insert_desc key x l = x :: l.
Proof.
  destruct 1 as [|y r Hy _]; simpl; [reflexivity|].
  apply Z.leb_le in Hy. now rewrite Hy.
Qed.

(** Selecting rows commutes with the stable ordering. *)
Lemma filter_insert_desc f x l :
  StronglySorted (desc key) l ->
  filter f (insert_desc key x l) =
  if f x then insert_desc key x (filter f l) else filter f l.
Proof.
  induction 1 as [|y r Hs IH Hall]; simpl.
  - now destruct (f x).
  - destruct (key y <=? key x) eqn:E; simpl.
    + destruct (f x) eqn:Fx; [|reflexivity].
      destruct (f y) eqn:Fy; simpl; [now rewrite E|].
      symmetry. apply insert_desc_front.
      apply Z.leb_le in E. apply Forall_forall. intros z Hz.
      apply filter_In in Hz. destruct Hz as [Hz _].
      rewrite Forall_forall in Hall. specialize (Hall z Hz).
      unfold desc in Hall. lia.
    + rewrite IH. destruct (f y) eqn:Fy, (f x) eqn:Fx; simpl;
        try reflexivity.
      now rewrite E.
Qed.

Lemma filter_order_by_desc f l :
  order_by_desc key (filter f l) = filter f (order_by_desc key l).
Proof.
  induction l as [|x r IH]; simpl; [reflexivity|].
  rewrite filter_insert_desc by apply order_by_desc_sorted.
  destruct (f x); simpl; now rewrite IH.
Qed.

(** The two insertions commute: one row arrives in front of the scan, the
    other behind it. *)
Lemma insert_desc_insert_last a x l :
  insert_desc key a (insert_last key x l) =
  insert_last key x (insert_desc key a l).
Proof.
  induction l as [|y r IH]; simpl.
  - destruct (key x <=? key a) eqn:E1, (key a <? key x) eqn:E2;
      try reflexivity;
      [apply Z.leb_le in E1; apply Z.ltb_lt in E2
      |apply Z.leb_gt in E1; apply Z.ltb_ge in E2]; lia.
  - destruct (key y <? key x) eqn:E1, (key y <=? key a) eqn:E2; simpl;
      rewrite ?E1, ?E2; simpl.
    + apply Z.ltb_lt in E1. apply Z.leb_le in E2.
      destruct (key x <=? key a) eqn:E3, (key a <? key x) eqn:E4;
        try reflexivity;
        [apply Z.leb_le in E3; apply Z.ltb_lt in E4
        |apply Z.leb_gt in E3; apply Z.ltb_ge in E4]; lia.
    + apply Z.ltb_lt in E1. apply Z.leb_gt in E2.
      destruct (key x <=? key a) eqn:E3; [apply Z.leb_le in E3; lia|].
      reflexivity.
    + apply Z.ltb_ge in E1. apply Z.leb_le in E2.
      destruct (key a <? key x) eqn:E3; [apply Z.ltb_lt in E3; lia|].
      reflexivity.
    + now rewrite IH.
Qed.

(** The row stored last comes behind the rows of its own key. *)
Lemma order_by_desc_snoc l x :
  order_by_desc key (l ++ [x]) = insert_last key x (order_by_desc key l).
Proof.
  induction l as [|a r IH]; simpl; [reflexivity|].
  rewrite IH. apply insert_desc_insert_last.
Qed.

Lemma firstn_insert_last n x l :
  firstn n (insert_last key x (firstn n l)) = firstn n (insert_last key x l).
Proof.
  revert n. induction l as [|y r IH]; intros [|n]; simpl; try reflexivity.
  destruct (key y <? key x); simpl.
  - f_equal. change (y :: firstn n r) with (firstn (S n) (y :: r)).
    rewrite firstn_firstn. f_equal. lia.
  - f_equal. apply IH.
Qed.




End OrderByFacts.

(** When no two rows share a sort key, the contract of ORDER BY leaves one
    answer only: every engine returns what [order_by_desc] returns. *)
Lemma ordered_desc_unique key (s1 s2 : list Photo) :
  StronglySorted (desc key) s1 -> StronglySorted (desc key) s2 ->
  Permutation s1 s2 -> NoDup (map key s1) -> s1 = s2.
Proof.
  intros H1. revert s2.
  induction H1 as [|x r1 Hs1 IH Hall1]; intros s2 H2 Hperm Hnd.
  - apply Permutation_nil in Hperm. now subst.
  - destruct s2 as [|y r2];
      [apply Permutation_sym, Permutation_nil in Hperm; discriminate|].
    inversion H2 as [|? ? Hs2 Hall2]; subst.
    inversion Hnd as [|? ? Hx Hr]; subst.
    assert (Exy : x = y).
    { assert (Hx2 : In x (y :: r2))
        by (eapply Permutation_in; [exact Hperm|now left]).
      assert (Hy1 : In y (x :: r1))
        by (eapply Permutation_in; [symmetry; exact Hperm|now left]).
      destruct Hy1 as [E|Hy1]; [exact E|].
      destruct Hx2 as [E|Hx2]; [now symmetry|].
      rewrite Forall_forall in Hall1, Hall2.
      pose proof (Hall1 y Hy1) as L1. pose proof (Hall2 x Hx2) as L2.
      unfold desc in L1, L2. exfalso. apply Hx.
      replace (key x) with (key y) by lia. now apply in_map. }
    subst y. f_equal. apply IH; [exact Hs2| |exact Hr].
    eapply Permutation_cons_inv. exact Hperm.
Qed.

Lemma ordered_desc_any_engine key tbl s :
  NoDup (map key tbl) -> ordered_desc key tbl s -> s = order_by_desc key tbl.
Proof.
  intros Hnd (Hperm & Hs).
  apply (ordered_desc_unique key); [exact Hs|apply order_by_desc_sorted| |].
  - etransitivity; [symmetry; exact Hperm|apply order_by_desc_perm].
  - eapply Permutation_NoDup; [|exact Hnd]. now apply Permutation_map.
Qed.

(* ===================================================================== *)
(** * Facts about the steps *)
(* ===================================================================== *)

Lemma mem_string_In s l : mem_string s l = true <-> In s l.
Proof.
  unfold mem_string. rewrite existsb_exists. split.
  - intros [x [Hx E]]. apply String.eqb_eq in E. now subst.
  - intros H. exists s. split; [exact H|apply String.eqb_refl].
Qed.

Lemma mem_string_false s l : mem_string s l = false <-> ~ In s l.
Proof.
  rewrite <- mem_string_In. destruct (mem_string s l); split; congruence.
Qed.

Lemma world_eta w :
  mkWorld (photos w) (blobs w) (destroyCalls w) (sseClients w) (wire w)
          (nextHandle w) (detached w) = w.
Proof. now destruct w. Qed.

(** The loop of best-effort destroys never throws and leaves the catalog
    alone, whatever Cloudinary answers. *)
Lemma destroy_all env pids w :
  for_each pids
    (fun pid => try_catch (cloudinary_destroy env pid) (fun _ => ret tt)) w
  = (Ok tt, after_destroys env pids w).
Proof.
  revert w. induction pids as [|pid r IH]; intros w.
  - unfold after_destroys. simpl. unfold ret. rewrite app_nil_r.
    now rewrite world_eta.
  - cbn [for_each]. unfold bind at 1.
    unfold try_catch at 1, cloudinary_destroy at 1.
    destruct (destroyFault env pid) eqn:E; cbn [ret];
      rewrite IH; unfold after_destroys, set_blobs; cbn;
      rewrite E, <- app_assoc; reflexivity.
Qed.

(** [sseSend] writes the frame once to every member of the set, in the
    order of the set, and to nobody else. *)
Lemma for_each_write hs ev w :
  for_each hs (fun h => res_write h ev) w = (Ok tt, after_writes hs ev w).
Proof.
  revert w. induction hs as [|h r IH]; intros w.
  - unfold after_writes. simpl. unfold ret. rewrite app_nil_r.
    now rewrite world_eta.
  - cbn [for_each]. unfold bind at 1, res_write at 1.
    rewrite IH. unfold after_writes. cbn. now rewrite <- app_assoc.
Qed.

Lemma sseSend_spec ev w :
  sseSend ev w = (Ok tt, after_writes (sseClients w) ev w).
Proof. unfold sseSend. apply for_each_write. Qed.

Lemma NoDup_app_apart {A} (l1 l2 : list A) x :
  NoDup (l1 ++ l2) -> In x l1 -> ~ In x l2.
Proof.
  induction l1 as [|a r IH]; simpl; intros Hnd Hin; [contradiction|].
  inversion Hnd as [|? ? Hna Hr]; subst.
  destruct Hin as [->|Hin]; [|now apply IH].
  intros Hx. apply Hna, in_or_app. now right.
Qed.

Lemma without_ids_all (ids : list string) (l : list Photo) :
  incl (map id l) ids -> without_ids ids l = [].
Proof.
  induction l as [|z l IH]; intros Hincl; [reflexivity|].
  unfold without_ids. simpl.
  assert (Hz : mem_string (id z) ids = true)
    by (apply mem_string_In, Hincl; now left).
  rewrite Hz. simpl. apply IH. intros q Hq. apply Hincl. now right.
Qed.

Lemma without_ids_none (ids : list string) (l : list Photo) :
  (forall p, In p l -> ~ In (id p) ids) -> without_ids ids l = l.
Proof.
  intros H. apply forallb_filter_id, forallb_forall.
  intros p Hp. apply negb_true_iff, mem_string_false. now apply H.
Qed.

(** Deleting the rows past [n] of an ordering of a table with distinct ids
    leaves its first [n] rows. *)
Lemma without_ids_app (a b : list Photo) :
  NoDup (map id (a ++ b)) -> without_ids (map id b) (a ++ b) = a.
Proof.
  intros Hnd. rewrite map_app in Hnd.
  unfold without_ids. rewrite filter_app.
  fold (without_ids (map id b) a). fold (without_ids (map id b) b).
  rewrite (without_ids_all (map id b) b) by apply incl_refl.
  rewrite app_nil_r. apply without_ids_none.
  intros p Hp. eapply NoDup_app_apart; [exact Hnd|now apply in_map].
Qed.

Lemma without_ids_skipn n (s : list Photo) :
  NoDup (map id s) ->
  without_ids (map id (skipn n s)) s = firstn n s.
Proof.
  intros Hnd. rewrite <- (firstn_skipn n s) at 2.
  apply without_ids_app. now rewrite firstn_skipn.
Qed.

(** What an enforcement run without database fault leaves, read in the
    order of the key: the first [m] rows of the catalog. *)
Lemma evict_ordered key m tbl :
  NoDup (map id tbl) ->
  order_by_desc key (evict key m tbl) = take m (order_by_desc key tbl).
Proof.
  intros Hnd. unfold evict, without_ids.
  rewrite filter_order_by_desc, take_firstn, drop_skipn.
  apply (without_ids_skipn (Z.to_nat m) (order_by_desc key tbl)).
  eapply Permutation_NoDup; [|exact Hnd].
  apply Permutation_map, order_by_desc_perm.
Qed.

Lemma evict_incl key m tbl : incl (evict key m tbl) tbl.
Proof. apply incl_filter. Qed.

Lemma evict_NoDup key m tbl :
  NoDup (map id tbl) -> NoDup (map id (evict key m tbl)).
Proof.
  unfold evict, without_ids. generalize (map id (drop m (order_by_desc key tbl))).
  intros ids. induction tbl as [|x r IH]; simpl; intros Hnd; [constructor|].
  inversion Hnd as [|? ? Hx Hr]; subst.
  destruct (negb (mem_string (id x) ids)); simpl; [|now apply IH].
  constructor; [|now apply IH].
  intros Hin. apply Hx. apply in_map_iff in Hin.
  destruct Hin as (p & Ep & Hp). apply filter_In in Hp.
  rewrite <- Ep. apply in_map. tauto.
Qed.

Lemma settle_snoc key m rows r :
  settle key m (rows ++ [r]) = evict key m (settle key m rows ++ [r]).
Proof. unfold settle. now rewrite fold_left_app. Qed.

Lemma settle_spec key m rows :
  NoDup (map id rows) ->
  order_by_desc key (settle key m rows) = take m (order_by_desc key rows)
  /\ NoDup (map id (settle key m rows))
  /\ incl (settle key m rows) rows.
Proof.
  induction rows as [|r rows IH] using rev_ind; intros Hnd.
  - cbn. repeat split; [constructor|apply incl_refl].
  - rewrite map_app in Hnd. simpl in Hnd.
    destruct (IH (NoDup_app_remove_r _ _ Hnd)) as (Hord & Hn & Hincl).
    assert (Hfresh : NoDup (map id (settle key m rows ++ [r]))).
    { rewrite map_app. simpl. apply NoDup_app; [exact Hn|repeat constructor; intros []|].
      intros i Hi [<-|[]]. apply in_map_iff in Hi. destruct Hi as (p & Ep & Hp).
      apply (NoDup_app_apart _ _ (id p) Hnd); [apply in_map, Hincl, Hp|].
      left. now rewrite Ep. }
    rewrite settle_snoc. repeat split.
    + rewrite evict_ordered by exact Hfresh.
      rewrite !order_by_desc_snoc, Hord, !take_firstn. apply firstn_insert_last.
    + now apply evict_NoDup.
    + intros p Hp. apply evict_incl in Hp. apply in_app_or in Hp.
      apply in_or_app. destruct Hp as [Hp|Hp]; [left; now apply Hincl|now right].
Qed.


(* --------------------------------------------------------------------- *)
(** ** Capacity enforcement, in closed form *)
(* --------------------------------------------------------------------- *)

Lemma pg_enforce_cases cfg env w :
  Postgres.enforceMaxPhotos cfg env w =
  match selectFault env with
  | Some e => (Throw e, w)
  | None =>
      match MAX_PHOTOS cfg with
      | None => (Throw "invalid input syntax for type bigint", w)
      | Some m =>
          if m <? 0 then (Throw "OFFSET must not be negative", w)
          else pg_evict env (pg_candidates m (photos w)) w
      end
  end.
Proof.
  unfold Postgres.enforceMaxPhotos, Postgres.select_beyond, Postgres.pool_query.
  destruct (selectFault env); [reflexivity|].
  unfold bind at 1. unfold bind at 1. unfold get_photos_table at 1.
  destruct (MAX_PHOTOS cfg) as [m|]; [|reflexivity].
  destruct (m <? 0); [reflexivity|].
  unfold ret at 1. fold (pg_candidates m (photos w)). unfold pg_evict.
  destruct (pg_candidates m (photos w)) as [|p extra]; [reflexivity|].
  cbn [length Nat.eqb]. unfold bind at 1. rewrite destroy_all.
  unfold Postgres.delete_any, Postgres.pool_query.
  destruct (deleteFault env); reflexivity.
Qed.

Lemma sqlite_enforce_cases cfg env w :
  Sqlite.enforceMaxPhotos cfg env w =
  match selectFault env with
  | Some e => (Ok tt, w)
  | None =>
      match MAX_PHOTOS cfg with
      | None => (Ok tt, w)
      | Some m => sqlite_evict env (sqlite_candidates m (photos w)) w
      end
  end.
Proof.
  unfold Sqlite.enforceMaxPhotos, Sqlite.select_beyond, Sqlite.db_call, callback.
  destruct (selectFault env); [reflexivity|].
  unfold bind at 1. unfold bind at 1. unfold get_photos_table at 1.
  unfold Sqlite.limit_offset.
  destruct (MAX_PHOTOS cfg) as [m|]; [|reflexivity].
  change (1000000 <? 0) with false. cbv iota.
  unfold ret at 1. fold (sqlite_candidates m (photos w)). unfold sqlite_evict.
  destruct (sqlite_candidates m (photos w)) as [|p rows]; [reflexivity|].
  cbn [length Nat.eqb]. unfold bind at 1. rewrite destroy_all.
  unfold Sqlite.delete_in, Sqlite.db_call, callback.
  destruct (deleteFault env); reflexivity.
Qed.

Lemma pg_enforce_run cfg env w m :
  selectFault env = None -> MAX_PHOTOS cfg = Some m -> 0 <= m ->
  Postgres.enforceMaxPhotos cfg env w
  = pg_evict env (pg_candidates m (photos w)) w.
Proof.
  intros Hs Hm Hpos. rewrite pg_enforce_cases, Hs, Hm.
  destruct (m <? 0) eqn:E; [apply Z.ltb_lt in E; lia|reflexivity].
Qed.

Lemma sqlite_enforce_run cfg env w m :
  selectFault env = None -> MAX_PHOTOS cfg = Some m ->
  Sqlite.enforceMaxPhotos cfg env w
  = sqlite_evict env (sqlite_candidates m (photos w)) w.
Proof.
  intros Hs Hm. now rewrite sqlite_enforce_cases, Hs, Hm.
Qed.

(* --------------------------------------------------------------------- *)
(** ** The live-update channel *)
(* --------------------------------------------------------------------- *)

Lemma existsb_eqb_In h (hs : list Handle) :
  existsb (Nat.eqb h) hs = true <-> In h hs.
Proof.
  rewrite existsb_exists. split.
  - intros [x [Hx E]]. apply Nat.eqb_eq in E. now subst.
  - intros H. exists h. split; [exact H|apply Nat.eqb_refl].
Qed.

Lemma set_add_fresh h (hs : list Handle) :
  ~ In h hs -> set_add h hs = hs ++ [h].
Proof.
  intros H. unfold set_add.
  destruct (existsb (Nat.eqb h) hs) eqn:E; [|reflexivity].
  apply existsb_eqb_In in E. contradiction.
Qed.

Lemma set_delete_In h x (hs : list Handle) :
  In x (set_delete h hs) <-> In x hs /\ x <> h.
Proof.
  unfold set_delete. rewrite filter_In, negb_true_iff, Nat.eqb_neq. tauto.
Qed.

(** Frames of [ev] written to the members of [hs] that reach [h]. *)
Lemma received_writes h (ev : Event) (hs : list Handle) :
  NoDup hs ->
  map snd (filter (fun x => Nat.eqb (fst x) h) (map (fun h' => (h', ev)) hs))
  = if existsb (Nat.eqb h) hs then [ev] else [].
Proof.
  induction 1 as [|a r Ha Hr IH]; simpl; [reflexivity|].
  rewrite (Nat.eqb_sym h a). destruct (Nat.eqb a h) eqn:E; simpl.
  - apply Nat.eqb_eq in E. subst a. rewrite IH.
    destruct (existsb (Nat.eqb h) r) eqn:Er; [|reflexivity].
    apply existsb_eqb_In in Er. contradiction.
  - exact IH.
Qed.

Lemma received_after_writes h ev w :
  NoDup (sseClients w) ->
  received h (after_writes (sseClients w) ev w)
  = received h w ++ (if existsb (Nat.eqb h) (sseClients w) then [ev] else []).
Proof.
  intros Hnd. unfold received, after_writes. cbn [wire].
  rewrite filter_app, map_app. f_equal. now apply received_writes.
Qed.

Lemma fresh_handle_not_member w :
  bus_wf w -> ~ In (nextHandle w) (sseClients w).
Proof.
  intros (_ & Hc & _) Hin. rewrite Forall_forall in Hc.
  specialize (Hc _ Hin). lia.
Qed.

Lemma bus_wf_empty : bus_wf empty_world.
Proof. repeat split; constructor. Qed.

Lemma bus_wf_step w op : bus_wf w -> bus_wf (bus_step w op).
Proof.
  intros Hwf. pose proof (fresh_handle_not_member w Hwf) as Hfresh.
  destruct Hwf as (Hnd & Hc & Hw). destruct op as [|h|ev]; simpl.
  - unfold get_events, res_write. cbn.
    rewrite set_add_fresh by exact Hfresh. repeat split; cbn.
    + apply NoDup_app; [exact Hnd|repeat constructor; intros []|].
      intros a Ha [<-|[]]. contradiction.
    + apply Forall_app. split; [|repeat constructor].
      eapply Forall_impl; [|exact Hc]. cbn. intros; lia.
    + apply Forall_app. split; [|repeat constructor].
      eapply Forall_impl; [|exact Hw]. cbn. intros; lia.
  - repeat split; cbn.
    + now apply NoDup_filter.
    + apply Forall_forall. intros x Hx. apply set_delete_In in Hx.
      rewrite Forall_forall in Hc. apply Hc. tauto.
    + exact Hw.
  - rewrite sseSend_spec. repeat split; cbn; try assumption.
    apply Forall_app. split; [exact Hw|].
    apply Forall_forall. intros x Hx. apply in_map_iff in Hx.
    destruct Hx as (a & <- & Ha). cbn. rewrite Forall_forall in Hc. now apply Hc.
Qed.

Lemma bus_wf_run ops w : bus_wf w -> bus_wf (bus_run ops w).
Proof.
  revert w. induction ops as [|op r IH]; intros w Hwf; [exact Hwf|].
  apply IH, bus_wf_step, Hwf.
Qed.

(** A connection opened before and not in the set receives nothing more:
    later connections get other handles. *)
Lemma received_closed h ops w :
  bus_wf w -> (h < nextHandle w)%nat -> ~ In h (sseClients w) ->
  received h (bus_run ops w) = received h w.
Proof.
  revert w. induction ops as [|op r IH]; intros w Hwf Hlt Hout; [reflexivity|].
  pose proof (bus_wf_step w op Hwf) as Hwf'.
  pose proof (fresh_handle_not_member w Hwf) as Hfresh.
  cbn [bus_run fold_left]. fold (bus_run r (bus_step w op)).
  destruct op as [|h'|ev].
  - rewrite IH; try exact Hwf'.
    + cbn. unfold get_events, res_write, received. cbn.
      rewrite filter_app, map_app. cbn.
      destruct (Nat.eqb (nextHandle w) h) eqn:E;
        [apply Nat.eqb_eq in E; lia|]. cbn. apply app_nil_r.
    + cbn. lia.
    + cbn. rewrite set_add_fresh by exact Hfresh.
      intros Hin. apply in_app_or in Hin. destruct Hin as [Hin|[E|[]]];
        [contradiction|lia].
  - rewrite IH; try exact Hwf'; [reflexivity|exact Hlt|].
    cbn. intros Hin. apply set_delete_In in Hin. tauto.
  - rewrite IH; try exact Hwf'.
    + cbn [bus_step]. rewrite sseSend_spec. cbn [snd].
      rewrite received_after_writes by apply Hwf.
      destruct (existsb (Nat.eqb h) (sseClients w)) eqn:E;
        [apply existsb_eqb_In in E; contradiction|apply app_nil_r].
    + cbn [bus_step]. rewrite sseSend_spec. exact Hlt.
    + cbn [bus_step]. rewrite sseSend_spec. exact Hout.
Qed.

(** A connection in the set receives exactly the events published until it
    closes. *)
Lemma received_open h ops w :
  bus_wf w -> In h (sseClients w) ->
  received h (bus_run ops w) = received h w ++ published_until_close h ops.
Proof.
  revert w. induction ops as [|op r IH]; intros w Hwf Hin;
    [symmetry; apply app_nil_r|].
  pose proof (bus_wf_step w op Hwf) as Hwf'.
  pose proof (fresh_handle_not_member w Hwf) as Hfresh.
  assert (Hlt : (h < nextHandle w)%nat).
  { destruct Hwf as (_ & Hc & _). rewrite Forall_forall in Hc. now apply Hc. }
  cbn [bus_run fold_left]. fold (bus_run r (bus_step w op)).
  destruct op as [|h'|ev]; cbn [published_until_close].
  - rewrite IH; try exact Hwf'.
    + f_equal. cbn. unfold get_events, res_write, received. cbn.
      rewrite filter_app, map_app. cbn.
      destruct (Nat.eqb (nextHandle w) h) eqn:E;
        [apply Nat.eqb_eq in E; lia|]. cbn. apply app_nil_r.
    + cbn. rewrite set_add_fresh by exact Hfresh. apply in_or_app. now left.
  - destruct (Nat.eqb h' h) eqn:E.
    + apply Nat.eqb_eq in E. subst h'.
      rewrite received_closed; try exact Hwf'; [now rewrite app_nil_r|exact Hlt|].
      cbn. intros Hx. apply set_delete_In in Hx. tauto.
    + apply Nat.eqb_neq in E. rewrite IH; try exact Hwf'; [reflexivity|].
      cbn. apply set_delete_In. split; [exact Hin|congruence].
  - rewrite IH; try exact Hwf'.
    + cbn [bus_step]. rewrite sseSend_spec. cbn [snd].
      rewrite received_after_writes by apply Hwf.
      apply existsb_eqb_In in Hin. rewrite Hin.
      now rewrite <- app_assoc.
    + cbn [bus_step]. rewrite sseSend_spec. exact Hin.
Qed.

Lemma received_fresh w : bus_wf w -> received (nextHandle w) w = [].
Proof.
  intros (_ & _ & Hw). unfold received.
  induction (wire w) as [|x r IH]; [reflexivity|].
  inversion Hw as [|? ? Hx Hr]; subst. simpl in Hx |- *.
  destruct (Nat.eqb (fst x) (nextHandle w)) eqn:E;
    [apply Nat.eqb_eq in E; lia|now apply IH].
Qed.

(** C7: a connection opened after any run of the channel (whatever was
    published in it) receives its hello frame and then exactly the events
    published from then on until it closes, none of the earlier ones; and a
    publish writes one frame to each member of the set at that moment, and
    nothing else. *)
Theorem late_subscriber_gets_no_backlog (ops0 ops1 : list BusOp) :
  let w0 := bus_run ops0 empty_world in
  let h := nextHandle w0 in
  fst (get_events w0) = Ok h
  /\ received h w0 = []
  /\ received h (bus_run ops1 (snd (get_events w0)))
     = Hello :: published_until_close h ops1
  /\ forall ev w,
       wire (snd (sseSend ev w))
       = wire w ++ map (fun c => (c, ev)) (sseClients w).
Proof.
  intros w0 h.
  assert (Hwf : bus_wf w0) by (apply bus_wf_run, bus_wf_empty).
  pose proof (fresh_handle_not_member w0 Hwf) as Hfresh.
  split; [reflexivity|]. split; [now apply received_fresh|]. split.
  - change (snd (get_events w0)) with (bus_step w0 Connect).
    rewrite received_open.
    + pose proof (received_fresh w0 Hwf) as Hnone.
      unfold received in Hnone |- *. fold h in Hnone.
      unfold bus_step, get_events, res_write. cbn.
      rewrite filter_app, map_app, Hnone. cbn. subst h.
      now rewrite Nat.eqb_refl.
    + apply bus_wf_step, Hwf.
    + cbn. rewrite set_add_fresh by exact Hfresh. apply in_or_app. right. now left.
  - intros ev w. now rewrite sseSend_spec.
Qed.

(* --------------------------------------------------------------------- *)
(** ** The routes, in closed form *)
(* --------------------------------------------------------------------- *)

Lemma destroy_one env pid w :
  try_catch (cloudinary_destroy env pid) (fun _ => ret tt) w
  = (Ok tt, after_destroys env [pid] w).
Proof.
  unfold try_catch, cloudinary_destroy, after_destroys, blobs_after, set_blobs.
  cbn. destruct (destroyFault env pid); reflexivity.
Qed.

Lemma strict_neq_same k : JS.strict_neq (Some k) (Some k) = false.
Proof. cbn. now rewrite String.eqb_refl. Qed.

Lemma pg_delete_authorized cfg env i w :
  Postgres.delete_photo cfg env (Some (ADMIN_KEY cfg)) i w =
  match selectFault env with
  | Some e => (Ok (json 500 (MsgErr "Delete failed" e)), w)
  | None =>
      match filter (has_id i) (photos w) with
      | [] => (Ok (json 404 (Msg "Photo not found")), w)
      | r :: _ =>
          match deleteFault env with
          | Some e => (Ok (json 500 (MsgErr "Delete failed" e)),
                       after_destroys env [publicId r] w)
          | None => (Ok (json 200 (Deleted "Photo deleted successfully" i)),
                     after_delete env i r w)
          end
      end
  end.
Proof.
  unfold Postgres.delete_photo. rewrite strict_neq_same.
  unfold try_catch at 1. unfold bind at 1.
  unfold Postgres.select_by_id, Postgres.pool_query.
  destruct (selectFault env) as [e|]; [reflexivity|].
  unfold bind at 1. unfold get_photos_table at 1. unfold ret at 1.
  destruct (filter (has_id i) (photos w)) as [|r rest]; [reflexivity|].
  unfold bind at 1. rewrite destroy_one.
  unfold bind at 1. unfold Postgres.delete_by_id, Postgres.pool_query.
  destruct (deleteFault env) as [e|]; [reflexivity|].
  unfold bind at 1. unfold get_photos_table at 1.
  unfold put_photos_table at 1. unfold bind at 1.
  rewrite sseSend_spec. reflexivity.
Qed.

Lemma sqlite_delete_authorized cfg env i w :
  Sqlite.delete_photo cfg env (Some (ADMIN_KEY cfg)) i w =
  match selectFault env with
  | Some e => (Ok (json 500 (MsgErr "DB error" e)), w)
  | None =>
      match filter (has_id i) (photos w) with
      | [] => (Ok (json 404 (Msg "Photo not found")), w)
      | r :: _ =>
          match deleteFault env with
          | Some e => (Ok (json 500 (MsgErr "DB delete error" e)),
                       after_destroys env [publicId r] w)
          | None => (Ok (json 200 (Deleted "Photo deleted successfully" i)),
                     after_delete env i r w)
          end
      end
  end.
Proof.
  unfold Sqlite.delete_photo. rewrite strict_neq_same.
  unfold bind at 1.
  unfold Sqlite.select_by_id, Sqlite.db_call, callback.
  destruct (selectFault env) as [e|]; [reflexivity|].
  unfold bind at 1. unfold get_photos_table at 1. unfold ret at 1.
  destruct (filter (has_id i) (photos w)) as [|r rest]; cbn [head];
    [reflexivity|].
  unfold bind at 1. rewrite destroy_one.
  unfold bind at 1. unfold Sqlite.delete_by_id, Sqlite.db_call, callback.
  destruct (deleteFault env) as [e|]; [reflexivity|].
  unfold bind at 1. unfold get_photos_table at 1.
  unfold put_photos_table at 1. unfold bind at 1.
  rewrite sseSend_spec. reflexivity.
Qed.

Lemma pg_upload_run env u w :
  Postgres.post_upload env (u_id u) (u_now u) (Some (u_file u)) w =
  match uploadFault env with
  | Some e => (Ok (json 500 (MsgErr "Upload failed" e)), w)
  | None =>
      match insertFault env with
      | Some e => (Ok (json 500 (MsgErr "Upload failed" e)), after_blob u w)
      | None =>
          if existsb (has_id (u_id u)) (photos w)
          then (Ok (json 500 (MsgErr "Upload failed"
                      "duplicate key value violates unique constraint")),
                after_blob u w)
          else (Ok (json 200 (Uploaded "Uploaded successfully"
                                       (view (row_of env u)))),
                after_upload env u w)
      end
  end.
Proof.
  unfold Postgres.post_upload. unfold try_catch at 1. unfold bind at 1.
  unfold cloudinary_upload at 1.
  destruct (uploadFault env) as [e|]; [reflexivity|].
  cbn [fst snd]. unfold bind at 1.
  unfold Postgres.insert_photo, Postgres.pool_query.
  destruct (insertFault env) as [e|]; [reflexivity|].
  unfold bind at 1. unfold get_photos_table at 1. unfold insert_row.
  cbn [id photos set_blobs].
  destruct (existsb (has_id (u_id u)) (photos w)); [reflexivity|].
  unfold put_photos_table at 1. unfold bind at 1. unfold spawn_enforce at 1.
  unfold bind at 1. rewrite sseSend_spec. reflexivity.
Qed.

Lemma sqlite_upload_run env u w :
  Sqlite.post_upload env (u_id u) (u_now u) (Some (u_file u)) w =
  match uploadFault env with
  | Some e => (Ok (json 500 (MsgErr "Upload failed" e)), w)
  | None =>
      match insertFault env with
      | Some e => (Ok (json 500 (MsgErr "DB insert error" e)), after_blob u w)
      | None =>
          if existsb (has_id (u_id u)) (photos w)
          then (Ok (json 500 (MsgErr "DB insert error"
                      "SQLITE_CONSTRAINT: UNIQUE constraint failed: photos.id")),
                after_blob u w)
          else (Ok (json 200 (Uploaded "Uploaded successfully"
                                       (view (row_of env u)))),
                after_upload env u w)
      end
  end.
Proof.
  unfold Sqlite.post_upload. unfold try_catch at 1. unfold bind at 1.
  unfold cloudinary_upload at 1.
  destruct (uploadFault env) as [e|]; [reflexivity|].
  cbn [fst snd]. unfold bind at 1.
  unfold Sqlite.insert_photo, Sqlite.db_call, callback.
  destruct (insertFault env) as [e|]; [reflexivity|].
  unfold bind at 1. unfold get_photos_table at 1. unfold insert_row.
  cbn [id photos set_blobs].
  destruct (existsb (has_id (u_id u)) (photos w)); [reflexivity|].
  unfold put_photos_table at 1. unfold bind at 1. unfold spawn_enforce at 1.
  unfold bind at 1. rewrite sseSend_spec. reflexivity.
Qed.

Lemma drop_0 {A} (l : list A) : drop 0 l = l.
Proof. now destruct l. Qed.

Lemma pg_get_photos_run env q w :
  Postgres.get_photos env q w =
  match selectFault env with
  | Some e => (Ok (json 500 (MsgErr "DB error" e)), w)
  | None =>
      match photos_limit q with
      | None => (Ok (json 500 (MsgErr "DB error"
                                      "invalid input syntax for type bigint")), w)
      | Some v =>
          if v <? 0
          then (Ok (json 500 (MsgErr "DB error" "LIMIT must not be negative")), w)
          else (Ok (json 200 (Rows (map view
                  (take v (order_by_desc Postgres.sort_key (photos w)))))), w)
      end
  end.
Proof.
  unfold Postgres.get_photos, Postgres.select_newest, Postgres.pool_query.
  unfold try_catch, bind, get_photos_table, ret, throw.
  destruct (selectFault env); [reflexivity|].
  destruct (photos_limit q) as [v|]; [|reflexivity].
  destruct (v <? 0); reflexivity.
Qed.

Lemma sqlite_get_photos_run env q w :
  Sqlite.get_photos env q w =
  match selectFault env with
  | Some e => (Ok (json 500 (MsgErr "DB error" e)), w)
  | None =>
      match photos_limit q with
      | None => (Ok (json 500 (MsgErr "DB error"
                                      "SQLITE_MISMATCH: datatype mismatch")), w)
      | Some v =>
          (Ok (json 200 (Rows (map view
             (if v <? 0 then order_by_desc Sqlite.sort_key (photos w)
              else take v (order_by_desc Sqlite.sort_key (photos w)))))), w)
      end
  end.
Proof.
  unfold Sqlite.get_photos, Sqlite.select_newest, Sqlite.db_call, callback.
  unfold Sqlite.limit_offset, bind, get_photos_table, ret, throw.
  destruct (selectFault env); [reflexivity|].
  destruct (photos_limit q) as [v|]; [|reflexivity].
  rewrite drop_0. destruct (v <? 0); reflexivity.
Qed.

(* --------------------------------------------------------------------- *)
(** ** The limit of GET /photos *)
(* --------------------------------------------------------------------- *)

Lemma parseInt_empty : JS.parseInt "" = None.
Proof. reflexivity. Qed.

Lemma or_default_given q d : q <> "" -> JS.or_default (Some q) d = q.
Proof. destruct q; [congruence|reflexivity]. Qed.

Lemma photos_limit_absent : photos_limit None = Some 800.
Proof. reflexivity. Qed.

Lemma photos_limit_parsed q v :
  JS.parseInt q = Some v -> photos_limit (Some q) = Some (Z.min v 2000).
Proof.
  intros H. unfold photos_limit. rewrite or_default_given.
  - now rewrite H.
  - intros ->. discriminate.
Qed.

Lemma photos_limit_nan q :
  q <> "" -> JS.parseInt q = None -> photos_limit (Some q) = None.
Proof.
  intros Hq H. unfold photos_limit. rewrite or_default_given by exact Hq.
  now rewrite H.
Qed.

(** No request makes [photos_limit] exceed the ceiling. *)
Lemma photos_limit_ceiling q v : photos_limit q = Some v -> v <= 2000.
Proof.
  unfold photos_limit, JS.Math_min.
  destruct (JS.parseInt (JS.or_default q "800")); cbn; [|discriminate].
  intros [= <-]. lia.
Qed.

(** The PostgreSQL variant never answers with more than 2000 rows. *)
Lemma pg_get_photos_bounded env q w :
  (length (rows_in (Postgres.get_photos env q w)) <= 2000)%nat.
Proof.
  rewrite pg_get_photos_run. unfold rows_in.
  destruct (selectFault env); cbn; [lia|].
  destruct (photos_limit q) as [v|] eqn:E; cbn; [|lia].
  apply photos_limit_ceiling in E.
  destruct (v <? 0); cbn; [lia|].
  rewrite length_map, take_length. lia.
Qed.

(** The SQLite variant keeps to the limit when the limit is not negative. *)
Lemma sqlite_get_photos_bounded env q w v :
  photos_limit q = Some v -> 0 <= v ->
  (length (rows_in (Sqlite.get_photos env q w)) <= Z.to_nat v)%nat.
Proof.
  intros E Hv. rewrite sqlite_get_photos_run. unfold rows_in.
  destruct (selectFault env); cbn; [lia|]. rewrite E. cbn.
  destruct (v <? 0) eqn:En; [apply Z.ltb_lt in En; lia|].
  rewrite length_map, take_length. lia.
Qed.

Lemma firstn_min_length {A} (n : nat) (l : list A) :
  firstn (Nat.min n (length l)) l = firstn n l.
Proof.
  destruct (Nat.le_gt_cases n (length l)) as [H|H].
  - now rewrite Nat.min_l.
  - rewrite Nat.min_r by lia. rewrite firstn_all.
    symmetry. apply firstn_all2. lia.
Qed.

Lemma firstn_same_min {A} (a b : nat) (l : list A) :
  Nat.min a (length l) = Nat.min b (length l) -> firstn a l = firstn b l.
Proof.
  intros H. rewrite <- (firstn_min_length a), <- (firstn_min_length b).
  now rewrite H.
Qed.

Lemma take_prefix {A} (k : Z) (l : list A) :
  0 <= k ->
  take (Z.min k 2000) l
  = firstn (Nat.min (Z.to_nat k) (length l)) (take (Z.min (k + 1) 2000) l).
Proof.
  intros Hk. rewrite !take_firstn, firstn_firstn.
  apply firstn_same_min. lia.
Qed.

(** With pairwise distinct sort keys the prefix property holds for the
    answers of any engine, whatever it does with ties. *)
Lemma listing_prefix_any_engine key tbl s1 s2 k :
  NoDup (map key tbl) ->
  ordered_desc key tbl s1 -> ordered_desc key tbl s2 -> 0 <= k ->
  take (Z.min k 2000) s1
  = firstn (Nat.min (Z.to_nat k) (length tbl)) (take (Z.min (k + 1) 2000) s2).
Proof.
  intros Hnd H1 H2 Hk.
  rewrite (ordered_desc_any_engine key tbl s1 Hnd H1).
  rewrite (ordered_desc_any_engine key tbl s2 Hnd H2).
  rewrite <- (order_by_desc_length key tbl). now apply take_prefix.
Qed.



Lemma xs_length n : String.length (xs n) = n.
Proof. induction n; simpl; congruence. Qed.

Lemma sample_catalog_ids n : NoDup (map id (sample_catalog n)).
Proof.
  unfold sample_catalog. rewrite map_map. cbn [id sample_row].
  apply Injective_map_NoDup; [|apply seq_NoDup].
  intros a b E. apply (f_equal String.length) in E.
  unfold sample_id in E. rewrite !xs_length in E. congruence.
Qed.

Lemma sample_catalog_length n : length (sample_catalog n) = n.
Proof. unfold sample_catalog. now rewrite length_map, length_seq. Qed.

(** A negative limit makes the SQLite variant answer with the whole
    catalog. *)
Lemma sqlite_negative_limit env q v w :
  selectFault env = None -> JS.parseInt q = Some v -> v < 0 ->
  Sqlite.get_photos env (Some q) w
  = (Ok (json 200 (Rows (map view (order_by_desc Sqlite.sort_key (photos w))))), w).
Proof.
  intros Hs Hq Hv. rewrite sqlite_get_photos_run, Hs.
  rewrite (photos_limit_parsed q v Hq).
  destruct (Z.min v 2000 <? 0) eqn:E; [reflexivity|].
  apply Z.ltb_ge in E. lia.
Qed.

(** C5, at [GET /photos?limit=-1] on the SQLite variant with a catalog of
    2001 rows: the limit is -1, below the ceiling of 2000, and the answer
    carries all 2001 rows. *)
Theorem sqlite_limit_minus_one_exceeds_ceiling :
  let w := set_photos (sample_catalog 2001) empty_world in
  NoDup (map id (photos w))
  /\ photos_limit (Some "-1") = Some (-1)
  /\ answer (Sqlite.get_photos sample_env (Some "-1") w)
     = Some (json 200 (Rows (map view (order_by_desc Sqlite.sort_key (photos w)))))
  /\ length (rows_in (Sqlite.get_photos sample_env (Some "-1") w)) = 2001%nat.
Proof.
  intros w. split; [apply sample_catalog_ids|]. split; [reflexivity|].
  rewrite (sqlite_negative_limit sample_env "-1" (-1) w)
    by (reflexivity || lia).
  split; [reflexivity|]. unfold rows_in. cbn [fst rows_of body].
  rewrite length_map, order_by_desc_length. apply sample_catalog_length.
Qed.

(** C8: a limit parameter that parses to [v <= 2000] reaches the store as
    [v], negative or not, in both variants; on the SQLite variant a negative
    one makes the answer the whole catalog; and a parameter without digits
    gives [NaN], not the default of 800. *)
Theorem limit_clamp_has_no_floor env w q v q' :
  JS.parseInt q = Some v -> v <= 2000 ->
  q' <> "" -> JS.parseInt q' = None ->
  photos_limit (Some q) = Some v
  /\ Postgres.get_photos env (Some q) w
     = try_catch
         (rows <- Postgres.select_newest env (Some v) ;;
          ret (json 200 (Rows (map view rows))))
         (fun err => ret (json 500 (MsgErr "DB error" err))) w
  /\ Sqlite.get_photos env (Some q) w
     = (r <- Sqlite.select_newest env (Some v) ;;
        match r with
        | Throw err => ret (json 500 (MsgErr "DB error" err))
        | Ok rows => ret (json 200 (Rows (map view rows)))
        end) w
  /\ (v < 0 -> selectFault env = None ->
      rows_in (Sqlite.get_photos env (Some q) w)
      = map view (order_by_desc Sqlite.sort_key (photos w)))
  /\ photos_limit (Some q') = None
  /\ photos_limit (Some q') <> Some 800.
Proof.
  intros Hq Hv Hq' Hnan.
  assert (Hl : photos_limit (Some q) = Some v).
  { rewrite (photos_limit_parsed q v Hq). f_equal. lia. }
  split; [exact Hl|]. split; [|split; [|split; [|split]]].
  - unfold Postgres.get_photos. now rewrite Hl.
  - unfold Sqlite.get_photos. now rewrite Hl.
  - intros Hneg Hs. now rewrite (sqlite_negative_limit env q v w Hs Hq Hneg).
  - now apply photos_limit_nan.
  - rewrite photos_limit_nan by assumption. discriminate.
Qed.

Lemma limit_clamp_has_no_floor_witness :
  let w := set_photos (sample_catalog 3) empty_world in
  photos_limit (Some "-1") = Some (-1)
  /\ rows_in (Sqlite.get_photos sample_env (Some "-1") w)
     = map view (order_by_desc Sqlite.sort_key (photos w))
  /\ photos_limit (Some "many") = None.
Proof.
  intros w.
  destruct (limit_clamp_has_no_floor sample_env w "-1" (-1) "many")
    as (H1 & _ & _ & H4 & H5 & _);
    [reflexivity|lia|discriminate|reflexivity|].
  split; [exact H1|]. split; [apply H4; [lia|reflexivity]|exact H5].
Defined.

(* --------------------------------------------------------------------- *)
(** ** DELETE /photos/:id *)
(* --------------------------------------------------------------------- *)

Lemma filter_has_id_absent i (tbl : list Photo) :
  ~ In i (map id tbl) -> filter (has_id i) tbl = [].
Proof.
  induction tbl as [|p r IH]; intros H; [reflexivity|]. simpl.
  unfold has_id at 1. destruct (String.eqb (id p) i) eqn:E.
  - apply String.eqb_eq in E. exfalso. apply H. now left.
  - apply IH. intros Hin. apply H. now right.
Qed.

Lemma filter_has_id_present i (tbl : list Photo) :
  In i (map id tbl) -> exists r rest, filter (has_id i) tbl = r :: rest.
Proof.
  induction tbl as [|p r IH]; intros H; [destruct H|]. simpl.
  unfold has_id at 1. destruct (String.eqb (id p) i) eqn:E; [eauto|].
  apply String.eqb_neq in E. destruct H as [H|H]; [contradiction|now apply IH].
Qed.

Lemma without_ids_gone i (tbl : list Photo) :
  ~ In i (map id (without_ids [i] tbl)).
Proof.
  intros H. apply in_map_iff in H. destruct H as (p & Ep & Hp).
  apply filter_In in Hp. destruct Hp as [_ Hp].
  apply negb_true_iff, mem_string_false in Hp. apply Hp. left. now symmetry.
Qed.

(** C6: an authorized [DELETE /photos/:id] for an id that is not in the
    catalog leaves the whole world as it was (no destroy call was made, the
    catalog, the blob store and the channel are untouched), and, the lookup
    having been answered, the response is 404 "Photo not found"; in both
    variants. *)
Theorem delete_unknown_id_not_found cfg env i w :
  ~ In i (map id (photos w)) ->
  selectFault env = None ->
  Postgres.delete_photo cfg env (Some (ADMIN_KEY cfg)) i w
  = (Ok (json 404 (Msg "Photo not found")), w)
  /\ Sqlite.delete_photo cfg env (Some (ADMIN_KEY cfg)) i w
     = (Ok (json 404 (Msg "Photo not found")), w)
  /\ destroyCalls (snd (Postgres.delete_photo cfg env (Some (ADMIN_KEY cfg)) i w))
     = destroyCalls w
  /\ destroyCalls (snd (Sqlite.delete_photo cfg env (Some (ADMIN_KEY cfg)) i w))
     = destroyCalls w.
Proof.
  intros Habs Hs.
  rewrite pg_delete_authorized, sqlite_delete_authorized, Hs.
  rewrite (filter_has_id_absent i (photos w) Habs). repeat split.
Qed.

Lemma delete_unknown_id_not_found_witness :
  let w := set_photos (sample_catalog 3) empty_world in
  let cfg := mkConfig (Some "s3cret") None in
  Postgres.delete_photo cfg sample_env (Some "s3cret") "nobody" w
  = (Ok (json 404 (Msg "Photo not found")), w)
  /\ Sqlite.delete_photo cfg sample_env (Some "s3cret") "nobody" w
     = (Ok (json 404 (Msg "Photo not found")), w).
Proof.
  intros w cfg.
  destruct (delete_unknown_id_not_found cfg sample_env "nobody" w)
    as (H1 & H2 & _).
  - vm_compute. intros [H|[H|[H|[]]]]; discriminate H.
  - reflexivity.
  - split; [exact H1|exact H2].
Defined.

(** Also when the lookup itself fails, nothing is touched. *)
Lemma delete_unknown_id_untouched cfg env i w :
  ~ In i (map id (photos w)) ->
  snd (Postgres.delete_photo cfg env (Some (ADMIN_KEY cfg)) i w) = w
  /\ snd (Sqlite.delete_photo cfg env (Some (ADMIN_KEY cfg)) i w) = w.
Proof.
  intros Habs. rewrite pg_delete_authorized, sqlite_delete_authorized.
  rewrite (filter_has_id_absent i (photos w) Habs).
  destruct (selectFault env); split; reflexivity.
Qed.

(** C9: with [ADMIN_KEY] unset in the environment the key is "12345": a
    request with [x-admin-key: 12345] passes the check, and deletes a stored
    photo when the database answers; a request without the header does
    not. *)
Theorem fallback_admin_key_authorizes cfg env i w :
  env_ADMIN_KEY cfg = None ->
  db_up env ->
  In i (map id (photos w)) ->
  ADMIN_KEY cfg = "12345"
  /\ answer (Postgres.delete_photo cfg env (Some "12345") i w)
     = Some (json 200 (Deleted "Photo deleted successfully" i))
  /\ ~ In i (map id (photos (snd (Postgres.delete_photo cfg env (Some "12345") i w))))
  /\ answer (Sqlite.delete_photo cfg env (Some "12345") i w)
     = Some (json 200 (Deleted "Photo deleted successfully" i))
  /\ ~ In i (map id (photos (snd (Sqlite.delete_photo cfg env (Some "12345") i w))))
  /\ answer (Postgres.delete_photo cfg env None i w)
     = Some (json 403 (Msg "Forbidden (Admin only)"))
  /\ answer (Sqlite.delete_photo cfg env None i w)
     = Some (json 403 (Msg "Forbidden (Admin only)")).
Proof.
  intros Hkey (Hs & _ & Hd) Hin.
  assert (Hk : ADMIN_KEY cfg = "12345") by (unfold ADMIN_KEY; now rewrite Hkey).
  split; [exact Hk|].
  rewrite <- Hk, pg_delete_authorized, sqlite_delete_authorized, Hs, Hd.
  destruct (filter_has_id_present i (photos w) Hin) as (r & rest & ->).
  repeat split; try apply without_ids_gone.
Qed.

Lemma fallback_admin_key_authorizes_witness :
  let w := set_photos (sample_catalog 3) empty_world in
  let cfg := mkConfig None None in
  answer (Postgres.delete_photo cfg sample_env (Some "12345") "xx" w)
  = Some (json 200 (Deleted "Photo deleted successfully" "xx"))
  /\ answer (Sqlite.delete_photo cfg sample_env (Some "12345") "xx" w)
     = Some (json 200 (Deleted "Photo deleted successfully" "xx")).
Proof.
  intros w cfg.
  destruct (fallback_admin_key_authorizes cfg sample_env "xx" w)
    as (_ & H1 & _ & H2 & _).
  - reflexivity.
  - repeat split.
  - vm_compute. right. left. reflexivity.
  - split; [exact H1|exact H2].
Defined.

(* --------------------------------------------------------------------- *)
(** ** Capacity enforcement and the blob store *)
(* --------------------------------------------------------------------- *)

Lemma candidates_gone (ids : list string) (tbl : list Photo) p :
  In (id p) ids -> ~ In (id p) (map id (without_ids ids tbl)).
Proof.
  intros Hin H. apply in_map_iff in H. destruct H as (q & Eq & Hq).
  apply filter_In in Hq. destruct Hq as [_ Hq].
  apply negb_true_iff, mem_string_false in Hq. apply Hq. now rewrite Eq.
Qed.

(** The candidates are what the SELECT of the run returns. *)
Lemma pg_select_beyond_candidates env m w :
  selectFault env = None -> 0 <= m ->
  Postgres.select_beyond env (Some m) w = (Ok (pg_candidates m (photos w)), w).
Proof.
  intros Hs Hm. unfold Postgres.select_beyond, Postgres.pool_query.
  rewrite Hs. unfold bind, get_photos_table.
  destruct (m <? 0) eqn:E; [apply Z.ltb_lt in E; lia|reflexivity].
Qed.

Lemma sqlite_select_beyond_candidates env m w :
  selectFault env = None ->
  Sqlite.select_beyond env (Some 1000000) (Some m) w
  = (Ok (Ok (sqlite_candidates m (photos w))), w).
Proof.
  intros Hs. unfold Sqlite.select_beyond, Sqlite.db_call, callback.
  rewrite Hs. reflexivity.
Qed.

(** What a run leaves when the database answers, whatever Cloudinary
    does. *)
Lemma pg_enforce_outcome cfg env w m :
  selectFault env = None -> deleteFault env = None ->
  MAX_PHOTOS cfg = Some m -> 0 <= m ->
  let extra := pg_candidates m (photos w) in
  fst (Postgres.enforceMaxPhotos cfg env w) = Ok tt
  /\ photos (snd (Postgres.enforceMaxPhotos cfg env w))
     = without_ids (map id extra) (photos w)
  /\ destroyCalls (snd (Postgres.enforceMaxPhotos cfg env w))
     = destroyCalls w ++ map publicId extra.
Proof.
  intros Hs Hd Hm Hpos extra.
  rewrite (pg_enforce_run cfg env w m Hs Hm Hpos). fold extra.
  unfold pg_evict. rewrite Hd.
  destruct extra as [|p r] eqn:E; cbn -[without_ids].
  - rewrite app_nil_r. repeat split.
    symmetry. apply without_ids_none. intros q _ [].
  - repeat split.
Qed.

Lemma sqlite_enforce_outcome cfg env w m :
  selectFault env = None -> deleteFault env = None ->
  MAX_PHOTOS cfg = Some m ->
  let rows := sqlite_candidates m (photos w) in
  fst (Sqlite.enforceMaxPhotos cfg env w) = Ok tt
  /\ photos (snd (Sqlite.enforceMaxPhotos cfg env w))
     = without_ids (map id rows) (photos w)
  /\ destroyCalls (snd (Sqlite.enforceMaxPhotos cfg env w))
     = destroyCalls w ++ map publicId rows.
Proof.
  intros Hs Hd Hm rows.
  rewrite (sqlite_enforce_run cfg env w m Hs Hm). fold rows.
  unfold sqlite_evict. rewrite Hd.
  destruct rows as [|p r] eqn:E; cbn -[without_ids].
  - rewrite app_nil_r. repeat split.
    symmetry. apply without_ids_none. intros q _ [].
  - repeat split.
Qed.

(** The outcome of a run and the catalog it leaves do not depend on what
    [uploader.destroy] answers, whatever the database does. *)
Lemma pg_enforce_blind_to_destroy cfg env d w :
  fst (Postgres.enforceMaxPhotos cfg (with_destroyFault d env) w)
  = fst (Postgres.enforceMaxPhotos cfg env w)
  /\ photos (snd (Postgres.enforceMaxPhotos cfg (with_destroyFault d env) w))
     = photos (snd (Postgres.enforceMaxPhotos cfg env w)).
Proof.
  rewrite !pg_enforce_cases. cbn [selectFault with_destroyFault].
  destruct (selectFault env); [split; reflexivity|].
  destruct (MAX_PHOTOS cfg) as [m|]; [|split; reflexivity].
  destruct (m <? 0); [split; reflexivity|]. unfold pg_evict.
  destruct (pg_candidates m (photos w)); [split; reflexivity|].
  cbn [deleteFault with_destroyFault].
  destruct (deleteFault env); split; reflexivity.
Qed.

Lemma sqlite_enforce_blind_to_destroy cfg env d w :
  fst (Sqlite.enforceMaxPhotos cfg (with_destroyFault d env) w)
  = fst (Sqlite.enforceMaxPhotos cfg env w)
  /\ photos (snd (Sqlite.enforceMaxPhotos cfg (with_destroyFault d env) w))
     = photos (snd (Sqlite.enforceMaxPhotos cfg env w)).
Proof.
  rewrite !sqlite_enforce_cases. cbn [selectFault with_destroyFault].
  destruct (selectFault env); [split; reflexivity|].
  destruct (MAX_PHOTOS cfg) as [m|]; [|split; reflexivity].
  unfold sqlite_evict.
  destruct (sqlite_candidates m (photos w)); [split; reflexivity|].
  cbn [deleteFault with_destroyFault].
  destruct (deleteFault env); split; reflexivity.
Qed.

(** C3: in an enforcement run whose database statements are answered, the
    row of every candidate is deleted and a destroy call was made for each,
    whatever [uploader.destroy] answers ([d] is arbitrary); the run ends
    without an error, and the upload that started it answers the same with
    or without those failures; in both variants. *)
Theorem eviction_deletes_rows_despite_blob_failures cfg env d w m u :
  selectFault env = None -> deleteFault env = None ->
  MAX_PHOTOS cfg = Some m -> 0 <= m ->
  let env' := with_destroyFault d env in
  let pg := Postgres.enforceMaxPhotos cfg env' w in
  let sq := Sqlite.enforceMaxPhotos cfg env' w in
  Postgres.select_beyond env' (MAX_PHOTOS cfg) w
  = (Ok (pg_candidates m (photos w)), w)
  /\ Sqlite.select_beyond env' (Some 1000000) (MAX_PHOTOS cfg) w
     = (Ok (Ok (sqlite_candidates m (photos w))), w)
  /\ fst pg = Ok tt
  /\ fst sq = Ok tt
  /\ (forall p, In p (pg_candidates m (photos w)) ->
        ~ In (id p) (map id (photos (snd pg)))
        /\ In (publicId p) (destroyCalls (snd pg)))
  /\ (forall p, In p (sqlite_candidates m (photos w)) ->
        ~ In (id p) (map id (photos (snd sq)))
        /\ In (publicId p) (destroyCalls (snd sq)))
  /\ photos (snd pg) = photos (snd (Postgres.enforceMaxPhotos cfg env w))
  /\ photos (snd sq) = photos (snd (Sqlite.enforceMaxPhotos cfg env w))
  /\ Postgres.post_upload env' (u_id u) (u_now u) (Some (u_file u)) w
     = Postgres.post_upload env (u_id u) (u_now u) (Some (u_file u)) w
  /\ Sqlite.post_upload env' (u_id u) (u_now u) (Some (u_file u)) w
     = Sqlite.post_upload env (u_id u) (u_now u) (Some (u_file u)) w.
Proof.
  intros Hs Hd Hm Hpos env' pg sq.
  destruct (pg_enforce_outcome cfg env' w m Hs Hd Hm Hpos) as (P1 & P2 & P3).
  destruct (sqlite_enforce_outcome cfg env' w m Hs Hd Hm) as (S1 & S2 & S3).
  rewrite Hm.
  split; [now apply pg_select_beyond_candidates|].
  split; [now apply sqlite_select_beyond_candidates|].
  split; [exact P1|]. split; [exact S1|]. split; [|split; [|split; [|split]]].
  - intros p Hp. subst pg. rewrite P2, P3. split.
    + apply candidates_gone. now apply in_map.
    + apply in_or_app. right. now apply in_map.
  - intros p Hp. subst sq. rewrite S2, S3. split.
    + apply candidates_gone. now apply in_map.
    + apply in_or_app. right. now apply in_map.
  - apply pg_enforce_blind_to_destroy.
  - apply sqlite_enforce_blind_to_destroy.
  - split; [now rewrite !pg_upload_run|now rewrite !sqlite_upload_run].
Qed.

Lemma eviction_deletes_rows_despite_blob_failures_witness :
  let w := set_photos (sample_catalog 3) empty_world in
  let cfg := mkConfig None (Some "2") in
  let env' := with_destroyFault (fun _ => Some "cloudinary is down") sample_env in
  fst (Postgres.enforceMaxPhotos cfg env' w) = Ok tt
  /\ fst (Sqlite.enforceMaxPhotos cfg env' w) = Ok tt
  /\ photos (snd (Postgres.enforceMaxPhotos cfg env' w))
     = photos (snd (Postgres.enforceMaxPhotos cfg sample_env w)).
Proof.
  intros w cfg env'.
  destruct (eviction_deletes_rows_despite_blob_failures cfg sample_env
              (fun _ => Some "cloudinary is down") w 2
              (mkUpload "u" 5000 "bytes"))
    as (_ & _ & H1 & H2 & _ & _ & H5 & _);
    [reflexivity|reflexivity|reflexivity|lia|].
  split; [exact H1|]. split; [exact H2|exact H5].
Defined.

(* --------------------------------------------------------------------- *)
(** ** The order of listing and of eviction *)
(* --------------------------------------------------------------------- *)





(* --------------------------------------------------------------------- *)
(** ** Sequential uploads *)
(* --------------------------------------------------------------------- *)

Lemma existsb_has_id_absent i (tbl : list Photo) :
  ~ In i (map id tbl) -> existsb (has_id i) tbl = false.
Proof.
  intros H. destruct (existsb (has_id i) tbl) eqn:E; [|reflexivity].
  apply existsb_exists in E. destruct E as (p & Hp & E).
  apply String.eqb_eq in E. exfalso. apply H. rewrite <- E. now apply in_map.
Qed.

Lemma pg_evict_photos env m tbl w :
  photos w = tbl ->
  photos (snd (pg_evict env (pg_candidates m tbl) w))
  = match deleteFault env with
    | Some _ => tbl
    | None => evict Postgres.sort_key m tbl
    end.
Proof.
  intros <-. unfold pg_evict, evict. fold (pg_candidates m (photos w)).
  destruct (pg_candidates m (photos w)) as [|p r].
  - cbn. destruct (deleteFault env); [reflexivity|].
    symmetry. apply without_ids_none. intros q _ [].
  - destruct (deleteFault env); reflexivity.
Qed.

Lemma pg_run_detached_photos cfg env w m n :
  selectFault env = None -> MAX_PHOTOS cfg = Some m -> 0 <= m ->
  detached w = S n ->
  photos (Postgres.run_detached cfg env w)
  = match deleteFault env with
    | Some _ => photos w
    | None => evict Postgres.sort_key m (photos w)
    end.
Proof.
  intros Hs Hm Hpos Hdet. unfold Postgres.run_detached. rewrite Hdet.
  unfold try_catch. rewrite (pg_enforce_run cfg env _ m Hs Hm Hpos).
  change (photos (set_detached n w)) with (photos w).
  pose proof (pg_evict_photos env m (photos w) (set_detached n w) eq_refl) as H.
  destruct (pg_evict env (pg_candidates m (photos w)) (set_detached n w))
    as [[[]|e] w1]; exact H.
Qed.

(** An upload that goes through, and its enforcement run, when the id is
    new: the row is appended, then the rows past [m] are deleted. *)
Lemma pg_upload_settled_photos cfg env u w m :
  db_up env -> uploadFault env = None ->
  MAX_PHOTOS cfg = Some m -> 0 <= m ->
  ~ In (u_id u) (map id (photos w)) ->
  photos (pg_upload_settled cfg env u w)
  = evict Postgres.sort_key m (photos w ++ [row_of env u]).
Proof.
  intros (Hs & Hi & Hd) Hu Hm Hpos Hfresh.
  unfold pg_upload_settled. rewrite pg_upload_run, Hu, Hi.
  rewrite (existsb_has_id_absent _ _ Hfresh). cbn [snd].
  rewrite (pg_run_detached_photos cfg env _ m (detached w) Hs Hm Hpos)
    by reflexivity.
  now rewrite Hd.
Qed.

Lemma pg_uploads_snoc cfg env us u w :
  pg_uploads cfg env (us ++ [u]) w
  = pg_upload_settled cfg env u (pg_uploads cfg env us w).
Proof. unfold pg_uploads. now rewrite fold_left_app. Qed.

Lemma pg_uploads_photos cfg env us m :
  db_up env -> uploadFault env = None ->
  MAX_PHOTOS cfg = Some m -> 0 <= m ->
  NoDup (map u_id us) ->
  photos (pg_uploads cfg env us empty_world)
  = settle Postgres.sort_key m (map (row_of env) us).
Proof.
  intros Hdb Hu Hm Hpos.
  induction us as [|u us IH] using rev_ind; intros Hnd; [reflexivity|].
  rewrite map_app in Hnd. cbn [map] in Hnd.
  pose proof (NoDup_app_remove_r _ _ Hnd) as Hnd'.
  rewrite pg_uploads_snoc, map_app. cbn [map]. rewrite settle_snoc.
  rewrite (pg_upload_settled_photos cfg env u _ m Hdb Hu Hm Hpos).
  - now rewrite IH.
  - rewrite IH by exact Hnd'. intros Hin.
    assert (Hids : map id (map (row_of env) us) = map u_id us)
      by (rewrite map_map; reflexivity).
    destruct (settle_spec Postgres.sort_key m (map (row_of env) us))
      as (_ & _ & Hincl); [now rewrite Hids|].
    apply (NoDup_app_apart _ _ (u_id u) Hnd); [|now left].
    rewrite <- Hids. apply in_map_iff in Hin.
    destruct Hin as (p & Ep & Hp). rewrite <- Ep. apply in_map, Hincl, Hp.
Qed.

Lemma sorted_app_le key (a b : list Photo) p q :
  StronglySorted (desc key) (a ++ b) -> In p a -> In q b -> key q <= key p.
Proof.
  induction a as [|x r IH]; simpl; intros Hs Hp Hq; [contradiction|].
  inversion Hs as [|? ? Hr Hall]; subst.
  destruct Hp as [->|Hp]; [|now apply IH].
  rewrite Forall_forall in Hall. apply (Hall q). apply in_or_app. now right.
Qed.

(** X25: what PostgreSQL leaves after sequential uploads, each followed by
    its enforcement run: the catalog, read in
    [created_at] order, is the first [m] rows of all the uploaded rows in
    that order; it has [min N m] rows, and no row it lost is newer than a
    row it kept. *)
Lemma pg_sequential_uploads_keep_newest cfg env us m :
  db_up env -> uploadFault env = None ->
  MAX_PHOTOS cfg = Some m -> 0 <= m ->
  NoDup (map u_id us) ->
  let tbl := photos (pg_uploads cfg env us empty_world) in
  let rows := map (row_of env) us in
  order_by_desc Postgres.sort_key tbl = take m (order_by_desc Postgres.sort_key rows)
  /\ length tbl = Nat.min (length us) (Z.to_nat m)
  /\ incl tbl rows
  /\ forall p q, In p tbl -> In q rows -> ~ In q tbl -> createdAt q <= createdAt p.
Proof.
  intros Hdb Hu Hm Hpos Hnd tbl rows.
  assert (Hids : map id rows = map u_id us)
    by (unfold rows; rewrite map_map; reflexivity).
  assert (Et : tbl = settle Postgres.sort_key m rows)
    by (apply pg_uploads_photos; assumption).
  destruct (settle_spec Postgres.sort_key m rows) as (Hord & _ & Hincl);
    [now rewrite Hids|].
  rewrite <- Et in Hord, Hincl.
  split; [exact Hord|]. split; [|split; [exact Hincl|]].
  - rewrite <- (order_by_desc_length Postgres.sort_key tbl), Hord.
    rewrite take_length, order_by_desc_length. unfold rows.
    rewrite length_map. lia.
  - intros p q Hp Hq Hnq.
    apply (sorted_app_le Postgres.sort_key
             (take m (order_by_desc Postgres.sort_key rows))
             (drop m (order_by_desc Postgres.sort_key rows))).
    + rewrite take_drop. apply order_by_desc_sorted.
    + rewrite <- Hord. now apply (proj2 (order_by_desc_In _ p tbl)).
    + apply (proj2 (order_by_desc_In Postgres.sort_key q rows)) in Hq.
      rewrite <- (take_drop m (order_by_desc Postgres.sort_key rows)) in Hq.
      apply in_app_or in Hq. destruct Hq as [Hq|Hq]; [|exact Hq].
      exfalso. apply Hnq. rewrite <- Hord in Hq.
      now apply (proj1 (order_by_desc_In Postgres.sort_key q tbl)).
Qed.

Lemma pg_sequential_uploads_keep_newest_witness :
  length (photos (pg_uploads max_two sample_env burst empty_world))
  = Nat.min (length burst) (Z.to_nat 2).
Proof.
  assert (Hnd : NoDup (map u_id burst)).
  { repeat constructor; cbn; intros H;
      repeat (destruct H as [H|H]; [discriminate H|]); exact H. }
  pose proof (pg_sequential_uploads_keep_newest max_two sample_env burst 2
                (conj eq_refl (conj eq_refl eq_refl)) eq_refl eq_refl
                (proj1 (Z.leb_le 0 2) eq_refl) Hnd) as H.
  cbv zeta in H. exact (proj1 (proj2 H)).
Defined.

Lemma sqlite_candidates_within m tbl :
  Z.of_nat (length tbl) <= m + 1000000 -> 0 <= m ->
  sqlite_candidates m tbl = drop m (order_by_desc Sqlite.sort_key tbl).
Proof.
  intros Hlen Hm. unfold sqlite_candidates. apply take_all.
  rewrite drop_skipn, length_skipn, order_by_desc_length. lia.
Qed.

Lemma sqlite_run_detached_photos cfg env w m n :
  selectFault env = None -> deleteFault env = None ->
  MAX_PHOTOS cfg = Some m -> 0 <= m ->
  Z.of_nat (length (photos w)) <= m + 1000000 ->
  detached w = S n ->
  photos (Sqlite.run_detached cfg env w) = evict Sqlite.sort_key m (photos w).
Proof.
  intros Hs Hd Hm Hpos Hlen Hdet. unfold Sqlite.run_detached. rewrite Hdet.
  rewrite (sqlite_enforce_run cfg env _ m Hs Hm).
  change (photos (set_detached n w)) with (photos w).
  rewrite (sqlite_candidates_within m (photos w) Hlen Hpos).
  unfold sqlite_evict, evict. rewrite Hd.
  destruct (drop m (order_by_desc Sqlite.sort_key (photos w))) as [|p r];
    [|reflexivity].
  cbn. symmetry. apply without_ids_none. intros q _ [].
Qed.

Lemma sqlite_upload_settled_photos cfg env u w m :
  db_up env -> uploadFault env = None ->
  MAX_PHOTOS cfg = Some m -> 0 <= m ->
  Z.of_nat (length (photos w)) <= m ->
  ~ In (u_id u) (map id (photos w)) ->
  photos (sqlite_upload_settled cfg env u w)
  = evict Sqlite.sort_key m (photos w ++ [row_of env u]).
Proof.
  intros (Hs & Hi & Hd) Hu Hm Hpos Hlen Hfresh.
  unfold sqlite_upload_settled. rewrite sqlite_upload_run, Hu, Hi.
  rewrite (existsb_has_id_absent _ _ Hfresh). cbn [snd].
  rewrite (sqlite_run_detached_photos cfg env _ m (detached w) Hs Hd Hm Hpos);
    [reflexivity| |reflexivity].
  cbn [photos after_upload after_writes set_detached set_photos].
  rewrite length_app. cbn [length]. lia.
Qed.

Lemma sqlite_uploads_snoc cfg env us u w :
  sqlite_uploads cfg env (us ++ [u]) w
  = sqlite_upload_settled cfg env u (sqlite_uploads cfg env us w).
Proof. unfold sqlite_uploads. now rewrite fold_left_app. Qed.

(** X26: what SQLite leaves after sequential uploads, each followed by its
    enforcement run: the first [m] rows of all
    the uploaded rows in the order of [datetime(createdAt)], where uploads of
    one second come oldest first. *)
Lemma sqlite_sequential_uploads_keep_first cfg env us m :
  db_up env -> uploadFault env = None ->
  MAX_PHOTOS cfg = Some m -> 0 <= m ->
  NoDup (map u_id us) ->
  let tbl := photos (sqlite_uploads cfg env us empty_world) in
  let rows := map (row_of env) us in
  tbl = settle Sqlite.sort_key m rows
  /\ order_by_desc Sqlite.sort_key tbl = take m (order_by_desc Sqlite.sort_key rows).
Proof.
  intros Hdb Hu Hm Hpos Hnd. cbv zeta.
  assert (Hids : forall l, map id (map (row_of env) l) = map u_id l)
    by (intros l; rewrite map_map; reflexivity).
  assert (Et : photos (sqlite_uploads cfg env us empty_world)
               = settle Sqlite.sort_key m (map (row_of env) us)).
  { induction us as [|u us IH] using rev_ind; [reflexivity|].
    rewrite map_app in Hnd. cbn [map] in Hnd.
    pose proof (NoDup_app_remove_r _ _ Hnd) as Hnd'.
    specialize (IH Hnd').
    destruct (settle_spec Sqlite.sort_key m (map (row_of env) us))
      as (Hord & _ & Hincl); [now rewrite Hids|].
    rewrite sqlite_uploads_snoc, map_app. cbn [map]. rewrite settle_snoc.
    rewrite (sqlite_upload_settled_photos cfg env u _ m Hdb Hu Hm Hpos).
    - now rewrite IH.
    - rewrite IH, <- (order_by_desc_length Sqlite.sort_key), Hord, take_length.
      lia.
    - rewrite IH. intros Hin.
      apply (NoDup_app_apart _ _ (u_id u) Hnd); [|now left].
      rewrite <- Hids. apply in_map_iff in Hin.
      destruct Hin as (p & Ep & Hp). rewrite <- Ep. apply in_map, Hincl, Hp. }
  split; [exact Et|]. rewrite Et.
  apply settle_spec. now rewrite Hids.
Qed.

Lemma sqlite_sequential_uploads_keep_first_witness :
  photos (sqlite_uploads max_two sample_env burst empty_world)
  = settle Sqlite.sort_key 2 (map (row_of sample_env) burst).
Proof.
  assert (Hnd : NoDup (map u_id burst)).
  { repeat constructor; cbn; intros H;
      repeat (destruct H as [H|H]; [discriminate H|]); exact H. }
  pose proof (sqlite_sequential_uploads_keep_first max_two sample_env burst 2
                (conj eq_refl (conj eq_refl eq_refl)) eq_refl eq_refl
                (proj1 (Z.leb_le 0 2) eq_refl) Hnd) as H.
  cbv zeta in H. exact (proj1 H).
Defined.

(** The scenario of the specification on the PostgreSQL variant:
    [MAX_PHOTOS=2], uploads A (t=1), B (t=2), C (t=3); the catalog is B, C,
    a destroy of A's public id was attempted, and A is not listed. *)
Lemma pg_scenario_three_uploads :
  let w := pg_uploads max_two sample_env scenario_ms empty_world in
  map id (photos w) = ["B"; "C"]
  /\ destroyCalls w = ["memorial_wall/A"]
  /\ map v_id (rows_in (Postgres.get_photos sample_env (Some "10") w)) = ["C"; "B"].
Proof. vm_compute. repeat split. Qed.

(** The same on the SQLite variant when the uploads are a second apart. *)
Lemma sqlite_scenario_three_uploads :
  let w := sqlite_uploads max_two sample_env scenario_s empty_world in
  map id (photos w) = ["B"; "C"]
  /\ destroyCalls w = ["memorial_wall/A"]
  /\ map v_id (rows_in (Sqlite.get_photos sample_env (Some "10") w)) = ["C"; "B"].
Proof. vm_compute. repeat split. Qed.

(** C2, at three sequential uploads within one second on the SQLite
    variant with [MAX_PHOTOS=2]: the run started by the third upload evicts
    the third upload, the newest row, and keeps the two older ones; the
    PostgreSQL variant, on the same uploads, evicts the oldest. *)
Theorem sqlite_evicts_newest_upload_within_a_second :
  let sq := sqlite_uploads max_two sample_env burst empty_world in
  let pg := pg_uploads max_two sample_env burst empty_world in
  NoDup (map u_id burst)
  /\ map id (photos sq) = ["A"; "B"]
  /\ destroyCalls sq = ["memorial_wall/C"]
  /\ map v_id (rows_in (Sqlite.get_photos sample_env (Some "10") sq)) = ["A"; "B"]
  /\ map id (photos pg) = ["B"; "C"]
  /\ destroyCalls pg = ["memorial_wall/A"].
Proof.
  split.
  - repeat (apply NoDup_cons;
            [simpl; intuition discriminate|]). apply NoDup_nil.
  - vm_compute. repeat split.
Qed.

(* --------------------------------------------------------------------- *)
(** ** The two variants side by side *)
(* --------------------------------------------------------------------- *)



Lemma strict_neq_false key k :
  JS.strict_neq key (Some k) = false -> key = Some k.
Proof.
  destruct key as [x|]; cbn; [|discriminate].
  intros H. apply negb_false_iff, String.eqb_eq in H. now subst.
Qed.





(* ===================================================================== *)
(** * Further properties of the routes *)
(* ===================================================================== *)

(* --------------------------------------------------------------------- *)
(** ** DELETE /photos/:id, continued *)
(* --------------------------------------------------------------------- *)

Lemma strict_neq_true key k :
  key <> Some k -> JS.strict_neq key (Some k) = true.
Proof.
  intros H. destruct (JS.strict_neq key (Some k)) eqn:E; [reflexivity|].
  apply strict_neq_false in E. contradiction.
Qed.

Lemma filter_has_id_unique (tbl : list Photo) r :
  NoDup (map id tbl) -> In r tbl -> filter (has_id (id r)) tbl = [r].
Proof.
  induction tbl as [|x tbl IH]; intros Hnd Hin; [destruct Hin|].
  inversion Hnd as [|? ? Hx Hr]; subst. simpl.
  destruct Hin as [->|Hin].
  - unfold has_id at 1. rewrite String.eqb_refl.
    now rewrite (filter_has_id_absent (id r) tbl Hx).
  - unfold has_id at 1. destruct (String.eqb (id x) (id r)) eqn:E.
    + apply String.eqb_eq in E. exfalso. apply Hx. rewrite E. now apply in_map.
    + now apply IH.
Qed.

Lemma without_ids_single i (tbl : list Photo) :
  without_ids [i] tbl = filter (fun p => negb (has_id i p)) tbl.
Proof.
  unfold without_ids. apply filter_ext. intros p. unfold mem_string, has_id.
  cbn. rewrite orb_false_r. reflexivity.
Qed.

(** Deleting by the id of a stored row takes out that row and no other. *)
Lemma without_ids_single_perm (tbl : list Photo) r :
  NoDup (map id tbl) -> In r tbl ->
  Permutation tbl (r :: without_ids [id r] tbl).
Proof.
  induction tbl as [|x tbl IH]; intros Hnd Hin; [destruct Hin|].
  inversion Hnd as [|? ? Hx Hr]; subst.
  rewrite without_ids_single. simpl. destruct Hin as [->|Hin].
  - unfold has_id at 1. rewrite String.eqb_refl. simpl.
    rewrite <- without_ids_single. rewrite without_ids_none; [reflexivity|].
    intros p Hp [E|[]]. apply Hx. rewrite E. now apply in_map.
  - unfold has_id at 1. destruct (String.eqb (id x) (id r)) eqn:E; simpl.
    + apply String.eqb_eq in E. exfalso. apply Hx. rewrite E. now apply in_map.
    + rewrite <- without_ids_single. rewrite perm_swap. apply perm_skip.
      now apply IH.
Qed.

Lemma take_In {A} (n : Z) (l : list A) x : In x (take n l) -> In x l.
Proof.
  revert n. induction l as [|y r IH]; intros n; simpl; [tauto|].
  destruct (n <=? 0); simpl; [tauto|]. intros [E|H]; [now left|right; eauto].
Qed.

Lemma drop_In {A} (n : Z) (l : list A) x : In x (drop n l) -> In x l.
Proof.
  revert n. induction l as [|y r IH]; intros n; simpl; [tauto|].
  destruct (n <=? 0); simpl; [tauto|]. intros H. right. eauto.
Qed.

Lemma in_rows_in_pg env q w v :
  In v (rows_in (Postgres.get_photos env q w)) ->
  exists p, In p (photos w) /\ v = view p.
Proof.
  rewrite pg_get_photos_run. unfold rows_in.
  destruct (selectFault env); cbn; [intros []|].
  destruct (photos_limit q) as [l|]; cbn; [|intros []].
  destruct (l <? 0); cbn; [intros []|].
  intros H. apply in_map_iff in H. destruct H as (p & <- & Hp).
  exists p. split; [|reflexivity].
  apply take_In in Hp.
  exact (proj1 (order_by_desc_In Postgres.sort_key p (photos w)) Hp).
Qed.

Lemma in_rows_in_sqlite env q w v :
  In v (rows_in (Sqlite.get_photos env q w)) ->
  exists p, In p (photos w) /\ v = view p.
Proof.
  rewrite sqlite_get_photos_run. unfold rows_in.
  destruct (selectFault env); cbn; [intros []|].
  destruct (photos_limit q) as [l|]; cbn; [|intros []].
  intros H. apply in_map_iff in H. destruct H as (p & <- & Hp).
  exists p. split; [|reflexivity].
  destruct (l <? 0); [|apply take_In in Hp];
    exact (proj1 (order_by_desc_In Sqlite.sort_key p (photos w)) Hp).
Qed.

(** X1: an authorized delete of a stored photo, with the database
    answering, is answered 200; exactly that row leaves the catalog, the
    others stay in their order; one destroy call is made, for its public id;
    every connection of the set is written one [photo_deleted] frame; and no
    later listing shows the id.  Both variants do the same. *)
Theorem delete_removes_row_and_notifies cfg env env' q r w :
  db_up env -> NoDup (map id (photos w)) -> In r (photos w) ->
  let pg := Postgres.delete_photo cfg env (Some (ADMIN_KEY cfg)) (id r) w in
  Sqlite.delete_photo cfg env (Some (ADMIN_KEY cfg)) (id r) w = pg
  /\ answer pg = Some (json 200 (Deleted "Photo deleted successfully" (id r)))
  /\ photos (snd pg) = filter (fun p => negb (has_id (id r) p)) (photos w)
  /\ Permutation (photos w) (r :: photos (snd pg))
  /\ destroyCalls (snd pg) = destroyCalls w ++ [publicId r]
  /\ wire (snd pg)
     = wire w ++ map (fun h => (h, PhotoDeleted (id r))) (sseClients w)
  /\ ~ In (id r) (map v_id (rows_in (Postgres.get_photos env' q (snd pg))))
  /\ ~ In (id r) (map v_id (rows_in (Sqlite.get_photos env' q (snd pg)))).
Proof.
  intros (Hs & _ & Hd) Hnd Hin pg. subst pg.
  rewrite pg_delete_authorized, sqlite_delete_authorized, Hs, Hd.
  rewrite (filter_has_id_unique _ r Hnd Hin). cbn [fst snd answer].
  assert (Hgone : ~ In (id r) (map id (photos (after_delete env (id r) r w))))
    by apply without_ids_gone.
  split; [reflexivity|]. split; [reflexivity|].
  split; [apply without_ids_single|].
  split; [now apply without_ids_single_perm|].
  split; [reflexivity|]. split; [reflexivity|].
  split; intros H; apply in_map_iff in H; destruct H as (v & Ev & Hv).
  - apply in_rows_in_pg in Hv. destruct Hv as (p & Hp & ->).
    apply Hgone. apply in_map_iff. exists p. split; [exact Ev|exact Hp].
  - apply in_rows_in_sqlite in Hv. destruct Hv as (p & Hp & ->).
    apply Hgone. apply in_map_iff. exists p. split; [exact Ev|exact Hp].
Qed.

Lemma delete_removes_row_and_notifies_witness :
  let w := set_photos [tie_a; tie_b] empty_world in
  let cfg := mkConfig None None in
  photos (snd (Postgres.delete_photo cfg sample_env (Some "12345") "a" w))
  = [tie_b].
Proof.
  intros w cfg.
  destruct (delete_removes_row_and_notifies cfg sample_env sample_env None
              tie_a w) as (_ & _ & H & _).
  - repeat split.
  - apply NoDup_cons; [simpl; intros [E|[]]; discriminate E|].
    apply NoDup_cons; [intros []|apply NoDup_nil].
  - now left.
  - exact H.
Defined.

Lemma remove_string_gone s l : ~ In s (remove_string s l).
Proof.
  unfold remove_string. intros H. apply filter_In in H. destruct H as [_ H].
  apply negb_true_iff in H. now rewrite String.eqb_refl in H.
Qed.

Lemma remove_string_other s x l :
  x <> s -> In x l -> In x (remove_string s l).
Proof.
  intros Hne Hin. unfold remove_string. apply filter_In. split; [exact Hin|].
  apply negb_true_iff. now apply String.eqb_neq.
Qed.

(** X2: the blob deletion of [DELETE /photos/:id] is best effort.  When
    [uploader.destroy] rejects, the request is answered 200 all the same,
    the row is deleted and the object stays in the blob store; when it
    succeeds the object is gone.  In both variants. *)
Theorem delete_is_best_effort_on_blob cfg env r w :
  db_up env -> NoDup (map id (photos w)) -> In r (photos w) ->
  let pg := Postgres.delete_photo cfg env (Some (ADMIN_KEY cfg)) (id r) w in
  let sq := Sqlite.delete_photo cfg env (Some (ADMIN_KEY cfg)) (id r) w in
  sq = pg
  /\ answer pg = Some (json 200 (Deleted "Photo deleted successfully" (id r)))
  /\ ~ In (id r) (map id (photos (snd pg)))
  /\ (destroyFault env (publicId r) <> None -> blobs (snd pg) = blobs w)
  /\ (destroyFault env (publicId r) = None ->
      blobs (snd pg) = remove_string (publicId r) (blobs w)
      /\ ~ In (publicId r) (blobs (snd pg))).
Proof.
  intros (Hs & _ & Hd) Hnd Hin pg sq. subst pg sq.
  rewrite pg_delete_authorized, sqlite_delete_authorized, Hs, Hd.
  rewrite (filter_has_id_unique _ r Hnd Hin). cbn [fst snd answer].
  split; [reflexivity|]. split; [reflexivity|].
  split; [apply without_ids_gone|].
  unfold after_delete, after_destroys, blobs_after. cbn.
  destruct (destroyFault env (publicId r)); split; intros H;
    try congruence; try reflexivity.
  split; [reflexivity|apply remove_string_gone].
Qed.

Lemma delete_is_best_effort_on_blob_witness :
  let w := set_blobs ["memorial_wall/a"; "memorial_wall/b"]
             (set_photos [tie_a; tie_b] empty_world) in
  let cfg := mkConfig None None in
  let env := with_destroyFault (fun _ => Some "cloudinary is down") sample_env in
  blobs (snd (Postgres.delete_photo cfg env (Some "12345") "a" w)) = blobs w.
Proof.
  intros w cfg env.
  destruct (delete_is_best_effort_on_blob cfg env tie_a w)
    as (_ & _ & _ & H & _).
  - repeat split.
  - apply NoDup_cons; [simpl; intros [E|[]]; discriminate E|].
    apply NoDup_cons; [intros []|apply NoDup_nil].
  - now left.
  - apply H. discriminate.
Defined.

(** X3: when the DELETE statement fails after the lookup found the row,
    the request is answered 500 and no event is published, but the destroy
    call was already made: the row stays in the catalog, and if the destroy
    succeeded its object is gone from the blob store.  In both variants
    (which word the error differently). *)
Theorem failed_DELETE_after_destroy_leaves_row_without_blob cfg env e r w :
  selectFault env = None -> deleteFault env = Some e ->
  NoDup (map id (photos w)) -> In r (photos w) ->
  let pg := Postgres.delete_photo cfg env (Some (ADMIN_KEY cfg)) (id r) w in
  let sq := Sqlite.delete_photo cfg env (Some (ADMIN_KEY cfg)) (id r) w in
  answer pg = Some (json 500 (MsgErr "Delete failed" e))
  /\ answer sq = Some (json 500 (MsgErr "DB delete error" e))
  /\ snd sq = snd pg
  /\ photos (snd pg) = photos w
  /\ wire (snd pg) = wire w
  /\ destroyCalls (snd pg) = destroyCalls w ++ [publicId r]
  /\ (destroyFault env (publicId r) = None ->
      ~ In (publicId r) (blobs (snd pg))).
Proof.
  intros Hs Hd Hnd Hin pg sq. subst pg sq.
  rewrite pg_delete_authorized, sqlite_delete_authorized, Hs, Hd.
  rewrite (filter_has_id_unique _ r Hnd Hin). cbn [fst snd answer].
  repeat (split; [reflexivity|]).
  intros Hok. unfold after_destroys, blobs_after. cbn. rewrite Hok.
  apply remove_string_gone.
Qed.

Lemma failed_DELETE_after_destroy_leaves_row_without_blob_witness :
  let w := set_blobs ["memorial_wall/a"; "memorial_wall/b"]
             (set_photos [tie_a; tie_b] empty_world) in
  let cfg := mkConfig None None in
  let env := mkEnv (secure_url_of sample_env) (cloudinary_url sample_env)
                   None (fun _ => None) None None (Some "connection lost") in
  photos (snd (Postgres.delete_photo cfg env (Some "12345") "a" w)) = photos w
  /\ ~ In "memorial_wall/a"
          (blobs (snd (Postgres.delete_photo cfg env (Some "12345") "a" w))).
Proof.
  intros w cfg env.
  destruct (failed_DELETE_after_destroy_leaves_row_without_blob cfg env
              "connection lost" tie_a w) as (_ & _ & _ & H1 & _ & _ & H2).
  - reflexivity.
  - reflexivity.
  - apply NoDup_cons; [simpl; intros [E|[]]; discriminate E|].
    apply NoDup_cons; [intros []|apply NoDup_nil].
  - now left.
  - split; [exact H1|apply H2; reflexivity].
Defined.

(** X4: a [DELETE /photos/:id] whose [x-admin-key] header is missing or is
    not the admin key is answered 403 and changes nothing: no lookup, no
    destroy call, no event, whatever the collaborators would answer.  In
    both variants. *)
Theorem delete_without_admin_key_changes_nothing cfg env key i w :
  key <> Some (ADMIN_KEY cfg) ->
  Postgres.delete_photo cfg env key i w
  = (Ok (json 403 (Msg "Forbidden (Admin only)")), w)
  /\ Sqlite.delete_photo cfg env key i w
     = (Ok (json 403 (Msg "Forbidden (Admin only)")), w).
Proof.
  intros H. apply strict_neq_true in H.
  unfold Postgres.delete_photo, Sqlite.delete_photo, try_catch.
  now rewrite H.
Qed.

Lemma delete_without_admin_key_changes_nothing_witness :
  let w := set_photos [tie_a; tie_b] empty_world in
  Postgres.delete_photo (mkConfig (Some "s3cret") None) sample_env
                        (Some "12345") "a" w
  = (Ok (json 403 (Msg "Forbidden (Admin only)")), w).
Proof.
  intros w.
  apply (delete_without_admin_key_changes_nothing
           (mkConfig (Some "s3cret") None) sample_env (Some "12345") "a" w).
  discriminate.
Defined.

(** X5: deleting twice.  After an authorized delete went through, a second
    delete of the same id is answered 404 and changes nothing (its lookup
    being answered); in both variants. *)
Theorem second_delete_is_not_found cfg env env2 r w :
  db_up env -> selectFault env2 = None ->
  NoDup (map id (photos w)) -> In r (photos w) ->
  let key := Some (ADMIN_KEY cfg) in
  let w1 := snd (Postgres.delete_photo cfg env key (id r) w) in
  let w2 := snd (Sqlite.delete_photo cfg env key (id r) w) in
  Postgres.delete_photo cfg env2 key (id r) w1
  = (Ok (json 404 (Msg "Photo not found")), w1)
  /\ Sqlite.delete_photo cfg env2 key (id r) w2
     = (Ok (json 404 (Msg "Photo not found")), w2).
Proof.
  intros (Hs & _ & Hd) Hs2 Hnd Hin key w1 w2. subst key w1 w2.
  rewrite !pg_delete_authorized, !sqlite_delete_authorized, Hs, Hd, Hs2.
  rewrite (filter_has_id_unique _ r Hnd Hin). cbn [snd].
  rewrite (filter_has_id_absent (id r) (photos (after_delete env (id r) r w)))
    by apply without_ids_gone.
  split; reflexivity.
Qed.

Lemma second_delete_is_not_found_witness :
  let w := set_photos [tie_a; tie_b] empty_world in
  let cfg := mkConfig None None in
  let w1 := snd (Postgres.delete_photo cfg sample_env (Some "12345") "a" w) in
  Postgres.delete_photo cfg sample_env (Some "12345") "a" w1
  = (Ok (json 404 (Msg "Photo not found")), w1).
Proof.
  intros w cfg w1.
  destruct (second_delete_is_not_found cfg sample_env sample_env tie_a w)
    as (H & _).
  - repeat split.
  - reflexivity.
  - apply NoDup_cons; [simpl; intros [E|[]]; discriminate E|].
    apply NoDup_cons; [intros []|apply NoDup_nil].
  - now left.
  - exact H.
Defined.

(* --------------------------------------------------------------------- *)
(** ** POST /upload, continued *)
(* --------------------------------------------------------------------- *)

Lemma existsb_has_id_present i (tbl : list Photo) :
  In i (map id tbl) -> existsb (has_id i) tbl = true.
Proof.
  intros H. apply in_map_iff in H. destruct H as (p & Ep & Hp).
  apply existsb_exists. exists p. split; [exact Hp|].
  unfold has_id. rewrite Ep. apply String.eqb_refl.
Qed.

Lemma mem_string_add pid (b : list string) :
  In pid (if mem_string pid b then b else b ++ [pid]).
Proof.
  destruct (mem_string pid b) eqn:E.
  - now apply mem_string_In.
  - apply in_or_app. right. now left.
Qed.

Lemma mem_string_add_incl pid (b : list string) :
  incl b (if mem_string pid b then b else b ++ [pid]).
Proof.
  destruct (mem_string pid b); [apply incl_refl|].
  intros x Hx. apply in_or_app. now left.
Qed.

(** A row newer than all rows of a table comes first in the order. *)
Lemma order_by_desc_newest key (l : list Photo) x :
  Forall (fun p => key p < key x) l ->
  order_by_desc key (l ++ [x]) = x :: order_by_desc key l.
Proof.
  intros H. rewrite order_by_desc_snoc.
  assert (Hs : Forall (fun p => key p < key x) (order_by_desc key l)).
  { eapply Permutation_Forall; [apply order_by_desc_perm|exact H]. }
  destruct Hs as [|y r Hy _]; simpl; [reflexivity|].
  apply Z.ltb_lt in Hy. now rewrite Hy.
Qed.

Lemma take_cons {A} (v : Z) (x : A) (l : list A) :
  1 <= v -> take v (x :: l) = x :: take (v - 1) l.
Proof.
  intros H. simpl. destruct (v <=? 0) eqn:E; [apply Z.leb_le in E; lia|].
  reflexivity.
Qed.

(** X6: an upload with a file, a new id, and Cloudinary and the INSERT
    answering is answered 200 with the photo; the row is appended to the
    catalog, its object is in the blob store, every connection of the set is
    written one [photo_uploaded] frame, one enforcement run is started, and
    no destroy call is made.  Both variants do the same. *)
Theorem upload_stores_row_and_notifies env u w :
  uploadFault env = None -> insertFault env = None ->
  ~ In (u_id u) (map id (photos w)) ->
  let pg := Postgres.post_upload env (u_id u) (u_now u) (Some (u_file u)) w in
  Sqlite.post_upload env (u_id u) (u_now u) (Some (u_file u)) w = pg
  /\ answer pg
     = Some (json 200 (Uploaded "Uploaded successfully" (view (row_of env u))))
  /\ photos (snd pg) = photos w ++ [row_of env u]
  /\ In (publicId (row_of env u)) (blobs (snd pg))
  /\ incl (blobs w) (blobs (snd pg))
  /\ wire (snd pg)
     = wire w ++ map (fun h => (h, PhotoUploaded (view (row_of env u))))
                     (sseClients w)
  /\ detached (snd pg) = S (detached w)
  /\ destroyCalls (snd pg) = destroyCalls w.
Proof.
  intros Hu Hi Hfresh pg. subst pg.
  rewrite pg_upload_run, sqlite_upload_run, Hu, Hi.
  rewrite (existsb_has_id_absent _ _ Hfresh). cbn [fst snd answer].
  split; [reflexivity|]. split; [reflexivity|]. split; [reflexivity|].
  split; [apply mem_string_add|]. split; [apply mem_string_add_incl|].
  repeat split.
Qed.

Lemma upload_stores_row_and_notifies_witness :
  let w := set_photos [tie_a; tie_b] empty_world in
  let u := mkUpload "c" 9000 "c.jpg" in
  map id (photos (snd (Postgres.post_upload sample_env "c" 9000 (Some "c.jpg") w)))
  = ["a"; "b"; "c"].
Proof.
  intros w u.
  destruct (upload_stores_row_and_notifies sample_env u w)
    as (_ & _ & H & _).
  - reflexivity.
  - reflexivity.
  - simpl. intros [E|[E|[]]]; discriminate E.
  - cbn [u_id u_now u_file u] in H. rewrite H. reflexivity.
Defined.

(** X7: a photo uploaded with an instant later than that of every stored
    row is the first row of the next listing (limit at least 1, lookup
    answered), followed by the listing as it was, one row shorter.  In the
    SQLite variant the instant has to lie in a later second. *)
Theorem newest_upload_is_listed_first env env' u w q v :
  uploadFault env = None -> insertFault env = None ->
  ~ In (u_id u) (map id (photos w)) ->
  selectFault env' = None -> photos_limit q = Some v -> 1 <= v ->
  let pg := snd (Postgres.post_upload env (u_id u) (u_now u) (Some (u_file u)) w) in
  let sq := snd (Sqlite.post_upload env (u_id u) (u_now u) (Some (u_file u)) w) in
  (Forall (fun p => createdAt p < u_now u) (photos w) ->
   rows_in (Postgres.get_photos env' q pg)
   = view (row_of env u)
     :: map view (take (v - 1) (order_by_desc Postgres.sort_key (photos w))))
  /\ (Forall (fun p => Sqlite.datetime (createdAt p) < Sqlite.datetime (u_now u))
             (photos w) ->
      rows_in (Sqlite.get_photos env' q sq)
      = view (row_of env u)
        :: map view (take (v - 1) (order_by_desc Sqlite.sort_key (photos w)))).
Proof.
  intros Hu Hi Hfresh Hs Hq Hv pg sq. subst pg sq.
  rewrite pg_upload_run, sqlite_upload_run, Hu, Hi.
  rewrite (existsb_has_id_absent _ _ Hfresh). cbn [snd].
  rewrite pg_get_photos_run, sqlite_get_photos_run, Hs, Hq.
  destruct (v <? 0) eqn:E; [apply Z.ltb_lt in E; lia|].
  unfold rows_in. cbn [fst rows_of body].
  change (photos (after_upload env u w)) with (photos w ++ [row_of env u]).
  split; intros Hnew.
  - rewrite (order_by_desc_newest Postgres.sort_key) by exact Hnew.
    now rewrite take_cons by exact Hv.
  - rewrite (order_by_desc_newest Sqlite.sort_key) by exact Hnew.
    now rewrite take_cons by exact Hv.
Qed.

Lemma newest_upload_is_listed_first_witness :
  let w := set_photos [tie_a; tie_b] empty_world in
  let w1 := snd (Postgres.post_upload sample_env "c" 9000 (Some "c.jpg") w) in
  map v_id (rows_in (Postgres.get_photos sample_env (Some "2") w1)) = ["c"; "a"].
Proof.
  intros w w1.
  destruct (newest_upload_is_listed_first sample_env sample_env
              (mkUpload "c" 9000 "c.jpg") w (Some "2") 2) as (H & _).
  - reflexivity.
  - reflexivity.
  - simpl. intros [E|[E|[]]]; discriminate E.
  - reflexivity.
  - reflexivity.
  - lia.
  - cbn [u_id u_now u_file] in H. subst w1. rewrite H; [reflexivity|].
    repeat constructor.
Defined.

(** X8: an upload that does not get as far as the INSERT changes nothing.
    Without a file the answer is 400, whatever the collaborators would do;
    when Cloudinary reports an error the answer is 500 "Upload failed" with
    its message.  No row, no object, no event, no enforcement run; in both
    variants. *)
Theorem upload_without_file_or_storage_changes_nothing env ident now file w :
  file = None \/ uploadFault env <> None ->
  let pg := Postgres.post_upload env ident now file w in
  let sq := Sqlite.post_upload env ident now file w in
  sq = pg /\ snd pg = w
  /\ (file = None -> answer pg = Some (json 400 (Msg "No file uploaded")))
  /\ (forall e, file <> None -> uploadFault env = Some e ->
        answer pg = Some (json 500 (MsgErr "Upload failed" e))).
Proof.
  intros H pg sq. subst pg sq. destruct file as [f|].
  - destruct H as [H|H]; [discriminate H|].
    pose proof (pg_upload_run env (mkUpload ident now f) w) as Hp.
    pose proof (sqlite_upload_run env (mkUpload ident now f) w) as Hq.
    cbn [u_id u_now u_file] in Hp, Hq. rewrite Hp, Hq.
    destruct (uploadFault env) as [e|]; [|congruence].
    repeat split; [discriminate|]. intros e' _ [= <-]. reflexivity.
  - repeat split. intros e H'. congruence.
Qed.

Lemma upload_without_file_or_storage_changes_nothing_witness :
  let w := set_photos [tie_a; tie_b] empty_world in
  Postgres.post_upload sample_env "c" 9000 None w
  = (Ok (json 400 (Msg "No file uploaded")), w).
Proof.
  intros w.
  destruct (upload_without_file_or_storage_changes_nothing sample_env
              "c" 9000 None w) as (_ & H1 & H2 & _); [now left|].
  specialize (H2 eq_refl). unfold answer in H2.
  destruct (Postgres.post_upload sample_env "c" 9000 None w) as [[r|e] w'];
    cbn [fst snd] in *; [|discriminate H2].
  injection H2 as ->. now subst w'.
Defined.

(** X9: when the object was stored and the INSERT then fails (a fault of the
    database, or an id that is taken), the request is answered 500, the
    catalog is as before, no event is published and no enforcement run is
    started, but the object stays in the blob store: with a public id that
    was not there before, the store holds one object more than before, for
    which no destroy call is made.  In both variants (which word the error
    differently). *)
Theorem failed_insert_leaves_blob_behind env u w :
  uploadFault env = None ->
  insertFault env <> None \/ In (u_id u) (map id (photos w)) ->
  let pid := ("memorial_wall" ++ "/" ++ u_id u)%string in
  let pg := Postgres.post_upload env (u_id u) (u_now u) (Some (u_file u)) w in
  let sq := Sqlite.post_upload env (u_id u) (u_now u) (Some (u_file u)) w in
  snd sq = snd pg
  /\ option_map status (answer pg) = Some 500%nat
  /\ option_map status (answer sq) = Some 500%nat
  /\ photos (snd pg) = photos w
  /\ wire (snd pg) = wire w
  /\ detached (snd pg) = detached w
  /\ destroyCalls (snd pg) = destroyCalls w
  /\ In pid (blobs (snd pg))
  /\ (~ In pid (blobs w) -> blobs (snd pg) = blobs w ++ [pid]).
Proof.
  intros Hu H pid pg sq. subst pg sq.
  rewrite pg_upload_run, sqlite_upload_run, Hu.
  assert (Hblob : In pid (blobs (after_blob u w)))
    by apply mem_string_add.
  assert (Hnew : ~ In pid (blobs w) -> blobs (after_blob u w) = blobs w ++ [pid]).
  { intros Hn. unfold after_blob. cbn [blobs set_blobs]. fold pid.
    apply mem_string_false in Hn. now rewrite Hn. }
  destruct (insertFault env) as [e|].
  - repeat split; assumption.
  - destruct H as [H|H]; [congruence|].
    rewrite (existsb_has_id_present _ _ H). repeat split; assumption.
Qed.

Lemma failed_insert_leaves_blob_behind_witness :
  let w := set_photos [tie_a; tie_b] empty_world in
  let pg := Postgres.post_upload insert_down "c" 9000 (Some "c.jpg") w in
  photos (snd pg) = photos w /\ blobs (snd pg) = ["memorial_wall/c"].
Proof.
  intros w pg.
  destruct (failed_insert_leaves_blob_behind insert_down
              (mkUpload "c" 9000 "c.jpg") w)
    as (_ & _ & _ & H1 & _ & _ & _ & _ & H2).
  - reflexivity.
  - left. discriminate.
  - split; [exact H1|]. apply H2. intros [].
Defined.

Lemma remove_string_snoc pid (b : list string) :
  ~ In pid b -> remove_string pid (b ++ [pid]) = b.
Proof.
  intros H. unfold remove_string. rewrite filter_app. cbn.
  rewrite String.eqb_refl. cbn. rewrite app_nil_r.
  apply forallb_filter_id, forallb_forall. intros x Hx.
  apply negb_true_iff, String.eqb_neq. intros ->. contradiction.
Qed.

Lemma without_ids_snoc_fresh i (tbl : list Photo) r :
  ~ In i (map id tbl) -> id r = i -> without_ids [i] (tbl ++ [r]) = tbl.
Proof.
  intros Hfresh Er. unfold without_ids. rewrite filter_app.
  fold (without_ids [i] tbl). rewrite without_ids_none.
  - cbn. rewrite Er, String.eqb_refl. cbn. apply app_nil_r.
  - intros p Hp [E|[]]. apply Hfresh. rewrite E. now apply in_map.
Qed.

(** X10: upload, then delete.  An upload that goes through, followed by an
    authorized delete of the same id with the database and Cloudinary
    answering, leaves the catalog and the blob store as they were before the
    upload; the connections of the set were written the [photo_uploaded]
    frame and then the [photo_deleted] frame.  In both variants. *)
Theorem upload_then_delete_restores_stores cfg env env2 u w :
  uploadFault env = None -> insertFault env = None ->
  db_up env2 ->
  destroyFault env2 ("memorial_wall" ++ "/" ++ u_id u)%string = None ->
  ~ In (u_id u) (map id (photos w)) ->
  ~ In ("memorial_wall" ++ "/" ++ u_id u)%string (blobs w) ->
  let key := Some (ADMIN_KEY cfg) in
  let pg := snd (Postgres.delete_photo cfg env2 key (u_id u)
             (snd (Postgres.post_upload env (u_id u) (u_now u) (Some (u_file u)) w))) in
  let sq := snd (Sqlite.delete_photo cfg env2 key (u_id u)
             (snd (Sqlite.post_upload env (u_id u) (u_now u) (Some (u_file u)) w))) in
  sq = pg
  /\ photos pg = photos w
  /\ blobs pg = blobs w
  /\ wire pg
     = wire w
       ++ map (fun h => (h, PhotoUploaded (view (row_of env u)))) (sseClients w)
       ++ map (fun h => (h, PhotoDeleted (u_id u))) (sseClients w).
Proof.
  intros Hu Hi (Hs & _ & Hd) Hdes Hfresh Hblob key pg sq. subst key pg sq.
  rewrite pg_upload_run, sqlite_upload_run, Hu, Hi.
  rewrite (existsb_has_id_absent _ _ Hfresh). cbn [snd].
  rewrite pg_delete_authorized, sqlite_delete_authorized, Hs, Hd.
  assert (Hrow : filter (has_id (u_id u)) (photos (after_upload env u w))
                 = [row_of env u]).
  { change (photos (after_upload env u w)) with (photos w ++ [row_of env u]).
    rewrite filter_app, (filter_has_id_absent _ _ Hfresh). cbn [filter app].
    unfold has_id. cbn [id row_of]. now rewrite String.eqb_refl. }
  rewrite Hrow. cbn [snd]. split; [reflexivity|].
  unfold after_delete, after_destroys, blobs_after, after_upload, after_writes.
  cbn -[without_ids remove_string String.append].
  rewrite Hdes. apply mem_string_false in Hblob. rewrite Hblob.
  apply mem_string_false in Hblob.
  rewrite (without_ids_snoc_fresh (u_id u) (photos w) (row_of env u) Hfresh eq_refl).
  rewrite (remove_string_snoc _ _ Hblob), <- app_assoc.
  repeat split.
Qed.

Lemma upload_then_delete_restores_stores_witness :
  let w := set_photos [tie_a; tie_b] empty_world in
  let cfg := mkConfig None None in
  photos (snd (Postgres.delete_photo cfg sample_env (Some "12345") "c"
            (snd (Postgres.post_upload sample_env "c" 9000 (Some "c.jpg") w))))
  = photos w.
Proof.
  intros w cfg.
  destruct (upload_then_delete_restores_stores cfg sample_env sample_env
              (mkUpload "c" 9000 "c.jpg") w) as (_ & H & _).
  - reflexivity.
  - reflexivity.
  - repeat split.
  - reflexivity.
  - simpl. intros [E|[E|[]]]; discriminate E.
  - intros [].
  - exact H.
Defined.

(* --------------------------------------------------------------------- *)
(** ** enforceMaxPhotos, continued *)
(* --------------------------------------------------------------------- *)

Lemma drop_all {A} (n : Z) (l : list A) :
  Z.of_nat (length l) <= n -> drop n l = [].
Proof. intros H. rewrite drop_skipn. apply skipn_all2. lia. Qed.

Lemma drop_none {A} (n : Z) (l : list A) : n <= 0 -> drop n l = l.
Proof.
  intros H. destruct l as [|x r]; [reflexivity|]. simpl.
  destruct (n <=? 0) eqn:E; [reflexivity|]. apply Z.leb_gt in E. lia.
Qed.

Lemma drop_length {A} (n : Z) (l : list A) :
  length (drop n l) = (length l - Z.to_nat n)%nat.
Proof. rewrite drop_skipn. apply length_skipn. Qed.

Lemma without_ids_middle (a c b : list Photo) :
  NoDup (map id (a ++ c ++ b)) ->
  without_ids (map id c) (a ++ c ++ b) = a ++ b.
Proof.
  intros Hnd. rewrite !map_app in Hnd.
  pose proof (NoDup_app_remove_l _ _ Hnd) as Hcb.
  unfold without_ids. rewrite !filter_app.
  fold (without_ids (map id c) a). fold (without_ids (map id c) c).
  fold (without_ids (map id c) b).
  rewrite (without_ids_all (map id c) c) by apply incl_refl.
  rewrite !without_ids_none; [reflexivity| |].
  - intros p Hp Hin.
    apply (NoDup_app_apart _ _ (id p) Hcb Hin). now apply in_map.
  - intros p Hp Hin.
    apply (NoDup_app_apart _ _ (id p) Hnd); [now apply in_map|].
    apply in_or_app. now left.
Qed.

Lemma pg_enforce_photos cfg env w m :
  selectFault env = None -> deleteFault env = None ->
  MAX_PHOTOS cfg = Some m -> 0 <= m ->
  photos (snd (Postgres.enforceMaxPhotos cfg env w))
  = evict Postgres.sort_key m (photos w).
Proof.
  intros Hs Hd Hm Hpos. rewrite (pg_enforce_run cfg env w m Hs Hm Hpos).
  rewrite (pg_evict_photos env m (photos w) w eq_refl). now rewrite Hd.
Qed.

Lemma sqlite_enforce_photos cfg env w m :
  selectFault env = None -> deleteFault env = None ->
  MAX_PHOTOS cfg = Some m ->
  photos (snd (Sqlite.enforceMaxPhotos cfg env w))
  = without_ids (map id (sqlite_candidates m (photos w))) (photos w).
Proof.
  intros Hs Hd Hm.
  now destruct (sqlite_enforce_outcome cfg env w m Hs Hd Hm) as (_ & H & _).
Qed.

(** No row an eviction removes is newer, by the key, than a row it keeps. *)
Lemma evict_keeps_newest key m tbl p q :
  NoDup (map id tbl) ->
  In p (evict key m tbl) -> In q tbl -> ~ In q (evict key m tbl) ->
  key q <= key p.
Proof.
  intros Hnd Hp Hq Hnq. pose proof (evict_ordered key m tbl Hnd) as Hord.
  apply (sorted_app_le key (take m (order_by_desc key tbl))
                           (drop m (order_by_desc key tbl))).
  - rewrite take_drop. apply order_by_desc_sorted.
  - rewrite <- Hord. exact (proj2 (order_by_desc_In key p _) Hp).
  - apply (proj2 (order_by_desc_In key q tbl)) in Hq.
    rewrite <- (take_drop m (order_by_desc key tbl)) in Hq.
    apply in_app_or in Hq. destruct Hq as [Hq|Hq]; [|exact Hq].
    exfalso. apply Hnq. rewrite <- Hord in Hq.
    exact (proj1 (order_by_desc_In key q _) Hq).
Qed.

Lemma sqlite_enforce_ordered cfg env w m :
  selectFault env = None -> deleteFault env = None ->
  MAX_PHOTOS cfg = Some m ->
  NoDup (map id (photos w)) ->
  let s_sq := order_by_desc Sqlite.sort_key (photos w) in
  order_by_desc Sqlite.sort_key (photos (snd (Sqlite.enforceMaxPhotos cfg env w)))
  = take m s_sq ++ drop 1000000 (drop m s_sq).
Proof.
  intros Hs Hd Hm Hnd s_sq.
  rewrite (sqlite_enforce_photos cfg env w m Hs Hd Hm).
  unfold without_ids. rewrite filter_order_by_desc.
  fold (without_ids (map id (sqlite_candidates m (photos w))) s_sq).
  unfold sqlite_candidates. fold s_sq.
  assert (Hnd' : NoDup (map id s_sq)).
  { eapply Permutation_NoDup; [|exact Hnd].
    apply Permutation_map, order_by_desc_perm. }
  assert (Esplit : s_sq = take m s_sq ++ take 1000000 (drop m s_sq)
                            ++ drop 1000000 (drop m s_sq))
    by (now rewrite !take_drop).
  remember (take m s_sq) as a. remember (take 1000000 (drop m s_sq)) as c.
  remember (drop 1000000 (drop m s_sq)) as b.
  rewrite Esplit in Hnd' |- *. now apply without_ids_middle.
Qed.

(** The number of rows a run leaves. *)
Lemma enforce_lengths cfg env w m :
  selectFault env = None -> deleteFault env = None ->
  MAX_PHOTOS cfg = Some m -> 0 <= m ->
  NoDup (map id (photos w)) ->
  length (photos (snd (Postgres.enforceMaxPhotos cfg env w)))
  = Nat.min (length (photos w)) (Z.to_nat m)
  /\ (Z.of_nat (length (photos w)) <= m + 1000000 ->
      length (photos (snd (Sqlite.enforceMaxPhotos cfg env w)))
      = Nat.min (length (photos w)) (Z.to_nat m)).
Proof.
  intros Hs Hd Hm Hpos Hnd. split.
  - rewrite (pg_enforce_photos cfg env w m Hs Hd Hm Hpos).
    rewrite <- (order_by_desc_length Postgres.sort_key).
    rewrite (evict_ordered Postgres.sort_key m (photos w) Hnd).
    rewrite take_length, order_by_desc_length. lia.
  - intros Hcap. rewrite <- (order_by_desc_length Sqlite.sort_key).
    rewrite (sqlite_enforce_ordered cfg env w m Hs Hd Hm Hnd).
    rewrite length_app, take_length, !drop_length, order_by_desc_length. lia.
Qed.

(** A run on a world whose catalog is within [m] rows. *)
Lemma enforce_within_capacity cfg env w m :
  MAX_PHOTOS cfg = Some m -> 0 <= m ->
  Z.of_nat (length (photos w)) <= m ->
  snd (Postgres.enforceMaxPhotos cfg env w) = w
  /\ snd (Sqlite.enforceMaxPhotos cfg env w) = w.
Proof.
  intros Hm Hpos Hlen. split.
  - rewrite pg_enforce_cases, Hm.
    destruct (selectFault env); [reflexivity|].
    destruct (m <? 0); [reflexivity|].
    unfold pg_candidates. rewrite drop_all; [reflexivity|].
    now rewrite order_by_desc_length.
  - rewrite sqlite_enforce_cases, Hm.
    destruct (selectFault env); [reflexivity|].
    unfold sqlite_candidates. rewrite drop_all; [reflexivity|].
    now rewrite order_by_desc_length.
Qed.

(** X11: what one enforcement run leaves, the database answering and
    [MAX_PHOTOS] being [m >= 0], on a catalog with distinct ids.  PostgreSQL:
    the first [m] rows in [created_at] order, so at most [m] rows, and no row
    it removed is newer than a row it kept.  SQLite: the first [m] rows in
    [datetime(createdAt)] order and, when the catalog was more than 1000000
    rows over [m], also the rows past the first [m + 1000000]. *)
Theorem enforcement_run_trims_catalog cfg env w m :
  selectFault env = None -> deleteFault env = None ->
  MAX_PHOTOS cfg = Some m -> 0 <= m ->
  NoDup (map id (photos w)) ->
  let pg := photos (snd (Postgres.enforceMaxPhotos cfg env w)) in
  let sq := photos (snd (Sqlite.enforceMaxPhotos cfg env w)) in
  let s_pg := order_by_desc Postgres.sort_key (photos w) in
  let s_sq := order_by_desc Sqlite.sort_key (photos w) in
  order_by_desc Postgres.sort_key pg = take m s_pg
  /\ length pg = Nat.min (length (photos w)) (Z.to_nat m)
  /\ incl pg (photos w)
  /\ (forall p q, In p pg -> In q (photos w) -> ~ In q pg ->
        createdAt q <= createdAt p)
  /\ order_by_desc Sqlite.sort_key sq = take m s_sq ++ drop 1000000 (drop m s_sq)
  /\ incl sq (photos w)
  /\ (Z.of_nat (length (photos w)) <= m + 1000000 ->
      length sq = Nat.min (length (photos w)) (Z.to_nat m)).
Proof.
  intros Hs Hd Hm Hpos Hnd pg sq s_pg s_sq.
  destruct (enforce_lengths cfg env w m Hs Hd Hm Hpos Hnd) as (L1 & L2).
  split; [|split; [exact L1|split; [|split; [|split; [|split; [|exact L2]]]]]].
  - subst pg. rewrite (pg_enforce_photos cfg env w m Hs Hd Hm Hpos).
    now apply evict_ordered.
  - subst pg. rewrite (pg_enforce_photos cfg env w m Hs Hd Hm Hpos).
    apply evict_incl.
  - subst pg. rewrite (pg_enforce_photos cfg env w m Hs Hd Hm Hpos).
    intros p q. now apply (evict_keeps_newest Postgres.sort_key).
  - now apply sqlite_enforce_ordered.
  - subst sq. rewrite (sqlite_enforce_photos cfg env w m Hs Hd Hm).
    apply incl_filter.
Qed.

Lemma enforcement_run_trims_catalog_witness :
  let w := set_photos (sample_catalog 3) empty_world in
  length (photos (snd (Postgres.enforceMaxPhotos max_two sample_env w))) = 2%nat
  /\ length (photos (snd (Sqlite.enforceMaxPhotos max_two sample_env w))) = 2%nat.
Proof.
  intros w.
  destruct (enforcement_run_trims_catalog max_two sample_env w 2)
    as (_ & H1 & _ & _ & _ & _ & H2).
  - reflexivity.
  - reflexivity.
  - reflexivity.
  - lia.
  - apply sample_catalog_ids.
  - split; [exact H1|]. apply H2. vm_compute. discriminate.
Defined.

(** X12: on a catalog that holds at most [MAX_PHOTOS] rows an enforcement
    run changes nothing and makes no destroy call, whatever the
    collaborators would answer; in both variants. *)
Theorem enforcement_within_capacity_changes_nothing cfg env w m :
  MAX_PHOTOS cfg = Some m -> 0 <= m ->
  Z.of_nat (length (photos w)) <= m ->
  snd (Postgres.enforceMaxPhotos cfg env w) = w
  /\ snd (Sqlite.enforceMaxPhotos cfg env w) = w
  /\ Postgres.run_detached cfg env w
     = set_detached (Nat.pred (detached w)) w
  /\ Sqlite.run_detached cfg env w
     = set_detached (Nat.pred (detached w)) w.
Proof.
  intros Hm Hpos Hlen.
  destruct (enforce_within_capacity cfg env w m Hm Hpos Hlen) as (Hpg & Hsq).
  split; [exact Hpg|]. split; [exact Hsq|].
  unfold Postgres.run_detached, Sqlite.run_detached.
  destruct (detached w) as [|n] eqn:E.
  - cbn [Nat.pred]. rewrite <- E. unfold set_detached.
    split; symmetry; apply world_eta.
  - cbn [Nat.pred].
    destruct (enforce_within_capacity cfg env (set_detached n w) m Hm Hpos Hlen)
      as (Hpg' & Hsq').
    split; [|exact Hsq']. unfold try_catch.
    destruct (Postgres.enforceMaxPhotos cfg env (set_detached n w))
      as [[[]|e] w']; exact Hpg'.
Qed.

Lemma enforcement_within_capacity_changes_nothing_witness :
  let w := set_photos (sample_catalog 2) empty_world in
  snd (Postgres.enforceMaxPhotos max_two sample_env w) = w
  /\ snd (Sqlite.enforceMaxPhotos max_two sample_env w) = w.
Proof.
  intros w.
  destruct (enforcement_within_capacity_changes_nothing max_two sample_env w 2)
    as (H1 & H2 & _).
  - reflexivity.
  - lia.
  - vm_compute. discriminate.
  - split; [exact H1|exact H2].
Defined.

(** X13: enforcement is idempotent.  After a run that the database
    answered (on a catalog with distinct ids, and in SQLite at most 1000000
    rows over [MAX_PHOTOS]), a second run changes nothing and makes no
    destroy call, whatever the collaborators would answer then. *)
Theorem second_enforcement_run_changes_nothing cfg env env2 w m :
  selectFault env = None -> deleteFault env = None ->
  MAX_PHOTOS cfg = Some m -> 0 <= m ->
  NoDup (map id (photos w)) ->
  let w1 := snd (Postgres.enforceMaxPhotos cfg env w) in
  let w2 := snd (Sqlite.enforceMaxPhotos cfg env w) in
  snd (Postgres.enforceMaxPhotos cfg env2 w1) = w1
  /\ (Z.of_nat (length (photos w)) <= m + 1000000 ->
      snd (Sqlite.enforceMaxPhotos cfg env2 w2) = w2).
Proof.
  intros Hs Hd Hm Hpos Hnd w1 w2.
  destruct (enforce_lengths cfg env w m Hs Hd Hm Hpos Hnd) as (L1 & L2).
  split.
  - apply (enforce_within_capacity cfg env2 w1 m Hm Hpos).
    subst w1. rewrite L1. lia.
  - intros Hcap. apply (enforce_within_capacity cfg env2 w2 m Hm Hpos).
    subst w2. rewrite (L2 Hcap). lia.
Qed.

Lemma second_enforcement_run_changes_nothing_witness :
  let w := set_photos (sample_catalog 3) empty_world in
  let w1 := snd (Postgres.enforceMaxPhotos max_two sample_env w) in
  snd (Postgres.enforceMaxPhotos max_two sample_env w1) = w1.
Proof.
  intros w w1.
  destruct (second_enforcement_run_changes_nothing max_two sample_env
              sample_env w 2) as (H & _).
  - reflexivity.
  - reflexivity.
  - reflexivity.
  - lia.
  - apply sample_catalog_ids.
  - exact H.
Defined.

(** X14: a [MAX_PHOTOS] setting that does not parse to a number switches
    eviction off: every run leaves the world as it is, in both variants (the
    PostgreSQL run rejects, the SQLite run returns), so the catalog is never
    trimmed. *)
Theorem enforcement_without_numeric_MAX_PHOTOS_never_evicts cfg env w s :
  env_MAX_PHOTOS cfg = Some s -> s <> "" -> JS.parseInt s = None ->
  snd (Postgres.enforceMaxPhotos cfg env w) = w
  /\ snd (Sqlite.enforceMaxPhotos cfg env w) = w
  /\ photos (Postgres.run_detached cfg env w) = photos w
  /\ photos (Sqlite.run_detached cfg env w) = photos w
  /\ (selectFault env = None ->
      fst (Postgres.enforceMaxPhotos cfg env w)
      = Throw "invalid input syntax for type bigint").
Proof.
  intros Hcfg Hne Hnan.
  assert (Hm : MAX_PHOTOS cfg = None).
  { unfold MAX_PHOTOS. rewrite Hcfg, or_default_given by exact Hne. exact Hnan. }
  assert (Hpg : forall w', Postgres.enforceMaxPhotos cfg env w'
                 = (match selectFault env with
                    | Some e => Throw e
                    | None => Throw "invalid input syntax for type bigint"
                    end, w')).
  { intros w'. rewrite pg_enforce_cases, Hm. now destruct (selectFault env). }
  assert (Hsq : forall w', Sqlite.enforceMaxPhotos cfg env w' = (Ok tt, w')).
  { intros w'. rewrite sqlite_enforce_cases, Hm. now destruct (selectFault env). }
  rewrite Hpg, Hsq. split; [reflexivity|]. split; [reflexivity|].
  unfold Postgres.run_detached, Sqlite.run_detached, try_catch.
  split; [|split].
  - destruct (detached w); [reflexivity|]. rewrite Hpg.
    now destruct (selectFault env).
  - destruct (detached w); [reflexivity|]. now rewrite Hsq.
  - intros Hs. now rewrite Hs.
Qed.

Lemma enforcement_without_numeric_MAX_PHOTOS_never_evicts_witness :
  let w := set_photos (sample_catalog 3) empty_world in
  let cfg := mkConfig None (Some "unlimited") in
  snd (Postgres.enforceMaxPhotos cfg sample_env w) = w
  /\ snd (Sqlite.enforceMaxPhotos cfg sample_env w) = w.
Proof.
  intros w cfg.
  destruct (enforcement_without_numeric_MAX_PHOTOS_never_evicts cfg sample_env
              w "unlimited") as (H1 & H2 & _).
  - reflexivity.
  - discriminate.
  - reflexivity.
  - split; [exact H1|exact H2].
Defined.

(** X15: a negative [MAX_PHOTOS].  The PostgreSQL run is refused by the
    engine (negative OFFSET) and leaves the world as it is; the SQLite run
    reads the negative OFFSET as none, takes every row as a candidate and,
    the database answering and the catalog holding at most 1000000 rows,
    empties the catalog, with a destroy call for every row. *)
Theorem enforcement_with_negative_MAX_PHOTOS cfg env w m :
  MAX_PHOTOS cfg = Some m -> m < 0 ->
  selectFault env = None -> deleteFault env = None ->
  Z.of_nat (length (photos w)) <= 1000000 ->
  Postgres.enforceMaxPhotos cfg env w = (Throw "OFFSET must not be negative", w)
  /\ photos (snd (Sqlite.enforceMaxPhotos cfg env w)) = []
  /\ destroyCalls (snd (Sqlite.enforceMaxPhotos cfg env w))
     = destroyCalls w
       ++ map publicId (order_by_desc Sqlite.sort_key (photos w)).
Proof.
  intros Hm Hneg Hs Hd Hlen.
  destruct (sqlite_enforce_outcome cfg env w m Hs Hd Hm) as (_ & S2 & S3).
  assert (Hc : sqlite_candidates m (photos w)
               = order_by_desc Sqlite.sort_key (photos w)).
  { unfold sqlite_candidates. rewrite drop_none by lia.
    apply take_all. now rewrite order_by_desc_length. }
  rewrite Hc in S2, S3. rewrite S2, S3. split; [|split; [|reflexivity]].
  - rewrite pg_enforce_cases, Hs, Hm.
    destruct (m <? 0) eqn:E; [reflexivity|]. apply Z.ltb_ge in E. lia.
  - apply without_ids_all. intros i Hi. apply in_map_iff in Hi.
    destruct Hi as (p & <- & Hp). apply in_map.
    exact (proj2 (order_by_desc_In Sqlite.sort_key p (photos w)) Hp).
Qed.

Lemma enforcement_with_negative_MAX_PHOTOS_witness :
  let w := set_photos (sample_catalog 3) empty_world in
  let cfg := mkConfig None (Some "-1") in
  photos (snd (Postgres.enforceMaxPhotos cfg sample_env w)) = photos w
  /\ photos (snd (Sqlite.enforceMaxPhotos cfg sample_env w)) = [].
Proof.
  intros w cfg.
  destruct (enforcement_with_negative_MAX_PHOTOS cfg sample_env w (-1))
    as (H1 & H2 & _).
  - reflexivity.
  - lia.
  - reflexivity.
  - reflexivity.
  - vm_compute. discriminate.
  - rewrite H1. split; [reflexivity|exact H2].
Defined.

(* --------------------------------------------------------------------- *)
(** ** GET /photos, continued *)
(* --------------------------------------------------------------------- *)

Lemma StronglySorted_take {A} (R : A -> A -> Prop) (n : Z) (l : list A) :
  StronglySorted R l -> StronglySorted R (take n l).
Proof.
  intros H. revert n. induction H as [|x r Hs IH Hall]; intros n; simpl;
    [constructor|].
  destruct (n <=? 0); [constructor|]. constructor; [apply IH|].
  apply Forall_forall. intros y Hy. apply take_In in Hy.
  rewrite Forall_forall in Hall. now apply Hall.
Qed.

Lemma StronglySorted_map_view (f : Z -> Z) (l : list Photo) :
  StronglySorted (desc (fun p => f (createdAt p))) l ->
  StronglySorted (fun a b => f (v_createdAt b) <= f (v_createdAt a)) (map view l).
Proof.
  induction 1 as [|x r Hs IH Hall]; simpl; constructor; [exact IH|].
  apply Forall_forall. intros v Hv. apply in_map_iff in Hv.
  destruct Hv as (p & <- & Hp). rewrite Forall_forall in Hall.
  exact (Hall p Hp).
Qed.

Lemma NoDup_take_ids (n : Z) (l : list Photo) :
  NoDup (map id l) -> NoDup (map id (take n l)).
Proof.
  intros H. rewrite <- (take_drop n l), map_app in H.
  exact (NoDup_app_remove_r _ _ H).
Qed.

Lemma map_v_id_view (l : list Photo) : map v_id (map view l) = map id l.
Proof. rewrite map_map. reflexivity. Qed.

Lemma pg_rows_in env q w :
  rows_in (Postgres.get_photos env q w)
  = match selectFault env, photos_limit q with
    | None, Some v => map view (pg_listed v (photos w))
    | _, _ => []
    end.
Proof.
  rewrite pg_get_photos_run. unfold rows_in, pg_listed.
  destruct (selectFault env); [reflexivity|].
  destruct (photos_limit q) as [v|]; [|reflexivity].
  now destruct (v <? 0).
Qed.

Lemma sqlite_rows_in env q w :
  rows_in (Sqlite.get_photos env q w)
  = match selectFault env, photos_limit q with
    | None, Some v => map view (sqlite_listed v (photos w))
    | _, _ => []
    end.
Proof.
  rewrite sqlite_get_photos_run. unfold rows_in, sqlite_listed.
  destruct (selectFault env); [reflexivity|].
  destruct (photos_limit q) as [v|]; reflexivity.
Qed.

(** X16: [GET /photos] only reads.  Whatever the request and the
    collaborators, it leaves the world as it is; the rows it answers with
    are rows of the catalog, newest first (in SQLite: newest first to the
    second); and on a catalog with distinct ids no photo is listed twice.
    The PostgreSQL variant answers with at most 2000 rows. *)
Theorem listing_reads_catalog_newest_first env q w :
  let pg := Postgres.get_photos env q w in
  let sq := Sqlite.get_photos env q w in
  snd pg = w /\ snd sq = w
  /\ incl (rows_in pg) (map view (photos w))
  /\ incl (rows_in sq) (map view (photos w))
  /\ newest_first (rows_in pg)
  /\ newest_first_by_second (rows_in sq)
  /\ (length (rows_in pg) <= 2000)%nat
  /\ (NoDup (map id (photos w)) ->
      NoDup (map v_id (rows_in pg)) /\ NoDup (map v_id (rows_in sq))).
Proof.
  intros pg sq. subst pg sq.
  split; [|split; [|split; [|split; [|split; [|split; [|split]]]]]].
  - rewrite pg_get_photos_run. destruct (selectFault env); [reflexivity|].
    destruct (photos_limit q) as [v|]; [|reflexivity]. now destruct (v <? 0).
  - rewrite sqlite_get_photos_run. destruct (selectFault env); [reflexivity|].
    now destruct (photos_limit q).
  - intros v Hv. apply in_rows_in_pg in Hv. destruct Hv as (p & Hp & ->).
    now apply in_map.
  - intros v Hv. apply in_rows_in_sqlite in Hv. destruct Hv as (p & Hp & ->).
    now apply in_map.
  - rewrite pg_rows_in. unfold newest_first, pg_listed.
    destruct (selectFault env); [constructor|].
    destruct (photos_limit q) as [v|]; [|constructor].
    destruct (v <? 0); [constructor|].
    apply (StronglySorted_map_view (fun t => t)), StronglySorted_take.
    apply (order_by_desc_sorted Postgres.sort_key).
  - rewrite sqlite_rows_in. unfold newest_first_by_second, sqlite_listed.
    destruct (selectFault env); [constructor|].
    destruct (photos_limit q) as [v|]; [|constructor].
    apply (StronglySorted_map_view Sqlite.datetime).
    destruct (v <? 0); [|apply StronglySorted_take];
      apply (order_by_desc_sorted Sqlite.sort_key).
  - apply pg_get_photos_bounded.
  - intros Hnd. rewrite pg_rows_in, sqlite_rows_in.
    assert (Hpg : NoDup (map id (order_by_desc Postgres.sort_key (photos w)))).
    { eapply Permutation_NoDup; [|exact Hnd].
      apply Permutation_map, order_by_desc_perm. }
    assert (Hsq : NoDup (map id (order_by_desc Sqlite.sort_key (photos w)))).
    { eapply Permutation_NoDup; [|exact Hnd].
      apply Permutation_map, order_by_desc_perm. }
    unfold pg_listed, sqlite_listed.
    destruct (selectFault env); [split; constructor|].
    destruct (photos_limit q) as [v|]; [|split; constructor].
    rewrite !map_v_id_view.
    destruct (v <? 0); split; try constructor; try assumption;
      now apply NoDup_take_ids.
Qed.

Lemma listing_reads_catalog_newest_first_witness :
  let w := set_photos (sample_catalog 3) empty_world in
  NoDup (map v_id (rows_in (Postgres.get_photos sample_env (Some "2") w))).
Proof.
  intros w.
  destruct (listing_reads_catalog_newest_first sample_env (Some "2") w)
    as (_ & _ & _ & _ & _ & _ & _ & H).
  apply H. apply sample_catalog_ids.
Defined.

(** X17: without a [limit] parameter, or with an empty one, [GET /photos]
    answers with the first 800 rows of the order (all of them when there are
    fewer), the lookup being answered; in both variants. *)
Theorem listing_defaults_to_800_rows env q w :
  q = None \/ q = Some "" ->
  selectFault env = None ->
  rows_in (Postgres.get_photos env q w)
  = map view (take 800 (order_by_desc Postgres.sort_key (photos w)))
  /\ rows_in (Sqlite.get_photos env q w)
     = map view (take 800 (order_by_desc Sqlite.sort_key (photos w)))
  /\ length (rows_in (Postgres.get_photos env q w))
     = Nat.min 800 (length (photos w))
  /\ length (rows_in (Sqlite.get_photos env q w))
     = Nat.min 800 (length (photos w)).
Proof.
  intros Hq Hs.
  assert (Hl : photos_limit q = Some 800) by (destruct Hq; subst; reflexivity).
  rewrite pg_rows_in, sqlite_rows_in, Hs, Hl.
  unfold pg_listed, sqlite_listed. change (800 <? 0) with false. cbv iota.
  split; [reflexivity|]. split; [reflexivity|].
  rewrite !length_map, !take_length, !order_by_desc_length.
  split; f_equal; reflexivity.
Qed.

Lemma listing_defaults_to_800_rows_witness :
  let w := set_photos (sample_catalog 3) empty_world in
  length (rows_in (Postgres.get_photos sample_env None w)) = 3%nat.
Proof.
  intros w.
  destruct (listing_defaults_to_800_rows sample_env None w)
    as (_ & _ & H & _); [now left|reflexivity|].
  rewrite H. unfold w. cbn [photos set_photos].
  rewrite sample_catalog_length. reflexivity.
Defined.

(* --------------------------------------------------------------------- *)
(** ** The live-update channel, continued *)
(* --------------------------------------------------------------------- *)

Lemma set_delete_twice h (s : list Handle) :
  set_delete h (set_delete h s) = set_delete h s.
Proof.
  unfold set_delete at 1. apply forallb_filter_id, forallb_forall.
  intros x Hx. apply set_delete_In in Hx.
  apply negb_true_iff, Nat.eqb_neq. tauto.
Qed.

Lemma published_until_close_open h ops :
  ~ In (Close h) ops -> published_until_close h ops = published ops.
Proof.
  induction ops as [|op r IH]; intros H; [reflexivity|].
  assert (Hr : ~ In (Close h) r) by (intros Hin; apply H; now right).
  destruct op as [|h'|ev]; simpl.
  - now apply IH.
  - destruct (Nat.eqb h' h) eqn:E; [|now apply IH].
    apply Nat.eqb_eq in E. subst h'. exfalso. apply H. now left.
  - f_equal. now apply IH.
Qed.

(** X18: closing a connection.  Once the [close] of a connection opened
    earlier has run, nothing more is written to it, whatever is published and
    whoever connects afterwards; a second [close] changes nothing; and the
    other members of the set stay. *)
Theorem closed_connection_receives_nothing_more ops0 ops1 h :
  let w0 := bus_run ops0 empty_world in
  let w1 := snd (on_close h w0) in
  (h < nextHandle w0)%nat ->
  received h (bus_run ops1 w1) = received h w0
  /\ ~ In h (sseClients w1)
  /\ snd (on_close h w1) = w1
  /\ (forall h', h' <> h -> In h' (sseClients w0) -> In h' (sseClients w1)).
Proof.
  intros w0 w1 Hlt.
  assert (Hwf : bus_wf w0) by (apply bus_wf_run, bus_wf_empty).
  assert (Hwf1 : bus_wf w1) by exact (bus_wf_step w0 (Close h) Hwf).
  assert (Hout : ~ In h (sseClients w1)).
  { subst w1. cbn. intros Hin. apply set_delete_In in Hin. tauto. }
  split; [|split; [exact Hout|split]].
  - now rewrite (received_closed h ops1 w1 Hwf1 Hlt Hout).
  - subst w1. unfold on_close.
    cbn [snd photos blobs destroyCalls sseClients wire nextHandle detached].
    now rewrite set_delete_twice.
  - intros h' Hne Hin. subst w1. cbn. apply set_delete_In. tauto.
Qed.

Lemma closed_connection_receives_nothing_more_witness :
  let w0 := bus_run [Connect; Publish (PhotoDeleted "a")] empty_world in
  received 0%nat (bus_run [Publish (PhotoDeleted "b"); Connect]
                          (snd (on_close 0%nat w0)))
  = [Hello; PhotoDeleted "a"].
Proof.
  intros w0.
  destruct (closed_connection_receives_nothing_more
              [Connect; Publish (PhotoDeleted "a")]
              [Publish (PhotoDeleted "b"); Connect] 0%nat) as (H & _).
  - cbn. lia.
  - exact H.
Defined.

(** X19: connections that stay open see the same events.  Two connections
    in the set, neither of which closes during a run of the channel, are
    written exactly the events published in that run, in the order of
    publication, one frame each. *)
Theorem open_connections_receive_the_same_events ops0 ops1 h1 h2 :
  let w0 := bus_run ops0 empty_world in
  In h1 (sseClients w0) -> In h2 (sseClients w0) ->
  ~ In (Close h1) ops1 -> ~ In (Close h2) ops1 ->
  received h1 (bus_run ops1 w0) = received h1 w0 ++ published ops1
  /\ received h2 (bus_run ops1 w0) = received h2 w0 ++ published ops1.
Proof.
  intros w0 H1 H2 C1 C2.
  assert (Hwf : bus_wf w0) by (apply bus_wf_run, bus_wf_empty).
  rewrite (received_open h1 ops1 w0 Hwf H1), (received_open h2 ops1 w0 Hwf H2).
  now rewrite !published_until_close_open.
Qed.

Lemma open_connections_receive_the_same_events_witness :
  let w0 := bus_run [Connect; Connect] empty_world in
  received 0%nat (bus_run [Publish (PhotoDeleted "a")] w0)
  = [Hello; PhotoDeleted "a"]
  /\ received 1%nat (bus_run [Publish (PhotoDeleted "a")] w0)
     = [Hello; PhotoDeleted "a"].
Proof.
  intros w0.
  destruct (open_connections_receive_the_same_events [Connect; Connect]
              [Publish (PhotoDeleted "a")] 0%nat 1%nat) as (H1 & H2).
  - cbn. now left.
  - cbn. right. now left.
  - cbn. intros [E|[]]. discriminate E.
  - cbn. intros [E|[]]. discriminate E.
  - split; [exact H1|exact H2].
Defined.

Lemma pg_get_photos_world env q w : snd (Postgres.get_photos env q w) = w.
Proof.
  rewrite pg_get_photos_run. destruct (selectFault env); [reflexivity|].
  destruct (photos_limit q) as [v|]; [|reflexivity]. now destruct (v <? 0).
Qed.

Lemma sqlite_get_photos_world env q w : snd (Sqlite.get_photos env q w) = w.
Proof.
  rewrite sqlite_get_photos_run. destruct (selectFault env); [reflexivity|].
  now destruct (photos_limit q).
Qed.

Lemma upload_bookkeeping env ident now file w :
  let pg := Postgres.post_upload env ident now file w in
  let sq := Sqlite.post_upload env ident now file w in
  let counted w' :=
    (detached w' = detached w /\ photos w' = photos w)
    \/ (detached w' = S (detached w)
        /\ length (photos w') = S (length (photos w))) in
  channel_kept (fst pg) w (snd pg) /\ counted (snd pg)
  /\ channel_kept (fst sq) w (snd sq) /\ counted (snd sq).
Proof.
  intros pg sq counted. subst pg sq counted. cbv beta.
  destruct file as [f|].
  - pose proof (pg_upload_run env (mkUpload ident now f) w) as Hp.
    pose proof (sqlite_upload_run env (mkUpload ident now f) w) as Hq.
    cbn [u_id u_now u_file] in Hp, Hq. rewrite Hp, Hq.
    destruct (uploadFault env), (insertFault env),
      (existsb (has_id ident) (photos w));
      unfold channel_kept; cbn; rewrite ?app_nil_r, ?length_app; cbn;
      repeat split; try (left; split; reflexivity);
      right; split; [reflexivity|lia|reflexivity|lia].
  - unfold channel_kept. cbn. rewrite ?app_nil_r.
    repeat split; left; split; reflexivity.
Qed.

Lemma delete_bookkeeping cfg env key i w :
  let pg := Postgres.delete_photo cfg env key i w in
  let sq := Sqlite.delete_photo cfg env key i w in
  let counted w' :=
    detached w' = detached w
    /\ (length (photos w') <= length (photos w))%nat in
  channel_kept (fst pg) w (snd pg) /\ counted (snd pg)
  /\ channel_kept (fst sq) w (snd sq) /\ counted (snd sq).
Proof.
  intros pg sq counted. subst pg sq counted. cbv beta.
  assert (Hlen : (length (without_ids [i] (photos w)) <= length (photos w))%nat)
    by apply filter_length_le.
  destruct (JS.strict_neq key (Some (ADMIN_KEY cfg))) eqn:Ek.
  - assert (Dp : Postgres.delete_photo cfg env key i w
                 = (Ok (json 403 (Msg "Forbidden (Admin only)")), w))
      by (unfold Postgres.delete_photo, try_catch; now rewrite Ek).
    assert (Ds : Sqlite.delete_photo cfg env key i w
                 = (Ok (json 403 (Msg "Forbidden (Admin only)")), w))
      by (unfold Sqlite.delete_photo; now rewrite Ek).
    rewrite Dp, Ds. unfold channel_kept. cbn. rewrite app_nil_r.
    repeat split; lia.
  - apply strict_neq_false in Ek. subst key.
    rewrite pg_delete_authorized, sqlite_delete_authorized.
    destruct (selectFault env), (filter (has_id i) (photos w)),
      (deleteFault env); unfold channel_kept;
      cbn -[without_ids]; rewrite ?app_nil_r; repeat split; lia.
Qed.

Lemma listing_announces_nothing env q w hs :
  frames_for (fst (Postgres.get_photos env q w)) hs = []
  /\ frames_for (fst (Sqlite.get_photos env q w)) hs = []
  /\ event_of (fst (Postgres.get_photos env q w)) = []
  /\ event_of (fst (Sqlite.get_photos env q w)) = [].
Proof.
  rewrite pg_get_photos_run, sqlite_get_photos_run.
  destruct (selectFault env), (photos_limit q) as [v|];
    try destruct (v <? 0); repeat split.
Qed.

Lemma run_detached_bookkeeping cfg env w :
  let pg := Postgres.run_detached cfg env w in
  let sq := Sqlite.run_detached cfg env w in
  sseClients pg = sseClients w /\ nextHandle pg = nextHandle w
  /\ wire pg = wire w /\ detached pg = Nat.pred (detached w)
  /\ sseClients sq = sseClients w /\ nextHandle sq = nextHandle w
  /\ wire sq = wire w /\ detached sq = Nat.pred (detached w).
Proof.
  unfold Postgres.run_detached, Sqlite.run_detached, try_catch.
  destruct (detached w) as [|n] eqn:E; [now rewrite E|].
  rewrite pg_enforce_cases, sqlite_enforce_cases.
  unfold pg_evict, sqlite_evict.
  destruct (selectFault env); [repeat split|].
  destruct (MAX_PHOTOS cfg) as [m|]; [|repeat split].
  destruct (pg_candidates m (photos (set_detached n w))),
    (sqlite_candidates m (photos (set_detached n w))),
    (deleteFault env), (m <? 0); repeat split.
Qed.

(** X20: events follow answers.  A route writes to the channel exactly
    when it answers 200 with a photo or a deleted id: then every connection
    of the set is written one frame that carries the photo, or the id, of
    the answer; otherwise (400, 403, 404, 500, and every listing) nothing is
    written.  No route changes the set.  In both variants, whatever the
    request and the collaborators. *)
Theorem events_follow_answers cfg env ident now file key i q w :
  let frames x := wire w ++ frames_for (fst x) (sseClients w) in
  wire (snd (Postgres.post_upload env ident now file w))
  = frames (Postgres.post_upload env ident now file w)
  /\ wire (snd (Sqlite.post_upload env ident now file w))
     = frames (Sqlite.post_upload env ident now file w)
  /\ wire (snd (Postgres.delete_photo cfg env key i w))
     = frames (Postgres.delete_photo cfg env key i w)
  /\ wire (snd (Sqlite.delete_photo cfg env key i w))
     = frames (Sqlite.delete_photo cfg env key i w)
  /\ wire (snd (Postgres.get_photos env q w))
     = frames (Postgres.get_photos env q w)
  /\ wire (snd (Sqlite.get_photos env q w))
     = frames (Sqlite.get_photos env q w)
  /\ sseClients (snd (Postgres.post_upload env ident now file w)) = sseClients w
  /\ sseClients (snd (Sqlite.post_upload env ident now file w)) = sseClients w
  /\ sseClients (snd (Postgres.delete_photo cfg env key i w)) = sseClients w
  /\ sseClients (snd (Sqlite.delete_photo cfg env key i w)) = sseClients w.
Proof.
  intros frames. subst frames. cbv beta.
  destruct (upload_bookkeeping env ident now file w)
    as ((U1 & _ & U2) & _ & (U3 & _ & U4) & _).
  destruct (delete_bookkeeping cfg env key i w)
    as ((D1 & _ & D2) & _ & (D3 & _ & D4) & _).
  destruct (listing_announces_nothing env q w (sseClients w)) as (L1 & L2 & _).
  rewrite L1, L2, pg_get_photos_world, sqlite_get_photos_world, app_nil_r.
  repeat split; assumption.
Qed.

(* --------------------------------------------------------------------- *)
(** ** Invariants of the server *)
(* --------------------------------------------------------------------- *)

Lemma filter_has_id_head i (tbl : list Photo) r rest :
  filter (has_id i) tbl = r :: rest -> In r tbl /\ id r = i.
Proof.
  intros H. assert (Hin : In r (filter (has_id i) tbl)) by (rewrite H; now left).
  apply filter_In in Hin. destruct Hin as [Hin E].
  split; [exact Hin|]. now apply String.eqb_eq in E.
Qed.

Lemma pg_candidates_incl m tbl : incl (pg_candidates m tbl) tbl.
Proof.
  intros p Hp. apply drop_In in Hp.
  exact (proj1 (order_by_desc_In Postgres.sort_key p tbl) Hp).
Qed.

Lemma sqlite_candidates_incl m tbl : incl (sqlite_candidates m tbl) tbl.
Proof.
  intros p Hp. apply take_In, drop_In in Hp.
  exact (proj1 (order_by_desc_In Sqlite.sort_key p tbl) Hp).
Qed.

Lemma upload_effect env ident now f w :
  step_effect env w (snd (Postgres.post_upload env ident now (Some f) w))
  /\ step_effect env w (snd (Sqlite.post_upload env ident now (Some f) w)).
Proof.
  pose proof (pg_upload_run env (mkUpload ident now f) w) as Hp.
  pose proof (sqlite_upload_run env (mkUpload ident now f) w) as Hq.
  cbn [u_id u_now u_file] in Hp, Hq. rewrite Hp, Hq.
  assert (Hblob : step_effect env w (after_blob (mkUpload ident now f) w)).
  { apply eff_none; [reflexivity|apply mem_string_add_incl]. }
  destruct (uploadFault env);
    [split; apply eff_none; [reflexivity|apply incl_refl
                            |reflexivity|apply incl_refl]|].
  destruct (insertFault env); [split; exact Hblob|].
  destruct (existsb (has_id ident) (photos w)) eqn:E; [split; exact Hblob|].
  assert (Hfresh : ~ In ident (map id (photos w))).
  { intros Hin. apply existsb_has_id_present in Hin. congruence. }
  split; apply (eff_add env _ _ (row_of env (mkUpload ident now f)));
    try reflexivity; try exact Hfresh;
    try apply mem_string_add; apply mem_string_add_incl.
Qed.

Lemma delete_effect cfg env key i w :
  step_effect env w (snd (Postgres.delete_photo cfg env key i w))
  /\ step_effect env w (snd (Sqlite.delete_photo cfg env key i w)).
Proof.
  assert (Hsame : step_effect env w w)
    by (apply eff_none; [reflexivity|apply incl_refl]).
  destruct (JS.strict_neq key (Some (ADMIN_KEY cfg))) eqn:Ek.
  - unfold Postgres.delete_photo, Sqlite.delete_photo, try_catch.
    rewrite Ek. split; exact Hsame.
  - apply strict_neq_false in Ek. subst key.
    rewrite pg_delete_authorized, sqlite_delete_authorized.
    destruct (selectFault env); [split; exact Hsame|].
    destruct (filter (has_id i) (photos w)) as [|r rest] eqn:Ef;
      [split; exact Hsame|].
    destruct (filter_has_id_head i _ r rest Ef) as (Hin & <-).
    destruct (deleteFault env) eqn:Ed.
    + split; apply (eff_torn env _ _ [r]); try reflexivity; congruence.
    + split; apply (eff_del env _ _ [r]); try reflexivity;
        intros x [<-|[]]; exact Hin.
Qed.

Lemma pg_evict_effect env m w0 w :
  photos w0 = photos w -> blobs w0 = blobs w ->
  step_effect env w (snd (pg_evict env (pg_candidates m (photos w)) w0)).
Proof.
  intros Ep Eb. unfold pg_evict.
  destruct (pg_candidates m (photos w)) as [|p r] eqn:Ec; cbn [snd].
  - apply eff_none; [exact Ep|rewrite Eb; apply incl_refl].
  - destruct (deleteFault env) eqn:Ed; cbn [snd].
    + apply (eff_torn env _ _ (p :: r)); [congruence|exact Ep|].
      cbn [snd blobs after_destroys]. now rewrite Eb.
    + apply (eff_del env _ _ (p :: r)).
      * rewrite <- Ec. apply pg_candidates_incl.
      * cbn [snd photos set_photos]. now rewrite Ep.
      * cbn [snd blobs set_photos after_destroys]. now rewrite Eb.
Qed.

Lemma sqlite_evict_effect env m w0 w :
  photos w0 = photos w -> blobs w0 = blobs w ->
  step_effect env w (snd (sqlite_evict env (sqlite_candidates m (photos w)) w0)).
Proof.
  intros Ep Eb. unfold sqlite_evict.
  destruct (sqlite_candidates m (photos w)) as [|p r] eqn:Ec; cbn [snd].
  - apply eff_none; [exact Ep|rewrite Eb; apply incl_refl].
  - destruct (deleteFault env) eqn:Ed; cbn [snd].
    + apply (eff_torn env _ _ (p :: r)); [congruence|exact Ep|].
      cbn [snd blobs after_destroys]. now rewrite Eb.
    + apply (eff_del env _ _ (p :: r)).
      * rewrite <- Ec. apply sqlite_candidates_incl.
      * cbn [snd photos set_photos]. now rewrite Ep.
      * cbn [snd blobs set_photos after_destroys]. now rewrite Eb.
Qed.

Lemma run_detached_effect cfg env w :
  step_effect env w (Postgres.run_detached cfg env w)
  /\ step_effect env w (Sqlite.run_detached cfg env w).
Proof.
  assert (Hsame : forall w0, photos w0 = photos w -> blobs w0 = blobs w ->
                    step_effect env w w0).
  { intros w0 Ep Eb. apply eff_none; [exact Ep|rewrite Eb; apply incl_refl]. }
  unfold Postgres.run_detached, Sqlite.run_detached.
  destruct (detached w) as [|n]; [split; now apply Hsame|]. split.
  - unfold try_catch. rewrite pg_enforce_cases.
    destruct (selectFault env); [now apply Hsame|].
    destruct (MAX_PHOTOS cfg) as [m|]; [|now apply Hsame].
    destruct (m <? 0); [now apply Hsame|].
    change (photos (set_detached n w)) with (photos w).
    pose proof (pg_evict_effect env m (set_detached n w) w eq_refl eq_refl) as H.
    destruct (pg_evict env (pg_candidates m (photos w)) (set_detached n w))
      as [[[]|e] w']; exact H.
  - rewrite sqlite_enforce_cases.
    destruct (selectFault env); [now apply Hsame|].
    destruct (MAX_PHOTOS cfg) as [m|]; [|now apply Hsame].
    change (photos (set_detached n w)) with (photos w).
    now apply sqlite_evict_effect.
Qed.

(** Every step of either variant has one of the four effects. *)
Lemma serve_effect cfg w er :
  step_effect (fst er) w (pg_serve cfg w er)
  /\ step_effect (fst er) w (sqlite_serve cfg w er).
Proof.
  assert (Hsame : forall w0, photos w0 = photos w -> blobs w0 = blobs w ->
                    step_effect (fst er) w w0).
  { intros w0 Ep Eb. apply eff_none; [exact Ep|rewrite Eb; apply incl_refl]. }
  unfold pg_serve, sqlite_serve. destruct (snd er) as [q|ident now file|key i| | |h].
  - rewrite pg_get_photos_world, sqlite_get_photos_world. split; now apply Hsame.
  - destruct file as [f|]; [apply upload_effect|split; now apply Hsame].
  - apply delete_effect.
  - apply run_detached_effect.
  - split; now apply Hsame.
  - split; now apply Hsame.
Qed.

Lemma without_ids_NoDup ids (tbl : list Photo) :
  NoDup (map id tbl) -> NoDup (map id (without_ids ids tbl)).
Proof.
  unfold without_ids. induction tbl as [|x r IH]; simpl; intros Hnd;
    [constructor|].
  inversion Hnd as [|? ? Hx Hr]; subst.
  destruct (negb (mem_string (id x) ids)); simpl; [|now apply IH].
  constructor; [|now apply IH].
  intros Hin. apply Hx. apply in_map_iff in Hin.
  destruct Hin as (p & Ep & Hp). apply filter_In in Hp.
  rewrite <- Ep. apply in_map. tauto.
Qed.

Lemma append_inj (s a b : string) :
  (s ++ a)%string = (s ++ b)%string -> a = b.
Proof.
  induction s as [|c s IH]; simpl; intros H; [exact H|].
  injection H as H. now apply IH.
Qed.

Lemma keyed_inj p q : keyed p -> keyed q -> publicId p = publicId q -> id p = id q.
Proof.
  unfold keyed. intros Hp Hq E. rewrite Hp, Hq in E.
  apply append_inj in E. now apply append_inj in E.
Qed.

Lemma blobs_after_keeps env pids (b : list string) x :
  In x b -> ~ In x pids -> In x (blobs_after env pids b).
Proof.
  unfold blobs_after. revert b. induction pids as [|pid r IH]; intros b Hb Hn;
    [exact Hb|].
  simpl. apply IH; [|intros Hin; apply Hn; now right].
  destruct (destroyFault env pid); [exact Hb|].
  apply remove_string_other; [|exact Hb]. intros ->. apply Hn. now left.
Qed.

Lemma step_effect_catalog_ok env w w' :
  catalog_ok w -> step_effect env w w' -> catalog_ok w'.
Proof.
  intros (Hnd & Hk) [Ep _|p Ep Hfresh Hkp _ _|rows _ Ep _|rows _ Ep _];
    unfold catalog_ok; rewrite Ep.
  - now split.
  - split.
    + rewrite map_app. apply NoDup_app; [exact Hnd|repeat constructor; intros []|].
      intros i Hi [<-|[]]. contradiction.
    + apply Forall_app. split; [exact Hk|now repeat constructor].
  - split; [now apply without_ids_NoDup|].
    apply Forall_forall. intros p Hp. apply filter_In in Hp.
    rewrite Forall_forall in Hk. apply Hk. tauto.
  - now split.
Qed.

Lemma step_effect_blobs_cover env w w' :
  deleteFault env = None ->
  catalog_ok w -> blobs_cover w -> step_effect env w w' -> blobs_cover w'.
Proof.
  intros Hd (Hnd & Hk) Hc
    [Ep Hb|p Ep Hfresh Hkp Hin Hb|rows Hincl Ep Eb|rows Hbad _ _];
    [| | |congruence]; unfold blobs_cover in *; rewrite Ep.
  - eapply Forall_impl; [|exact Hc]. intros p Hp. now apply Hb.
  - apply Forall_app. split; [|now repeat constructor].
    eapply Forall_impl; [|exact Hc]. intros q Hq. now apply Hb.
  - rewrite Eb. apply Forall_forall. intros q Hq. apply filter_In in Hq.
    destruct Hq as [Hq Hkeep]. apply negb_true_iff, mem_string_false in Hkeep.
    rewrite Forall_forall in Hc, Hk.
    apply blobs_after_keeps; [now apply Hc|].
    intros Hin. apply in_map_iff in Hin. destruct Hin as (r & Er & Hr).
    apply Hkeep. apply in_map_iff. exists r. split; [|exact Hr].
    apply keyed_inj; [apply Hk, Hincl, Hr|now apply Hk|exact Er].
Qed.

(** X21: the primary key holds.  Whatever requests are served, in whatever
    order and with whatever failures of Cloudinary and of the database, no
    two rows of the catalog share an id and every row carries the public id
    [memorial_wall/<id>] of its own id; in both variants. *)
Theorem catalog_ids_stay_unique cfg trace w :
  catalog_ok w ->
  catalog_ok (pg_serve_all cfg trace w)
  /\ catalog_ok (sqlite_serve_all cfg trace w).
Proof.
  intros Hok. unfold pg_serve_all, sqlite_serve_all. split.
  - revert w Hok. induction trace as [|er r IH]; intros w Hok; [exact Hok|].
    apply IH. eapply step_effect_catalog_ok; [exact Hok|].
    exact (proj1 (serve_effect cfg w er)).
  - revert w Hok. induction trace as [|er r IH]; intros w Hok; [exact Hok|].
    apply IH. eapply step_effect_catalog_ok; [exact Hok|].
    exact (proj2 (serve_effect cfg w er)).
Qed.

Lemma catalog_ids_stay_unique_witness :
  catalog_ok (pg_serve_all max_two
                [(sample_env, UploadPhoto "A" 1000 (Some "a.jpg"));
                 (insert_down, UploadPhoto "B" 2000 (Some "b.jpg"));
                 (sample_env, UploadPhoto "A" 3000 (Some "c.jpg"))]
                empty_world).
Proof.
  apply (catalog_ids_stay_unique max_two _ empty_world).
  split; constructor.
Defined.

(** X22: rows keep their objects.  As long as no DELETE statement fails,
    every row of the catalog has its object in the blob store after any
    sequence of requests, whatever else fails (uploads, inserts, lookups,
    destroy calls); in both variants. *)
Theorem catalog_rows_keep_their_blobs cfg trace w :
  answers_deletes trace ->
  catalog_ok w -> blobs_cover w ->
  blobs_cover (pg_serve_all cfg trace w)
  /\ blobs_cover (sqlite_serve_all cfg trace w).
Proof.
  intros Htr Hok Hc. unfold pg_serve_all, sqlite_serve_all. split.
  - revert w Hok Hc. induction Htr as [|er r Hd _ IH]; intros w Hok Hc;
      [exact Hc|].
    pose proof (proj1 (serve_effect cfg w er)) as He. apply IH.
    + eapply step_effect_catalog_ok; eassumption.
    + eapply step_effect_blobs_cover; eassumption.
  - revert w Hok Hc. induction Htr as [|er r Hd _ IH]; intros w Hok Hc;
      [exact Hc|].
    pose proof (proj2 (serve_effect cfg w er)) as He. apply IH.
    + eapply step_effect_catalog_ok; eassumption.
    + eapply step_effect_blobs_cover; eassumption.
Qed.

Lemma catalog_rows_keep_their_blobs_witness :
  blobs_cover (pg_serve_all max_two
                 [(sample_env, UploadPhoto "A" 1000 (Some "a.jpg"));
                  (sample_env, UploadPhoto "B" 2000 (Some "b.jpg"));
                  (sample_env, DeletePhoto (Some "12345") "A")]
                 empty_world).
Proof.
  apply (catalog_rows_keep_their_blobs max_two _ empty_world).
  - repeat constructor.
  - split; constructor.
  - constructor.
Defined.

(* --------------------------------------------------------------------- *)
(** ** The capacity of the wall *)
(* --------------------------------------------------------------------- *)

Lemma try_catch_ignore_world (m : M unit) w :
  snd (try_catch m (fun _ => ret tt) w) = snd (m w).
Proof. unfold try_catch. now destruct (m w) as [[a|e] w']. Qed.

Lemma sqlite_enforce_length cfg env w m :
  selectFault env = None -> deleteFault env = None ->
  MAX_PHOTOS cfg = Some m -> 0 <= m ->
  NoDup (map id (photos w)) ->
  Z.of_nat (length (photos (snd (Sqlite.enforceMaxPhotos cfg env w))))
  <= Z.max m (Z.of_nat (length (photos w)) - 1000000).
Proof.
  intros Hs Hd Hm Hpos Hnd. rewrite <- (order_by_desc_length Sqlite.sort_key).
  rewrite (sqlite_enforce_ordered cfg env w m Hs Hd Hm Hnd).
  rewrite length_app, take_length, !drop_length, order_by_desc_length. lia.
Qed.

Lemma run_detached_reach cfg env w m :
  MAX_PHOTOS cfg = Some m -> 0 <= m ->
  selectFault env = None -> deleteFault env = None ->
  NoDup (map id (photos w)) -> within_reach m w ->
  within_reach m (Postgres.run_detached cfg env w)
  /\ within_reach m (Sqlite.run_detached cfg env w).
Proof.
  intros Hm Hpos Hs Hd Hnd Hr.
  destruct (run_detached_bookkeeping cfg env w)
    as (_ & _ & _ & Dp & _ & _ & _ & Dq).
  unfold within_reach in *. rewrite Dp, Dq.
  unfold Postgres.run_detached, Sqlite.run_detached.
  destruct (detached w) as [|n] eqn:E; [split; cbn; lia|].
  rewrite !try_catch_ignore_world.
  assert (Hnd' : NoDup (map id (photos (set_detached n w)))) by exact Hnd.
  destruct (enforce_lengths cfg env (set_detached n w) m Hs Hd Hm Hpos Hnd')
    as (Lp & _).
  pose proof (sqlite_enforce_length cfg env (set_detached n w) m
                Hs Hd Hm Hpos Hnd') as Lq.
  rewrite Lp. cbn [photos set_detached Nat.pred] in *. split; lia.
Qed.

Lemma serve_reach cfg w er m :
  MAX_PHOTOS cfg = Some m -> 0 <= m ->
  (snd er = Enforce ->
   selectFault (fst er) = None /\ deleteFault (fst er) = None) ->
  NoDup (map id (photos w)) -> within_reach m w ->
  within_reach m (pg_serve cfg w er) /\ within_reach m (sqlite_serve cfg w er).
Proof.
  intros Hm Hpos Hdb Hnd Hr. unfold pg_serve, sqlite_serve.
  destruct (snd er) as [q|ident now file|key i| | |h].
  - now rewrite pg_get_photos_world, sqlite_get_photos_world.
  - destruct (upload_bookkeeping (fst er) ident now file w)
      as (_ & Cp & _ & Cq).
    unfold within_reach in *.
    split; [destruct Cp as [(Ed & Ep)|(Ed & Ep)]
           |destruct Cq as [(Ed & Ep)|(Ed & Ep)]];
      rewrite Ed, ?Ep; lia.
  - destruct (delete_bookkeeping cfg (fst er) key i w)
      as (_ & (Dp & Lp) & _ & (Dq & Lq)).
    unfold within_reach in *. rewrite Dp, Dq. split; lia.
  - destruct (Hdb eq_refl) as (Hs & Hd). now apply run_detached_reach.
  - split; exact Hr.
  - split; exact Hr.
Qed.

(** X23: the wall stays within reach of its capacity.  With [MAX_PHOTOS]
    a number [m >= 0] and a database that answers the statements of the
    enforcement runs, the catalog is never over [m] rows by more than the
    number of enforcement runs still to come, whatever requests are served
    and whatever else fails; so once the runs that the uploads started are
    done, it holds at most [m] rows.  In both variants. *)
Theorem catalog_stays_within_reach_of_capacity cfg trace w m :
  MAX_PHOTOS cfg = Some m -> 0 <= m ->
  enforcement_answered trace ->
  catalog_ok w -> within_reach m w ->
  within_reach m (pg_serve_all cfg trace w)
  /\ within_reach m (sqlite_serve_all cfg trace w).
Proof.
  intros Hm Hpos Htr Hok Hr. unfold pg_serve_all, sqlite_serve_all. split.
  - revert w Hok Hr. induction Htr as [|er r Hdb _ IH]; intros w Hok Hr;
      [exact Hr|].
    cbn [fold_left]. apply IH.
    + eapply step_effect_catalog_ok; [exact Hok|].
      exact (proj1 (serve_effect cfg w er)).
    + exact (proj1 (serve_reach cfg w er m Hm Hpos Hdb (proj1 Hok) Hr)).
  - revert w Hok Hr. induction Htr as [|er r Hdb _ IH]; intros w Hok Hr;
      [exact Hr|].
    cbn [fold_left]. apply IH.
    + eapply step_effect_catalog_ok; [exact Hok|].
      exact (proj2 (serve_effect cfg w er)).
    + exact (proj2 (serve_reach cfg w er m Hm Hpos Hdb (proj1 Hok) Hr)).
Qed.

Lemma catalog_stays_within_reach_of_capacity_witness :
  within_reach 2 (pg_serve_all max_two
                    [(sample_env, UploadPhoto "A" 1000 (Some "a.jpg"));
                     (sample_env, UploadPhoto "B" 2000 (Some "b.jpg"));
                     (sample_env, UploadPhoto "C" 3000 (Some "c.jpg"));
                     (sample_env, Enforce);
                     (insert_down, Enforce)]
                    empty_world).
Proof.
  apply (catalog_stays_within_reach_of_capacity max_two _ empty_world 2).
  - reflexivity.
  - lia.
  - repeat constructor.
  - split; constructor.
  - unfold within_reach. cbn. lia.
Defined.

(* --------------------------------------------------------------------- *)
(** ** The channel, as the routes drive it *)
(* --------------------------------------------------------------------- *)

Lemma received_frames h (evs : list Event) (hs : list Handle) :
  NoDup hs -> In h hs ->
  map snd (filter (fun x => Nat.eqb (fst x) h)
                  (flat_map (fun ev => map (fun h' => (h', ev)) hs) evs))
  = evs.
Proof.
  intros Hnd Hin. induction evs as [|ev r IH]; [reflexivity|].
  cbn [flat_map]. rewrite filter_app, map_app, IH, received_writes by exact Hnd.
  apply existsb_eqb_In in Hin. now rewrite Hin.
Qed.

Lemma channel_kept_wf ans w w' :
  bus_wf w -> channel_kept ans w w' -> bus_wf w'.
Proof.
  intros (Hnd & Hc & Hw) (Es & En & Ew). unfold bus_wf.
  rewrite Es, En, Ew. repeat split; try assumption.
  apply Forall_app. split; [exact Hw|].
  apply Forall_forall. intros x Hx. unfold frames_for in Hx.
  apply in_flat_map in Hx. destruct Hx as (ev & _ & Hx).
  apply in_map_iff in Hx. destruct Hx as (a & <- & Ha).
  rewrite Forall_forall in Hc. now apply Hc.
Qed.

Lemma channel_kept_received ans w w' h :
  bus_wf w -> channel_kept ans w w' -> In h (sseClients w) ->
  In h (sseClients w') /\ received h w' = received h w ++ event_of ans.
Proof.
  intros (Hnd & _) (Es & _ & Ew) Hin. rewrite Es. split; [exact Hin|].
  unfold received. rewrite Ew, filter_app, map_app. f_equal.
  now apply received_frames.
Qed.

Lemma serve_bus_wf cfg w er :
  bus_wf w -> bus_wf (pg_serve cfg w er) /\ bus_wf (sqlite_serve cfg w er).
Proof.
  intros Hwf. unfold pg_serve, sqlite_serve.
  destruct (snd er) as [q|ident now file|key i| | |h].
  - now rewrite pg_get_photos_world, sqlite_get_photos_world.
  - destruct (upload_bookkeeping (fst er) ident now file w)
      as (Kp & _ & Kq & _).
    split; eapply channel_kept_wf; eassumption.
  - destruct (delete_bookkeeping cfg (fst er) key i w)
      as (Kp & _ & Kq & _).
    split; eapply channel_kept_wf; eassumption.
  - destruct (run_detached_bookkeeping cfg (fst er) w)
      as (Sp & Np & Wp & _ & Sq & Nq & Wq & _).
    unfold bus_wf. now rewrite Sp, Np, Wp, Sq, Nq, Wq.
  - split; exact (bus_wf_step w Connect Hwf).
  - split; exact (bus_wf_step w (Close h) Hwf).
Qed.

Lemma serve_received cfg w er h :
  bus_wf w -> In h (sseClients w) -> snd er <> CloseEvents h ->
  (In h (sseClients (pg_serve cfg w er))
   /\ received h (pg_serve cfg w er) = received h w ++ pg_event cfg w er)
  /\ (In h (sseClients (sqlite_serve cfg w er))
      /\ received h (sqlite_serve cfg w er)
         = received h w ++ sqlite_event cfg w er).
Proof.
  intros Hwf Hin Hopen.
  pose proof (fresh_handle_not_member w Hwf) as Hfresh.
  unfold pg_serve, sqlite_serve, pg_event, sqlite_event.
  destruct (snd er) as [q|ident now file|key i| | |h'].
  - destruct (listing_announces_nothing (fst er) q w (sseClients w))
      as (_ & _ & Ep & Eq).
    rewrite Ep, Eq, pg_get_photos_world, sqlite_get_photos_world, app_nil_r.
    now repeat split.
  - destruct (upload_bookkeeping (fst er) ident now file w)
      as (Kp & _ & Kq & _).
    split; eapply channel_kept_received; eassumption.
  - destruct (delete_bookkeeping cfg (fst er) key i w)
      as (Kp & _ & Kq & _).
    split; eapply channel_kept_received; eassumption.
  - destruct (run_detached_bookkeeping cfg (fst er) w)
      as (Sp & _ & Wp & _ & Sq & _ & Wq & _).
    unfold received. rewrite Sp, Wp, Sq, Wq, app_nil_r. now repeat split.
  - assert (H : In h (sseClients (snd (get_events w)))
                /\ received h (snd (get_events w)) = received h w ++ []).
    { unfold get_events, res_write, received. cbn.
      rewrite set_add_fresh by exact Hfresh. split; [apply in_or_app; now left|].
      rewrite filter_app, map_app. f_equal. cbn.
      destruct (Nat.eqb (nextHandle w) h) eqn:E; [|reflexivity].
      apply Nat.eqb_eq in E. subst h. contradiction. }
    split; exact H.
  - assert (H : In h (sseClients (snd (on_close h' w)))
                /\ received h (snd (on_close h' w)) = received h w ++ []).
    { unfold on_close, received. cbn [snd sseClients wire].
      rewrite app_nil_r. split; [|reflexivity].
      apply set_delete_In. split; [exact Hin|]. intros ->. now apply Hopen. }
    split; exact H.
Qed.

Lemma serve_all_bus_wf cfg trace w :
  bus_wf w ->
  bus_wf (pg_serve_all cfg trace w) /\ bus_wf (sqlite_serve_all cfg trace w).
Proof.
  unfold pg_serve_all, sqlite_serve_all. revert w.
  induction trace as [|er r IH]; intros w Hwf; [now split|].
  cbn [fold_left]. destruct (serve_bus_wf cfg w er Hwf) as (Hp & Hq).
  split; [exact (proj1 (IH _ Hp))|exact (proj2 (IH _ Hq))].
Qed.

Lemma serve_all_received cfg trace w h :
  bus_wf w -> In h (sseClients w) ->
  ~ In (CloseEvents h) (map snd trace) ->
  received h (pg_serve_all cfg trace w)
  = received h w ++ pg_announced cfg trace w
  /\ received h (sqlite_serve_all cfg trace w)
     = received h w ++ sqlite_announced cfg trace w.
Proof.
  unfold pg_serve_all, sqlite_serve_all. revert w.
  induction trace as [|er r IH]; intros w Hwf Hin Hopen;
    [cbn; now rewrite app_nil_r|].
  cbn [fold_left pg_announced sqlite_announced].
  assert (Hhere : snd er <> CloseEvents h)
    by (intros E; apply Hopen; left; exact E).
  assert (Hlater : ~ In (CloseEvents h) (map snd r))
    by (intros E; apply Hopen; right; exact E).
  destruct (serve_bus_wf cfg w er Hwf) as (Wp & Wq).
  destruct (serve_received cfg w er h Hwf Hin Hhere)
    as ((Ip & Rp) & (Iq & Rq)).
  split.
  - rewrite (proj1 (IH _ Wp Ip Hlater)), Rp. now rewrite <- app_assoc.
  - rewrite (proj2 (IH _ Wq Iq Hlater)), Rq. now rewrite <- app_assoc.
Qed.

(** X24: what an open connection is sent.  A connection opened after any
    sequence of requests, and not closed since, has received its hello frame
    and then, in order, exactly the events of the answers given since it
    opened: the photo of every upload answered 200 and the id of every
    delete answered 200, nothing for any other answer, for a listing or for
    an enforcement run, and nothing from before it opened.  In both
    variants. *)
Theorem connection_receives_the_announced_events cfg trace0 trace1 :
  ~ In (CloseEvents (nextHandle (pg_serve_all cfg trace0 empty_world)))
       (map snd trace1) ->
  ~ In (CloseEvents (nextHandle (sqlite_serve_all cfg trace0 empty_world)))
       (map snd trace1) ->
  received (nextHandle (pg_serve_all cfg trace0 empty_world))
           (pg_serve_all cfg trace1
              (snd (get_events (pg_serve_all cfg trace0 empty_world))))
  = Hello :: pg_announced cfg trace1
               (snd (get_events (pg_serve_all cfg trace0 empty_world)))
  /\ received (nextHandle (sqlite_serve_all cfg trace0 empty_world))
              (sqlite_serve_all cfg trace1
                 (snd (get_events (sqlite_serve_all cfg trace0 empty_world))))
     = Hello :: sqlite_announced cfg trace1
                  (snd (get_events (sqlite_serve_all cfg trace0 empty_world))).
Proof.
  intros Hp Hq.
  destruct (serve_all_bus_wf cfg trace0 empty_world bus_wf_empty) as (Wp & Wq).
  assert (Hopen : forall w0, bus_wf w0 ->
            bus_wf (snd (get_events w0))
            /\ In (nextHandle w0) (sseClients (snd (get_events w0)))
            /\ received (nextHandle w0) (snd (get_events w0)) = [Hello]).
  { intros w0 Hwf. pose proof (fresh_handle_not_member w0 Hwf) as Hfresh.
    split; [exact (bus_wf_step w0 Connect Hwf)|]. split.
    - cbn. rewrite set_add_fresh by exact Hfresh. apply in_or_app. right.
      now left.
    - pose proof (received_fresh w0 Hwf) as Hnone.
      unfold received in Hnone |- *. unfold get_events, res_write. cbn.
      rewrite filter_app, map_app, Hnone. cbn. now rewrite Nat.eqb_refl. }
  split.
  - destruct (Hopen _ Wp) as (W1 & I1 & R1).
    rewrite (proj1 (serve_all_received cfg trace1 _ _ W1 I1 Hp)).
    now rewrite R1.
  - destruct (Hopen _ Wq) as (W1 & I1 & R1).
    rewrite (proj2 (serve_all_received cfg trace1 _ _ W1 I1 Hq)).
    now rewrite R1.
Qed.

Lemma connection_receives_the_announced_events_witness :
  received 0%nat
    (pg_serve_all max_two
       [(sample_env, UploadPhoto "B" 2000 (Some "b.jpg"));
        (sample_env, ListPhotos None);
        (sample_env, DeletePhoto None "B");
        (sample_env, DeletePhoto (Some "12345") "A");
        (sample_env, OpenEvents);
        (sample_env, Enforce)]
       (snd (get_events
               (pg_serve_all max_two
                  [(sample_env, UploadPhoto "A" 1000 (Some "a.jpg"))]
                  empty_world))))
  = Hello :: pg_announced max_two
       [(sample_env, UploadPhoto "B" 2000 (Some "b.jpg"));
        (sample_env, ListPhotos None);
        (sample_env, DeletePhoto None "B");
        (sample_env, DeletePhoto (Some "12345") "A");
        (sample_env, OpenEvents);
        (sample_env, Enforce)]
       (snd (get_events
               (pg_serve_all max_two
                  [(sample_env, UploadPhoto "A" 1000 (Some "a.jpg"))]
                  empty_world))).
Proof.
  apply (connection_receives_the_announced_events max_two
           [(sample_env, UploadPhoto "A" 1000 (Some "a.jpg"))]).
  - cbn. intros H. repeat (destruct H as [H|H]; [discriminate H|]). exact H.
  - cbn. intros H. repeat (destruct H as [H|H]; [discriminate H|]). exact H.
Defined.
